(** * The procedural animation engine of the typhoon education front-end

    A shallow embedding of the three canvases

      - [src/components/WaveCanvas.tsx]
      - [src/components/ShoalingCanvas.tsx]
      - [src/components/Typhoon/TyphoonCanvas.tsx]

    JavaScript numbers are embedded as exact rationals [Q]: rounding, NaN and
    the infinities of IEEE doubles are outside the model, except in
    [ShoalingDoubles], which recomputes one point of the ShoalingCanvas
    water line in binary64.  The functions of
    the JavaScript [Math] object that are not rational ([Math.sin],
    [Math.exp], ...) are taken as an interface, see [JSMath].  The mutable
    refs of a component ([phaseRef], [ripplesRef], [particlesRef], ...)
    become the fields of an explicit state record that every frame callback
    receives and returns. *)

From Stdlib Require Import QArith Qround Qminmax Qabs ZArith List Bool Lia Lqa.
From Stdlib Require Floats.PrimFloat.
Import ListNotations.
Open Scope Q_scope.

(** ** Numbers *)

(** [a < b] as a boolean, for the tests of the source. *)
Definition Qlt_bool (a b : Q) : bool := negb (Qle_bool b a).

(** [Math.floor] and [Math.round] (halves go up) with an integer result. *)
Definition js_floor (q : Q) : Z := Qfloor q.
Definition js_round (q : Q) : Z := Qfloor (q + 0.5).

(** The remainder [a % b] of JavaScript: the quotient is truncated towards
    zero, so the result has the sign of [a]. *)
Definition Qtrunc (q : Q) : Z := if Qle_bool 0 q then Qfloor q else Qceiling q.
Definition js_rem (a b : Q) : Q := a - b * inject_Z (Qtrunc (a / b)).

(** The part of [Math] that has no rational definition.  [random k] is the
    value of the [k]-th call of [Math.random()]. *)
Class JSMath : Type := {
  sin : Q -> Q;
  cos : Q -> Q;
  exp : Q -> Q;
  sqrt : Q -> Q;
  hypot : Q -> Q -> Q;
  PI : Q;
  random : nat -> Q
}.

(** A rational instance to run the model on examples: a flat [sin], constant
    [cos] and [exp], and a fixed sequence of draws in [0, 1) for
    [Math.random()].  No theorem below that quantifies over [JSMath] depends
    on it. *)
Definition exampleMath : JSMath := {|
  sin := fun _ => 0;
  cos := fun _ => 1;
  exp := fun _ => 1;
  sqrt := fun x => x;
  hypot := fun a b => Qmax (Qabs a) (Qabs b);
  PI := 3.14159;
  random := fun k => inject_Z ((37 * Z.of_nat k + 11) mod 100) / 100
|}.

(** ** Data shared by the canvases *)

Record Point : Type := mkPoint { pt_x : Q; pt_y : Q }.

(** [interface Particle] of WaveCanvas.tsx and ShoalingCanvas.tsx. *)
Record Particle : Type := mkParticle {
  p_x : Q;
  p_y : Q;
  vx : Q;
  vy : Q;
  life : Q;
  maxLife : Q;
  size : Q;
  alpha : Q
}.

(** [interface Ripple]. *)
Record Ripple : Type := mkRipple {
  r_x : Q;
  strength : Q;
  radius : Q;
  decay : Q
}.

(** [pointerRef.current]. *)
Record Pointer : Type := mkPointer {
  ptr_x : Q;
  ptr_y : Q;
  inside : bool
}.

(** The values of [x] visited by [for (let x = 0; x <= w; x += dx)], for an
    integer width [w] and step [dx > 0]. *)
Definition sample_xs (dx w : Z) : list Z :=
  map (fun i => (dx * Z.of_nat i)%Z) (seq 0 (Z.to_nat (w / dx + 1))).

(** A strength [s] after [n] multiplications by the decay [d]. *)
Fixpoint decayed (s d : Q) (n : nat) : Q :=
  match n with
  | O => s
  | S n' => decayed s d n' * d
  end.

(** ** TyphoonCanvas.tsx *)

Module TyphoonCanvas.
Section Canvas.
Context {M : JSMath}.

(** [TyphoonCanvasProps], as last stored in [spinRef], [travelRef], ... *)
Record Props : Type := mkProps {
  spin : Q;
  travel : Q;
  wind : Q;
  pathAmp : Q;
  bands : Q
}.

(** [startTimeRef], [centersRef] and the local [lastTrailSample]. *)
Record State : Type := mkState {
  startTime : Q;
  centers : list Point;
  lastTrailSample : Q
}.

Definition sampleCenter (P : Props) (w h : Z) (tSec : Q) : Point :=
  let speed := travel P in
  let totalX := js_rem (tSec * speed) (inject_Z w + 240) in
  let x := -(120) + totalX in
  let amp := pathAmp P in
  let k := 2 * PI / Qmax 360 (inject_Z w) in
  let y := inject_Z h * 0.5 + amp * sin ((x + 160) * k) in
  mkPoint x y.

(** One stroked spiral band, the eye and the eyewall. *)
Record Band : Type := mkBand {
  band_pts : list Point;
  band_alpha : Q;
  band_lightness : Z;
  band_lineWidth : Q
}.

Record Cyclone : Type := mkCyclone {
  cy_bands : list Band;
  eye_gradient_radius : Q;
  eyewall_radius : Q;
  eyewall_alpha : Q
}.

Definition windK (wind : Q) : Q := Qmax 0 (Qmin 1.6 wind).
Definition bandCount (bands : Q) : Z := Z.max 1 (Z.min 10 (js_round bands)).

(** [for (let th = 0; th <= thetaMax; th += seg)] *)
Fixpoint spiral (fuel : nat) (a b thetaMax seg rot offset cx cy th : Q)
  : list Point :=
  match fuel with
  | O => []
  | S fuel' =>
      if Qle_bool th thetaMax then
        let r := a * exp (b * th) in
        let ang := th + rot + offset in
        mkPoint (cx + r * cos ang) (cy + r * sin ang)
          :: spiral fuel' a b thetaMax seg rot offset cx cy (th + seg)
      else []
  end.

(** The number of passes the loop makes, [floor(thetaMax / seg) + 1]; the
    loop below always ends on its own test ([spiral_fuel_enough]). *)
Definition spiral_fuel (thetaMax seg : Q) : nat :=
  Z.to_nat (Qfloor (thetaMax / seg) + 1).

Definition drawCyclone (P : Props) (cx cy timeSec : Q) : Cyclone :=
  let windK := windK (wind P) in
  let bandCount := bandCount (bands P) in
  let rot := timeSec * spin P in
  let a := 3 + 3 * windK in
  let b := 0.18 in
  let turns := 5 in
  let thetaMax := turns * PI * 2 in
  let seg := 0.18 in
  let baseAlpha := 0.08 + 0.18 * windK in
  let lineBase := Qmax 0.6 (1.0 * windK) in
  let band (k : Z) :=
    let offset := inject_Z k * 2 * PI / inject_Z bandCount in
    let alpha :=
      Qmax 0.02 (baseAlpha * (1 - inject_Z k / (inject_Z bandCount + 1))) in
    mkBand (spiral (spiral_fuel thetaMax seg) a b thetaMax seg rot offset cx cy 0)
           alpha
           (if Qlt_bool 1 windK then 60 else 65)%Z
           (lineBase + (inject_Z bandCount - inject_Z k) * 0.25) in
  let eyeR := 8 + 3 * windK in
  mkCyclone (map (fun k => band (Z.of_nat k)) (seq 0 (Z.to_nat bandCount)))
            (eyeR * 2.2)
            eyeR
            (0.35 + windK * 0.15).

(** The props a frame really uses: the stored ones with [wind] and [bands]
    replaced by their clamped values. *)
Definition clampProps (P : Props) : Props :=
  mkProps (spin P) (travel P) (windK (wind P))
          (pathAmp P) (inject_Z (bandCount (bands P))).

(** The line [drawTrail] strokes: nothing with fewer than two points. *)
Definition drawTrail (pts : list Point) : list Point :=
  if (length pts <? 2)%nat then [] else pts.

(** [pts[pts.length - 1]] *)
Definition last_point (pts : list Point) : Point := last pts (mkPoint 0 0).

(** [pts.splice(0, n)] *)
Definition splice_front {A : Type} (n : nat) (pts : list A) : list A :=
  skipn n pts.

(** The trail part of [loop]: the new [centersRef.current] and
    [lastTrailSample]. *)
Definition recordTrail (now : Q) (c : Point) (pts : list Point) (lastSample : Q)
  : list Point * Q :=
  if Qlt_bool 40 (now - lastSample) then
    let pts' :=
      if (length pts =? 0)%nat
         || Qlt_bool 2 (hypot (pt_x (last_point pts) - pt_x c)
                              (pt_y (last_point pts) - pt_y c))
      then
        let pushed := pts ++ [c] in
        if (400 <? length pushed)%nat
        then splice_front (length pushed - 400) pushed
        else pushed
      else pts in
    (pts', now)
  else (pts, lastSample).

(** What one frame paints. *)
Record Frame : Type := mkFrame {
  fr_tSec : Q;
  fr_center : Point;
  fr_trail : list Point;
  fr_cyclone : Cyclone
}.

(** [loop], called with [now = performance.now()]. *)
Definition loop (P : Props) (w h : Z) (now : Q) (s : State) : State * Frame :=
  let tSec := (now - startTime s) / 1000 in
  let c := sampleCenter P w h tSec in
  let '(pts, lastSample) := recordTrail now c (centers s) (lastTrailSample s) in
  (mkState (startTime s) pts lastSample,
   mkFrame tSec c (drawTrail pts) (drawCyclone P (pt_x c) (pt_y c) tSec)).

(** The state set up by the effect on mount, at time [t0]. *)
Definition mount (t0 : Q) : State := mkState t0 [] 0.

(** A run: one frame per entry, with the props, the client size and the
    value of [performance.now()] current at that frame. *)
Fixpoint run (frames : list (Props * Z * Z * Q)) (s : State) : State :=
  match frames with
  | [] => s
  | (P, w, h, now) :: rest => run rest (fst (loop P w h now s))
  end.

(** The states of [run], computed without painting the frames. *)
Fixpoint trailRun (frames : list (Props * Z * Z * Q)) (s : State) : State :=
  match frames with
  | [] => s
  | (P, w, h, now) :: rest =>
      let c := sampleCenter P w h ((now - startTime s) / 1000) in
      let '(pts, lastSample) := recordTrail now c (centers s) (lastTrailSample s) in
      trailRun rest (mkState (startTime s) pts lastSample)
  end.

End Canvas.
End TyphoonCanvas.

(** ** WaveCanvas.tsx *)

Module WaveCanvas.
Section Canvas.
Context {M : JSMath}.

(** The refs and closure variables of the component.  [rng] counts the calls
    of [Math.random()] made so far. *)
Record State : Type := mkState {
  mounted : bool;
  phase : Q;
  amp : Q;
  speed : Q;
  wl : Q;
  pointer : Pointer;
  ripples : list Ripple;
  particles : list Particle;
  lastY : Q;
  rng : nat
}.

(** [rippleOffset(x, t)]: the displacement at [x] and the ripples left in
    [ripplesRef.current].  The source walks the array from its last index
    down to 0, so the tail of the list is visited before its head; a
    [splice(i, 1)] drops the ripple just visited. *)
Fixpoint rippleOffset (speed x t : Q) (ripples : list Ripple)
  : Q * list Ripple :=
  match ripples with
  | [] => (0, [])
  | r :: rest =>
      let '(dy, rest') := rippleOffset speed x t rest in
      let sigma := radius r * 0.6 in
      let dx := x - r_x r in
      let w := Qmax 0.12 (0.18 * speed) in
      let envelope := exp (-(dx * dx) / (2 * sigma * sigma)) in
      let dy' := dy + strength r * envelope * cos ((dx / sigma) * 2.2 - w * t) in
      let r' := mkRipple (r_x r) (strength r * decay r) (radius r) (decay r) in
      (dy', if Qlt_bool (strength r') 0.3 then rest' else r' :: rest')
  end.

(** What one call of [rippleOffset] does to [ripplesRef.current], read off
    its loop: every strength is multiplied by its decay, and the ripples
    that fall below 0.3 are spliced out. *)
Fixpoint decayAll (ripples : list Ripple) : list Ripple :=
  match ripples with
  | [] => []
  | r :: rest =>
      let r' := mkRipple (r_x r) (strength r * decay r) (radius r) (decay r) in
      if Qlt_bool (strength r') 0.3 then decayAll rest else r' :: decayAll rest
  end.

Definition maxParticles (w : Z) : Z :=
  Z.max 40 (Z.min 110 (js_floor (inject_Z w / 8))).

(** One pass of the spawn loop body: six calls of [Math.random()], in the
    order of the source. *)
Definition newParticle (speed : Q) (w : Z) (crestYAtX : Q -> Q) (k : nat)
  : Particle :=
  let x := random k * inject_Z w in
  let y := crestYAtX x - 4 + (random (k + 1) - 0.5) * 6 in
  mkParticle x y
    (0.6 + random (k + 2) * 0.6 + speed * 0.2)
    (-(0.15) + (random (k + 3) - 0.5) * 0.3)
    0
    (60 + random (k + 4) * 60)
    (1.2 + random (k + 5) * 1.6)
    0.8.

(** [for (let i = 0; i < spawnCount; i++)] with its [break]. *)
Fixpoint spawn (spawnCount : nat) (speed : Q) (w : Z) (crestYAtX : Q -> Q)
    (particles : list Particle) (k : nat) : list Particle * nat :=
  match spawnCount with
  | O => (particles, k)
  | S n =>
      if (maxParticles w <=? Z.of_nat (length particles))%Z
      then (particles, k)
      else spawn n speed w crestYAtX
             (particles ++ [newParticle speed w crestYAtX k]) (k + 6)%nat
  end.

(** The body of the update loop for one particle; [None] when the particle
    is spliced out. *)
Definition stepParticle (pr : Pointer) (w h : Z) (p : Particle)
  : option Particle :=
  let repelRadius := 38 in
  let life1 := life p + 1 in
  let x1 := p_x p + vx p in
  let y1 := p_y p + vy p in
  let vy1 := vy p + 0.003 in
  let '(vx2, vy2) :=
    if inside pr then
      let dx := x1 - ptr_x pr in
      let dy := y1 - ptr_y pr in
      let d2 := dx * dx + dy * dy in
      if Qlt_bool d2 (repelRadius * repelRadius) then
        let d := if Qeq_bool (sqrt d2) 0 then 1 else sqrt d2 in
        (vx p + (dx / d) * 0.08, vy1 + (dy / d) * 0.08)
      else (vx p, vy1)
    else (vx p, vy1) in
  let lifeRatio := life1 / maxLife p in
  let alpha1 := 0.8 * (1 - lifeRatio) in
  if Qle_bool (maxLife p) life1
     || Qlt_bool (inject_Z w + 5) x1
     || Qlt_bool (inject_Z h + 5) y1
  then None
  else Some (mkParticle x1 y1 vx2 vy2 life1 (maxLife p) (size p) alpha1).

(** [for (let i = particles.length - 1; i >= 0; i--)] *)
Fixpoint updateLoop (pr : Pointer) (w h : Z) (particles : list Particle)
  : list Particle :=
  match particles with
  | [] => []
  | p :: rest =>
      let rest' := updateLoop pr w h rest in
      match stepParticle pr w h p with
      | None => rest'
      | Some p' => p' :: rest'
      end
  end.

Definition updateAndDrawParticles (w h : Z) (crestYAtX : Q -> Q) (s : State)
  : list Particle * nat :=
  let spawnCount :=
    if (Z.of_nat (length (particles s)) <? maxParticles w)%Z
    then 4%nat else 1%nat in
  let '(ps, k) := spawn spawnCount (speed s) w crestYAtX (particles s) (rng s) in
  (updateLoop (pointer s) w h ps, k).

Definition pointerHint (pr : Pointer) (x : Q) : Q :=
  if negb (inside pr) then 0
  else
    let dx := Qabs (x - ptr_x pr) in
    let r := 90 in
    if Qlt_bool r dx then 0
    else
      let k := 1 - dx / r in
      k * 2.5.

(** The pre-pass of [drawWaveLayer]: the points of the layer and the ripples
    left after sampling. *)
Fixpoint layerPoints (s : State) (layerIndex : Z) (amp wl yBase t : Q)
    (xs : list Z) (ripples : list Ripple) : list Point * list Ripple :=
  match xs with
  | [] => ([], ripples)
  | x :: xs' =>
      let '(ro, ripples1) := rippleOffset (speed s) (inject_Z x) t ripples in
      let crest :=
        sin ((inject_Z x + phase s * 60 * (inject_Z layerIndex + 1)) / wl) * amp
        + ro + pointerHint (pointer s) (inject_Z x) in
      let '(pts, ripples2) := layerPoints s layerIndex amp wl yBase t xs' ripples1 in
      (mkPoint (inject_Z x) (yBase + crest) :: pts, ripples2)
  end.

Definition drawWaveLayer (w h : Z) (layerIndex : Z) (t : Q) (s : State)
    (ripples : list Ripple) : list Point * list Ripple :=
  let baseAmp := amp s in
  let baseWl := wl s in
  let amp := baseAmp * (1 - inject_Z layerIndex * 0.22) in
  let wl := Qmax 80 (baseWl - inject_Z layerIndex * 44) in
  let yBase := inject_Z h * 0.5 + inject_Z layerIndex * 6 in
  layerPoints s layerIndex amp wl yBase t (sample_xs 2 w) ripples.

(** The sampler [drawWaveLayer] returns: [pts[idx].y] for the nearest even
    step index [idx]. *)
Definition crestIndex (pts : list Point) (x : Q) : Z :=
  Z.max 0 (Z.min (Z.of_nat (length pts) - 1) (js_round (x / 2))).

Definition crestSampler (pts : list Point) (x : Q) : Q :=
  let idx := crestIndex pts x in
  pt_y (nth (Z.to_nat idx) pts (mkPoint 0 0)).

(** [for (let i = layerCount - 1; i >= 0; i--)], with [layers] the indices
    still to draw.  Returns the point lists in drawing order. *)
Fixpoint drawLayers (w h : Z) (t : Q) (s : State) (layers : list Z)
    (ripples : list Ripple) : list (list Point) * list Ripple :=
  match layers with
  | [] => ([], ripples)
  | i :: layers' =>
      let '(pts, ripples1) := drawWaveLayer w h i t s ripples in
      let '(ptss, ripples2) := drawLayers w h t s layers' ripples1 in
      (pts :: ptss, ripples2)
  end.

(** [draw], for a canvas of client size [w] x [h], called when
    [performance.now()] is [now].  The second component is the list of
    stroked wave lines, back to front. *)
Definition draw (w h : Z) (now : Q) (s : State) : State * list (list Point) :=
  if negb (mounted s) then (s, [])
  else
    let s1 := mkState (mounted s) (phase s + 0.02 * speed s) (amp s) (speed s)
                (wl s) (pointer s) (ripples s) (particles s) (lastY s) (rng s) in
    let t := now * 0.001 in
    let '(ptss, ripples1) := drawLayers w h t s1 [4; 3; 2; 1; 0]%Z (ripples s1) in
    let front := last ptss [] in
    let '(ps, k) := updateAndDrawParticles w h (crestSampler front) s1 in
    (mkState (mounted s1) (phase s1) (amp s1) (speed s1) (wl s1) (pointer s1)
       ripples1 ps (lastY s1) k,
     ptss).

(** The effect that copies the props into the refs. *)
Definition syncProps (amplitude speed wavelength : Q) (s : State) : State :=
  mkState (mounted s) (phase s) amplitude speed wavelength (pointer s)
    (ripples s) (particles s) (lastY s) (rng s).

Definition onTouchStart (clientY : Q) (s : State) : State :=
  mkState (mounted s) (phase s) (amp s) (speed s) (wl s) (pointer s)
    (ripples s) (particles s) clientY (rng s).

Definition onTouchMove (clientY : Q) (s : State) : State :=
  let y := clientY in
  let dy := lastY s - y in
  mkState (mounted s) (phase s)
    (Qmax 5 (Qmin 120 (amp s + dy * 0.2)))
    (speed s) (wl s) (pointer s) (ripples s) (particles s) y (rng s).

Definition spawnRippleAt (px : Q) (s : State) : State :=
  mkState (mounted s) (phase s) (amp s) (speed s) (wl s) (pointer s)
    (ripples s ++ [mkRipple px 18 120 0.985]) (particles s) (lastY s) (rng s).

(** A touch drag: one [touchmove] per reported [clientY], in order. *)
Definition touchDrag (ys : list Q) (s : State) : State :=
  fold_left (fun s y => onTouchMove y s) ys s.

(** The state when the effect starts; its first act is [resize(); draw()]. *)
Definition init (amplitude speed wavelength : Q) : State :=
  mkState true 0 amplitude speed wavelength (mkPointer 0 0 false) [] [] 0 0.

(** One frame at each of the times [nows], with no event in between. *)
Fixpoint frames (w h : Z) (nows : list Q) (s : State) : State :=
  match nows with
  | [] => s
  | now :: rest => frames w h rest (fst (draw w h now s))
  end.

Definition onMouseMove (x y : Q) (s : State) : State :=
  mkState (mounted s) (phase s) (amp s) (speed s) (wl s) (mkPointer x y true)
    (ripples s) (particles s) (lastY s) (rng s).

Definition onMouseLeave (s : State) : State :=
  mkState (mounted s) (phase s) (amp s) (speed s) (wl s)
    (mkPointer (ptr_x (pointer s)) (ptr_y (pointer s)) false)
    (ripples s) (particles s) (lastY s) (rng s).

(** The cleanup of the effect. *)
Definition unmount (s : State) : State :=
  mkState false (phase s) (amp s) (speed s) (wl s) (pointer s) (ripples s)
    (particles s) (lastY s) (rng s).

(** Everything that can happen to a canvas instance: an animation frame at
    the current client size and time, an input event (with the pointer
    position already made relative to the canvas), a change of the props,
    the cleanup. *)
Inductive Event : Type :=
| Frame (w h : Z) (now : Q)
| TouchStart (clientY : Q)
| TouchMove (clientY : Q)
| TouchEnd (px : Q)
| MouseMove (x y : Q)
| MouseLeave
| Click (px : Q)
| PropsChange (amplitude speed wavelength : Q)
| Unmount.

Definition handle (e : Event) (s : State) : State :=
  match e with
  | Frame w h now => fst (draw w h now s)
  | TouchStart y => onTouchStart y s
  | TouchMove y => onTouchMove y s
  | TouchEnd px => spawnRippleAt px s
  | MouseMove x y => onMouseMove x y s
  | MouseLeave => onMouseLeave s
  | Click px => spawnRippleAt px s
  | PropsChange a sp l => syncProps a sp l s
  | Unmount => unmount s
  end.

Definition run (es : list Event) (s : State) : State :=
  fold_left (fun s e => handle e s) es s.

(** The events that write [ampRef]. *)
Definition sets_amplitude (e : Event) : bool :=
  match e with
  | TouchMove _ | PropsChange _ _ _ => true
  | _ => false
  end.

(** What holds of every ripple this canvas ever stores. *)
Definition ripple_ok (r : Ripple) : Prop :=
  radius r = 120 /\ decay r = 0.985 /\ 0.3 <= strength r <= 18.

(** A drag during which the clamp of [onTouchMove] never bites. *)
Fixpoint unclamped (s : State) (ys : list Q) : Prop :=
  match ys with
  | [] => True
  | y :: rest =>
      5 <= amp s + (lastY s - y) * 0.2 <= 120 /\ unclamped (onTouchMove y s) rest
  end.

(** The foam after a run of update loops, one per frame, each with the
    pointer and the client size of its frame. *)
Definition updateLoops (frames : list (Pointer * Z * Z)) (ps : list Particle)
  : list Particle :=
  fold_left (fun ps f => updateLoop (fst (fst f)) (snd (fst f)) (snd f) ps)
            frames ps.

End Canvas.
End WaveCanvas.

(** ** ShoalingCanvas.tsx *)

Module ShoalingCanvas.
Section Canvas.
Context {M : JSMath}.

Record State : Type := mkState {
  mounted : bool;
  amp : Q;
  speed : Q;
  time : Q;
  pointer : Pointer;
  ripples : list Ripple;
  particles : list Particle;
  lastY : Q;
  rng : nat
}.

Definition seabedY (x w h : Q) : Q :=
  let base := h - Qmax 8 (h * 0.03) in
  let slopeStart := w * 0.18 in
  let slopeEnd := w * 0.72 in
  let topY := h * 0.46 in
  if Qle_bool x slopeStart then base
  else if Qle_bool x slopeEnd then
    let t := (x - slopeStart) / (slopeEnd - slopeStart) in
    base + (topY - base) * t
  else topY.

Definition shoalProgress (x w : Q) : Q :=
  let slopeStart := w * 0.18 in
  let slopeEnd := w * 0.72 in
  if Qle_bool x slopeStart then 0
  else if Qle_bool slopeEnd x then 1
  else
    let t := (x - slopeStart) / (slopeEnd - slopeStart) in
    t * t * (3 - 2 * t).

Definition A (amp0 x w : Q) : Q :=
  let p := shoalProgress x w in
  amp0 * (1 + 1.4 * p).

Definition lambda (x w : Q) : Q :=
  let deep := 260 in
  let shallow := 70 in
  let p := shoalProgress x w in
  deep + (shallow - deep) * p.

(** The two functions whose divisor depends on the canvas width, with the
    division made partial: [None] stands for a division by zero. *)
Definition Qdiv_checked (a b : Q) : option Q :=
  if Qeq_bool b 0 then None else Some (a / b).

Definition seabedY_checked (x w h : Q) : option Q :=
  let base := h - Qmax 8 (h * 0.03) in
  let slopeStart := w * 0.18 in
  let slopeEnd := w * 0.72 in
  let topY := h * 0.46 in
  if Qle_bool x slopeStart then Some base
  else if Qle_bool x slopeEnd then
    match Qdiv_checked (x - slopeStart) (slopeEnd - slopeStart) with
    | Some t => Some (base + (topY - base) * t)
    | None => None
    end
  else Some topY.

Definition shoalProgress_checked (x w : Q) : option Q :=
  let slopeStart := w * 0.18 in
  let slopeEnd := w * 0.72 in
  if Qle_bool x slopeStart then Some 0
  else if Qle_bool slopeEnd x then Some 1
  else
    match Qdiv_checked (x - slopeStart) (slopeEnd - slopeStart) with
    | Some t => Some (t * t * (3 - 2 * t))
    | None => None
    end.

(** [rippleOffset(x)], last index first as in WaveCanvas. *)
Fixpoint rippleOffset (x : Q) (arr : list Ripple) : Q * list Ripple :=
  match arr with
  | [] => (0, [])
  | r :: rest =>
      let '(dy, rest') := rippleOffset x rest in
      let dx := x - r_x r in
      let sigma := radius r * 0.6 in
      let env := exp (-(dx * dx) / (2 * sigma * sigma)) in
      let dy' := dy + strength r * env in
      let r' := mkRipple (r_x r) (strength r * decay r) (radius r) (decay r) in
      (dy', if Qlt_bool (strength r') 0.25 then rest' else r' :: rest')
  end.

Fixpoint decayAll (arr : list Ripple) : list Ripple :=
  match arr with
  | [] => []
  | r :: rest =>
      let r' := mkRipple (r_x r) (strength r * decay r) (radius r) (decay r) in
      if Qlt_bool (strength r') 0.25 then decayAll rest else r' :: decayAll rest
  end.

(** [max] of [updateParticles]. *)
Definition maxParticles (w : Z) : Z :=
  Z.max 36 (Z.min 120 (js_floor (inject_Z w / 8))).

Definition newParticle (speed : Q) (w : Z) (crest : Q -> Q) (k : nat)
  : Particle :=
  let x := inject_Z w * (0.45 + random k * 0.5) in
  let y := crest x - 3 + (random (k + 1) - 0.5) * 4 in
  mkParticle x y
    (0.8 + random (k + 2) * 0.8 + speed * 0.4)
    (-(0.12) + (random (k + 3) - 0.5) * 0.24)
    0
    (60 + random (k + 4) * 70)
    (1 + random (k + 5) * 1.8)
    0.85.

(** [for (let i = 0; i < spawnN; i++)] *)
Fixpoint spawn (spawnN : nat) (speed : Q) (w : Z) (crest : Q -> Q)
    (ps : list Particle) (k : nat) : list Particle * nat :=
  match spawnN with
  | O => (ps, k)
  | S n => spawn n speed w crest (ps ++ [newParticle speed w crest k]) (k + 6)%nat
  end.

Definition stepParticle (pr : Pointer) (w h : Z) (p : Particle)
  : option Particle :=
  let repelR2 := 40 * 40 in
  let life1 := life p + 1 in
  let x1 := p_x p + vx p in
  let y1 := p_y p + vy p in
  let vy1 := vy p + 0.004 in
  let '(vx2, vy2) :=
    if inside pr then
      let dx := x1 - ptr_x pr in
      let dy := y1 - ptr_y pr in
      let d2 := dx * dx + dy * dy in
      if Qlt_bool d2 repelR2 then
        let d := if Qeq_bool (sqrt d2) 0 then 1 else sqrt d2 in
        (vx p + (dx / d) * 0.08, vy1 + (dy / d) * 0.08)
      else (vx p, vy1)
    else (vx p, vy1) in
  let r := life1 / maxLife p in
  let alpha1 := 0.9 * (1 - r) in
  if Qle_bool (maxLife p) life1
     || Qlt_bool (inject_Z w + 6) x1
     || Qlt_bool (inject_Z h + 6) y1
  then None
  else Some (mkParticle x1 y1 vx2 vy2 life1 (maxLife p) (size p) alpha1).

Fixpoint updateLoop (pr : Pointer) (w h : Z) (ps : list Particle)
  : list Particle :=
  match ps with
  | [] => []
  | p :: rest =>
      let rest' := updateLoop pr w h rest in
      match stepParticle pr w h p with
      | None => rest'
      | Some p' => p' :: rest'
      end
  end.

Definition updateParticles (w h : Z) (crest : Q -> Q) (s : State)
  : list Particle * nat :=
  let max := maxParticles w in
  let spawnN := if (Z.of_nat (length (particles s)) <? max)%Z then 3%nat else 1%nat in
  let '(ps, k) := spawn spawnN (speed s) w crest (particles s) (rng s) in
  (updateLoop (pointer s) w h ps, k).

(** One sample of the water line: the point pushed to [pts], and the
    accumulated phase [theta] it was computed from. *)
Record Sample : Type := mkSample {
  smp_theta : Q;
  smp_yWave : Q;
  smp_pt : Point
}.

Definition lift (pr : Pointer) (x : Q) : Q :=
  if inside pr then
    let d := Qabs (x - ptr_x pr) in
    let r := 90 in
    if Qlt_bool d r then (1 - d / r) * 2.2 else 0
  else 0.

(** The loop [for (let x = 0; x <= w; x += dx)] of step 2 of [draw], from a
    phase [theta] and the live ripples. *)
Fixpoint surface (s : State) (w h : Z) (baseY : Q) (xs : list Z) (theta : Q)
    (ripples : list Ripple) : list Sample * list Ripple :=
  match xs with
  | [] => ([], ripples)
  | xz :: xs' =>
      let dx := 2 in
      let x := inject_Z xz in
      let lam := lambda x (inject_Z w) in
      let k := (2 * PI) / lam in
      let theta1 := theta + k * dx in
      let Ay := A (amp s) x (inject_Z w) in
      let '(ro, ripples1) := rippleOffset x ripples in
      let yWave := baseY + Ay * sin theta1 + ro + lift (pointer s) x in
      let bed := seabedY x (inject_Z w) (inject_Z h) in
      let y := Qmin yWave (bed - 2) in
      let '(rest, ripples2) := surface s w h baseY xs' theta1 ripples1 in
      (mkSample theta1 yWave (mkPoint x y) :: rest, ripples2)
  end.

(** The phase as the spec words it: a running integral of the local
    wavenumber, [theta += k(x) * dx] with [k(x) = 2 * PI / lambda(x)] and
    [dx = 2], over the sample positions [xs].  Compared with the phases of
    [surface] in [ShoalingFacts]. *)
Fixpoint phaseIntegral (w : Z) (theta : Q) (xs : list Z) : list Q :=
  match xs with
  | [] => []
  | x :: xs' =>
      let theta1 := theta + (2 * PI / lambda (inject_Z x) (inject_Z w)) * 2 in
      theta1 :: phaseIntegral w theta1 xs'
  end.

Definition crestIndex (pts : list Point) (x : Q) : Z :=
  Z.max 0 (Z.min (Z.of_nat (length pts) - 1) (js_round (x / 2))).

Definition crestSampler (pts : list Point) (x : Q) : Q :=
  let idx := crestIndex pts x in
  pt_y (nth (Z.to_nat idx) pts (mkPoint 0 0)).

(** [draw] for a canvas of client size [w] x [h]: the new state and the
    samples of the water line. *)
Definition draw (w h : Z) (s : State) : State * list Sample :=
  if negb (mounted s) then (s, [])
  else
    let t := time s + 0.016 * (0.9 + speed s * 0.4) in
    let baseY := inject_Z h * 0.38 in
    let '(smps, ripples1) :=
      surface s w h baseY (sample_xs 2 w) (-(2.2) * t) (ripples s) in
    let pts := map smp_pt smps in
    let s1 := mkState (mounted s) (amp s) (speed s) t (pointer s) ripples1
                (particles s) (lastY s) (rng s) in
    let '(ps, k) := updateParticles w h (crestSampler pts) s1 in
    (mkState (mounted s) (amp s) (speed s) t (pointer s) ripples1 ps
       (lastY s) k,
     smps).


Definition syncAmplitude (amplitude : Q) (s : State) : State :=
  mkState (mounted s) amplitude (speed s) (time s) (pointer s) (ripples s)
    (particles s) (lastY s) (rng s).

Definition syncSpeed (speed : Q) (s : State) : State :=
  mkState (mounted s) (amp s) speed (time s) (pointer s) (ripples s)
    (particles s) (lastY s) (rng s).

Definition onTouchStart (clientY : Q) (s : State) : State :=
  mkState (mounted s) (amp s) (speed s) (time s) (pointer s) (ripples s)
    (particles s) clientY (rng s).

Definition onTouchMove (clientY : Q) (s : State) : State :=
  let y := clientY in
  let dy := lastY s - y in
  mkState (mounted s)
    (Qmax 6 (Qmin 120 (amp s + dy * 0.22)))
    (speed s) (time s) (pointer s) (ripples s) (particles s) y (rng s).

Definition spawnRipple (x : Q) (s : State) : State :=
  mkState (mounted s) (amp s) (speed s) (time s) (pointer s)
    (ripples s ++ [mkRipple x 10 120 0.985]) (particles s) (lastY s) (rng s).

Definition onMouseMove (x y : Q) (s : State) : State :=
  mkState (mounted s) (amp s) (speed s) (time s) (mkPointer x y true)
    (ripples s) (particles s) (lastY s) (rng s).

Definition onMouseLeave (s : State) : State :=
  mkState (mounted s) (amp s) (speed s) (time s)
    (mkPointer (ptr_x (pointer s)) (ptr_y (pointer s)) false)
    (ripples s) (particles s) (lastY s) (rng s).

(** The cleanup of the effect. *)
Definition unmount (s : State) : State :=
  mkState false (amp s) (speed s) (time s) (pointer s) (ripples s)
    (particles s) (lastY s) (rng s).

(** Everything that can happen to a canvas instance: an animation frame at
    the current client size, an input event (with the pointer position
    already made relative to the canvas), a prop change, the cleanup. *)
Inductive Event : Type :=
| Frame (w h : Z)
| TouchStart (clientY : Q)
| TouchMove (clientY : Q)
| TouchEnd (x : Q)
| MouseMove (x y : Q)
| MouseLeave
| Click (x : Q)
| PropAmplitude (amplitude : Q)
| PropSpeed (speed : Q)
| Unmount.

Definition handle (e : Event) (s : State) : State :=
  match e with
  | Frame w h => fst (draw w h s)
  | TouchStart y => onTouchStart y s
  | TouchMove y => onTouchMove y s
  | TouchEnd x => spawnRipple x s
  | MouseMove x y => onMouseMove x y s
  | MouseLeave => onMouseLeave s
  | Click x => spawnRipple x s
  | PropAmplitude a => syncAmplitude a s
  | PropSpeed sp => syncSpeed sp s
  | Unmount => unmount s
  end.

Definition run (es : list Event) (s : State) : State :=
  fold_left (fun s e => handle e s) es s.

(** What holds of every ripple this canvas ever stores. *)
Definition ripple_ok (r : Ripple) : Prop :=
  radius r = 120 /\ decay r = 0.985 /\ 0.25 <= strength r <= 10.

Definition touchDrag (ys : list Q) (s : State) : State :=
  fold_left (fun s y => onTouchMove y s) ys s.

Definition init (amplitude speed : Q) : State :=
  mkState true amplitude speed 0 (mkPointer 0 0 false) [] [] 0 0.

Fixpoint frames (w h : Z) (n : nat) (s : State) : State :=
  match n with
  | O => s
  | S n' => frames w h n' (fst (draw w h s))
  end.

(** The events that write [ampRef]. *)
Definition sets_amplitude (e : Event) : bool :=
  match e with
  | TouchMove _ | PropAmplitude _ => true
  | _ => false
  end.

Fixpoint unclamped (s : State) (ys : list Q) : Prop :=
  match ys with
  | [] => True
  | y :: rest =>
      6 <= amp s + (lastY s - y) * 0.22 <= 120 /\ unclamped (onTouchMove y s) rest
  end.

Definition updateLoops (frames : list (Pointer * Z * Z)) (ps : list Particle)
  : list Particle :=
  fold_left (fun ps f => updateLoop (fst (fst f)) (snd (fst f)) (snd f) ps)
            frames ps.

(** Successive values that each exceed the one before by between [lo] and
    [hi], starting after [start]. *)
Fixpoint steps_between (lo hi start : Q) (l : list Q) : Prop :=
  match l with
  | [] => True
  | t :: rest => lo <= t - start <= hi /\ steps_between lo hi t rest
  end.

(** The foam, oldest particle first, is aged: a particle with [n] younger
    particles behind it has lived through more than [n / 3] frames.
    [aged0] is the same right after the spawn loop, before the ages are
    advanced. *)
Fixpoint aged (ps : list Particle) : Prop :=
  match ps with
  | [] => True
  | p :: rest =>
      inject_Z (Z.of_nat (length rest / 3)) + 1 <= life p /\ aged rest
  end.

Fixpoint aged0 (ps : list Particle) : Prop :=
  match ps with
  | [] => True
  | p :: rest => inject_Z (Z.of_nat (length rest / 3)) <= life p /\ aged0 rest
  end.

End Canvas.
End ShoalingCanvas.

(** ** pages/Animation.tsx *)

Module AnimationPage.

(** The state of [AnimationPage]: the five parameters it hands to
    [TyphoonCanvas]. *)
Definition PageState : Type := TyphoonCanvas.Props.

Definition defaults : PageState := TyphoonCanvas.mkProps 1.0 80 0.9 60 5.

(** A change of one of the [ParameterSlider]s, with the value the range
    input reports, and the reset button. *)
Inductive Action : Type :=
| SetSpin (v : Q)
| SetTravel (v : Q)
| SetWind (v : Q)
| SetPathAmp (v : Q)
| SetBands (v : Q)
| Reset.

Definition update (a : Action) (s : PageState) : PageState :=
  match a with
  | SetSpin v =>
      TyphoonCanvas.mkProps v (TyphoonCanvas.travel s) (TyphoonCanvas.wind s)
        (TyphoonCanvas.pathAmp s) (TyphoonCanvas.bands s)
  | SetTravel v =>
      TyphoonCanvas.mkProps (TyphoonCanvas.spin s) v (TyphoonCanvas.wind s)
        (TyphoonCanvas.pathAmp s) (TyphoonCanvas.bands s)
  | SetWind v =>
      TyphoonCanvas.mkProps (TyphoonCanvas.spin s) (TyphoonCanvas.travel s) v
        (TyphoonCanvas.pathAmp s) (TyphoonCanvas.bands s)
  | SetPathAmp v =>
      TyphoonCanvas.mkProps (TyphoonCanvas.spin s) (TyphoonCanvas.travel s)
        (TyphoonCanvas.wind s) v (TyphoonCanvas.bands s)
  | SetBands v =>
      TyphoonCanvas.mkProps (TyphoonCanvas.spin s) (TyphoonCanvas.travel s)
        (TyphoonCanvas.wind s) (TyphoonCanvas.pathAmp s) (inject_Z (js_round v))
  | Reset => defaults
  end.

(** A range input reports a value between its [min] and its [max]. *)
Definition in_slider_range (a : Action) : Prop :=
  match a with
  | SetSpin v => 0 <= v <= 6
  | SetTravel v => 0 <= v <= 180
  | SetWind v => 0 <= v <= 1.6
  | SetPathAmp v => 0 <= v <= 140
  | SetBands v => 2 <= v <= 8
  | Reset => True
  end.

(** The page state the sliders can produce. *)
Definition props_in_range (s : PageState) : Prop :=
  0 <= TyphoonCanvas.spin s <= 6 /\ 0 <= TyphoonCanvas.travel s <= 180 /\
  0 <= TyphoonCanvas.wind s <= 1.6 /\ 0 <= TyphoonCanvas.pathAmp s <= 140 /\
  exists n : Z, (2 <= n <= 8)%Z /\ TyphoonCanvas.bands s = inject_Z n.

Definition session (acts : list Action) : PageState :=
  fold_left (fun s a => update a s) acts defaults.

End AnimationPage.

(** ** One point of the ShoalingCanvas water line in binary64

    The numbers of JavaScript are IEEE-754 doubles.  This module recomputes
    the functions of [src/components/ShoalingCanvas.tsx] on the way to one
    point of the water line with the primitive binary64 floats, to see what
    overflow does to them.  [Math.sin(theta)], [rippleOffset(x)] and [lift]
    enter as the values they returned. *)

Module ShoalingDoubles.
Import PrimFloat.
#[local] Set Warnings "-inexact-float".
Local Open Scope float_scope.


(** [Math.max] and [Math.min] of two numbers: NaN if either is NaN, and
    [-0] counts as smaller than [+0]. *)
Definition js_max (a b : float) : float :=
  if is_nan a || is_nan b then nan
  else if a <? b then b
  else if b <? a then a
  else if is_zero a then a + b else a.


Definition seabedY (x w h : float) : float :=
  let base := h - js_max 8 (h * 0.03) in
  let slopeStart := w * 0.18 in
  let slopeEnd := w * 0.72 in
  let topY := h * 0.46 in
  if x <=? slopeStart then base
  else if x <=? slopeEnd then
    let t := (x - slopeStart) / (slopeEnd - slopeStart) in
    base + (topY - base) * t
  else topY.

Definition shoalProgress (x w : float) : float :=
  let slopeStart := w * 0.18 in
  let slopeEnd := w * 0.72 in
  if x <=? slopeStart then 0
  else if slopeEnd <=? x then 1
  else
    let t := (x - slopeStart) / (slopeEnd - slopeStart) in
    t * t * (3 - 2 * t).

(** [A(x, w)], with [amp0] the value of [ampRef.current]. *)
Definition A (amp0 x w : float) : float :=
  let p := shoalProgress x w in
  amp0 * (1 + 1.4 * p).


End ShoalingDoubles.

(** * Properties *)

(** ** Numbers *)

Lemma Qlt_bool_iff (a b : Q) : Qlt_bool a b = true <-> a < b.
Proof.
  unfold Qlt_bool. rewrite negb_true_iff.
  split; intro H.
  - apply Qnot_le_lt. intro Hle. apply Qle_bool_iff in Hle. congruence.
  - destruct (Qle_bool b a) eqn:E; [|reflexivity].
    apply Qle_bool_iff in E. lra.
Qed.

Lemma Qlt_bool_false_iff (a b : Q) : Qlt_bool a b = false <-> b <= a.
Proof.
  unfold Qlt_bool. rewrite negb_false_iff. apply Qle_bool_iff.
Qed.

Lemma Qle_bool_false_iff (a b : Q) : Qle_bool a b = false <-> b < a.
Proof.
  split; intro H.
  - apply Qnot_le_lt. intro Hle. apply Qle_bool_iff in Hle. congruence.
  - destruct (Qle_bool a b) eqn:E; [|reflexivity].
    apply Qle_bool_iff in E. lra.
Qed.

Lemma Qmax_either (a b : Q) : Qmax a b = a \/ Qmax a b = b.
Proof.
  unfold Qmax, GenericMinMax.gmax. destruct (a ?= b); auto.
Qed.

Lemma Qmin_either (a b : Q) : Qmin a b = a \/ Qmin a b = b.
Proof.
  unfold Qmin, GenericMinMax.gmin. destruct (a ?= b); auto.
Qed.

(** A clamp [Math.max(lo, Math.min(hi, v))] lands in [[lo, hi]]. *)
Lemma clamp_range (lo hi v : Q) :
  lo <= hi -> lo <= Qmax lo (Qmin hi v) <= hi.
Proof.
  intro Hlh. split.
  - apply Q.le_max_l.
  - apply Q.max_lub; [assumption | apply Q.le_min_l].
Qed.

(** Clamping an already clamped value returns it unchanged, as the same
    fraction. *)
Lemma clamp_idem (lo hi v : Q) :
  lo <= hi ->
  Qmax lo (Qmin hi (Qmax lo (Qmin hi v))) = Qmax lo (Qmin hi v).
Proof.
  intro Hlh.
  assert (Hlo : Qmax lo (Qmin hi lo) = lo).
  { unfold Qmax, Qmin, GenericMinMax.gmax, GenericMinMax.gmin.
    destruct (hi ?= lo) eqn:E1.
    - destruct (lo ?= hi) eqn:E2; try reflexivity.
      apply Qeq_alt in E1. rewrite <- Qlt_alt in E2. lra.
    - rewrite <- Qlt_alt in E1. lra.
    - assert (E2 : (lo ?= lo) = Eq) by (apply Qeq_alt; reflexivity).
      rewrite E2. reflexivity. }
  assert (Hhi : Qmax lo (Qmin hi hi) = hi \/ Qmax lo (Qmin hi hi) = lo /\ Qmax lo hi = lo).
  { assert (E : Qmin hi hi = hi) by (destruct (Qmin_either hi hi); assumption).
    rewrite E. destruct (Qmax_either lo hi) as [H|H]; auto. }
  destruct (Qmin_either hi v) as [E|E]; rewrite E.
  - destruct (Qmax_either lo hi) as [E'|E']; rewrite E'.
    + exact Hlo.
    + destruct Hhi as [H|[H H']]; [exact H | congruence].
  - destruct (Qmax_either lo v) as [E'|E']; rewrite E'.
    + exact Hlo.
    + rewrite E, E'. reflexivity.
Qed.

Lemma js_round_inject_Z (z : Z) : js_round (inject_Z z) = z.
Proof.
  unfold js_round.
  assert (H1 := Qfloor_le (inject_Z z + 0.5)).
  assert (H2 := Qlt_floor (inject_Z z + 0.5)).
  set (f := Qfloor (inject_Z z + 0.5)) in *.
  rewrite inject_Z_plus in H2. change (inject_Z 1) with 1 in H2.
  assert (Hlo : inject_Z z < inject_Z (f + 1)).
  { rewrite inject_Z_plus. change (inject_Z 1) with 1. lra. }
  assert (Hhi : inject_Z f < inject_Z (z + 1)).
  { rewrite inject_Z_plus. change (inject_Z 1) with 1. lra. }
  rewrite <- Zlt_Qlt in Hlo, Hhi. lia.
Qed.

(** [Math.floor(w / 8)] on an integer width is integer division. *)
Lemma js_floor_div8 (w : Z) : js_floor (inject_Z w / 8) = (w / 8)%Z.
Proof.
  unfold js_floor. change 8 with (inject_Z 8). symmetry. apply Zdiv_Qdiv.
Qed.

(** [sample_xs dx w] lists exactly the multiples of [dx] from 0 to [w]. *)
Lemma sample_xs_spec (dx w x : Z) :
  (0 < dx)%Z ->
  In x (sample_xs dx w) <-> (0 <= x <= w)%Z /\ (x mod dx = 0)%Z.
Proof.
  intro Hdx. unfold sample_xs. rewrite in_map_iff. split.
  - intros (i & <- & Hi). apply in_seq in Hi.
    assert (Hlt : (Z.of_nat i < w / dx + 1)%Z) by lia.
    assert (Hle : (dx * Z.of_nat i <= w)%Z).
    { assert (Z.of_nat i <= w / dx)%Z by lia.
      pose proof (Z.mul_div_le w dx Hdx). nia. }
    split; [lia|]. rewrite Z.mul_comm. apply Z_mod_mult.
  - intros ((H0 & Hw) & Hmod). exists (Z.to_nat (x / dx)).
    assert (Hq : (0 <= x / dx)%Z) by (apply Z.div_pos; lia).
    split.
    + rewrite Z2Nat.id by exact Hq.
      pose proof (Z.div_mod x dx). lia.
    + apply in_seq.
      assert ((x / dx <= w / dx)%Z) by (apply Z.div_le_mono; lia). lia.
Qed.

(** ** TyphoonCanvas: clamped parameters and the trail *)

Module TyphoonFacts.
Import TyphoonCanvas.
Section Facts.
Context {M : JSMath}.

Lemma bandCount_range (b : Q) : (1 <= bandCount b <= 10)%Z.
Proof. unfold bandCount. lia. Qed.

Lemma windK_range (v : Q) : 0 <= windK v <= 1.6.
Proof. unfold windK. apply clamp_range. lra. Qed.

Lemma windK_idem (v : Q) : windK (windK v) = windK v.
Proof. unfold windK. apply clamp_idem. lra. Qed.

Lemma bandCount_idem (b : Q) : bandCount (inject_Z (bandCount b)) = bandCount b.
Proof.
  unfold bandCount at 1. rewrite js_round_inject_Z.
  pose proof (bandCount_range b). lia.
Qed.

Lemma startTime_loop P w h now s : startTime (fst (loop P w h now s)) = startTime s.
Proof.
  unfold loop. destruct (recordTrail _ _ _ _). reflexivity.
Qed.

Lemma startTime_run hist s : startTime (run hist s) = startTime s.
Proof.
  revert s. induction hist as [|[[[P w] h] now] rest IH]; intro s; simpl.
  - reflexivity.
  - rewrite IH. apply startTime_loop.
Qed.

Lemma centers_loop P w h now s :
  centers (fst (loop P w h now s)) =
  fst (recordTrail now (sampleCenter P w h ((now - startTime s) / 1000))
         (centers s) (lastTrailSample s)).
Proof.
  unfold loop. destruct (recordTrail _ _ _ _). reflexivity.
Qed.

Lemma recordTrail_length now c pts lastSample :
  (length pts <= 400)%nat ->
  (length (fst (recordTrail now c pts lastSample)) <= 400)%nat.
Proof.
  intro Hlen. unfold recordTrail, splice_front.
  destruct (Qlt_bool 40 (now - lastSample)); simpl; [|assumption].
  destruct (_ || _); [|assumption].
  destruct (400 <? length (pts ++ [c]))%nat eqn:E.
  - rewrite length_skipn. lia.
  - apply Nat.ltb_ge in E. assumption.
Qed.

Lemma centers_run_length hist s :
  (length (centers s) <= 400)%nat ->
  (length (centers (run hist s)) <= 400)%nat.
Proof.
  revert s. induction hist as [|[[[P w] h] now] rest IH]; intros s Hs; simpl.
  - assumption.
  - apply IH. rewrite centers_loop. apply recordTrail_length, Hs.
Qed.

(** What [recordTrail] does to the buffer, case by case. *)
Lemma recordTrail_cases now c pts lastSample :
  (length pts <= 400)%nat ->
  let pts' := fst (recordTrail now c pts lastSample) in
  pts' = pts \/
  (40 < now - lastSample /\
   (pts = [] \/
    2 < hypot (pt_x (last_point pts) - pt_x c) (pt_y (last_point pts) - pt_y c)) /\
   ((length pts < 400)%nat -> pts' = pts ++ [c]) /\
   (length pts = 400%nat -> pts' = tl pts ++ [c])).
Proof.
  intros Hlen pts'. subst pts'. unfold recordTrail, splice_front.
  destruct (Qlt_bool 40 (now - lastSample)) eqn:Egate; simpl; [|left; reflexivity].
  apply Qlt_bool_iff in Egate.
  destruct ((length pts =? 0)%nat || _) eqn:Emove; [|left; reflexivity].
  right. split; [assumption|]. split.
  - apply orb_true_iff in Emove. destruct Emove as [E|E].
    + left. apply Nat.eqb_eq in E. destruct pts; [reflexivity|discriminate].
    + right. apply Qlt_bool_iff in E. exact E.
  - rewrite length_app. simpl. split; intro H.
    + assert (E : (400 <? length pts + 1)%nat = false) by (apply Nat.ltb_ge; lia).
      rewrite E. reflexivity.
    + assert (E : (400 <? length pts + 1)%nat = true) by (apply Nat.ltb_lt; lia).
      rewrite E. replace (length pts + 1 - 400)%nat with 1%nat by lia.
      destruct pts; [discriminate|reflexivity].
Qed.

(** The fuel [drawCyclone] gives to [spiral] is enough: the loop ends on
    its own test, and more fuel changes nothing. *)
Lemma spiral_more_fuel a b thetaMax seg rot offset cx cy n m th :
  thetaMax < th + inject_Z (Z.of_nat n) * seg ->
  spiral (n + m) a b thetaMax seg rot offset cx cy th =
  spiral n a b thetaMax seg rot offset cx cy th.
Proof.
  revert th. induction n as [|n IH]; intros th H.
  - cbn [spiral Nat.add]. destruct m; cbn [spiral]; [reflexivity|].
    assert (E : Qle_bool th thetaMax = false).
    { apply Qle_bool_false_iff. change (inject_Z (Z.of_nat 0)) with 0 in H. lra. }
    rewrite E. reflexivity.
  - cbn [spiral Nat.add]. destruct (Qle_bool th thetaMax); [|reflexivity].
    f_equal. apply IH.
    rewrite Nat2Z.inj_succ, <- Z.add_1_r, inject_Z_plus in H.
    change (inject_Z 1) with 1 in H. lra.
Qed.

Lemma spiral_fuel_enough a b thetaMax seg rot offset cx cy m :
  0 < seg ->
  spiral (spiral_fuel thetaMax seg + m) a b thetaMax seg rot offset cx cy 0 =
  spiral (spiral_fuel thetaMax seg) a b thetaMax seg rot offset cx cy 0.
Proof.
  intro Hseg. apply spiral_more_fuel. unfold spiral_fuel.
  pose proof (Qlt_floor (thetaMax / seg)) as Hf.
  set (f := Qfloor (thetaMax / seg)) in *.
  assert (Hq : thetaMax == thetaMax / seg * seg) by (field; lra).
  set (q := thetaMax / seg) in *.
  destruct (Z_le_gt_dec 0 (f + 1)) as [Hpos|Hneg].
  - rewrite Z2Nat.id by exact Hpos. rewrite Hq.
    set (g := inject_Z (f + 1)) in *.
    assert (0 < (g - q) * seg) by (apply Qmult_lt_0_compat; lra). lra.
  - replace (Z.to_nat (f + 1)) with 0%nat by lia. cbn [Z.of_nat].
    assert (Hle : inject_Z (f + 1) <= 0).
    { change 0 with (inject_Z 0). rewrite <- Zle_Qle. lia. }
    rewrite Hq. change (inject_Z 0) with 0.
    set (g := inject_Z (f + 1)) in *.
    assert (0 < (0 - q) * seg) by (apply Qmult_lt_0_compat; lra). lra.
Qed.

Lemma run_trailRun hist s : run hist s = trailRun hist s.
Proof.
  revert s. induction hist as [|[[[P w] h] now] rest IH]; intro s;
    cbn [run trailRun].
  - reflexivity.
  - rewrite IH. unfold loop. destruct (recordTrail _ _ _ _). reflexivity.
Qed.

(** The geometry of a frame is computed from the time elapsed since mount
    and from the props of that frame, whatever frames ran before. *)
Lemma frame_from_elapsed_time hist t0 P w h now :
  let f := snd (loop P w h now (run hist (mount t0))) in
  let tSec := (now - t0) / 1000 in
  fr_tSec f = tSec /\
  fr_center f = sampleCenter P w h tSec /\
  fr_cyclone f =
    drawCyclone P (pt_x (sampleCenter P w h tSec)) (pt_y (sampleCenter P w h tSec)) tSec.
Proof.
  cbv zeta. unfold loop. rewrite startTime_run. simpl startTime.
  destruct (recordTrail _ _ _ _). simpl. repeat split.
Qed.

(** The time stamp after a frame: [now] when the 40 ms gate is open. *)
Lemma lastTrailSample_loop P w h now s :
  lastTrailSample (fst (loop P w h now s)) =
  if Qlt_bool 40 (now - lastTrailSample s) then now else lastTrailSample s.
Proof.
  unfold loop, recordTrail.
  destruct (Qlt_bool 40 (now - lastTrailSample s)); reflexivity.
Qed.

(** A frame that comes 40 ms or less after the stamp changes nothing. *)
Lemma loop_gate_closed P w h now s :
  now - lastTrailSample s <= 40 -> fst (loop P w h now s) = s.
Proof.
  intro H. unfold loop, recordTrail.
  assert (E : Qlt_bool 40 (now - lastTrailSample s) = false)
    by (apply Qlt_bool_false_iff; exact H).
  rewrite E. destruct s. reflexivity.
Qed.

Lemma run_gate_closed later s :
  Forall (fun f => snd f - lastTrailSample s <= 40) later -> run later s = s.
Proof.
  induction later as [|[[[P w] h] now] rest IH]; intro H; cbn [run].
  - reflexivity.
  - inversion H as [|? ? Hf Hrest]; subst. cbn [snd] in Hf.
    rewrite (loop_gate_closed P w h now s Hf). apply IH, Hrest.
Qed.

(** C7: the trail buffer [centersRef.current] never holds more than 400
    points in any state reached from mount; a frame either leaves it as it
    is or appends the current centre, and it appends only when more than
    40 ms have passed since [lastTrailSample] and the buffer is empty or the
    centre is more than 2 px away from the last stored point; an append to a
    full buffer drops the oldest point and keeps the order of the others.
    [lastTrailSample] is 0 on mount and becomes [now] at every frame that
    finds the gate open, whether that frame stores a point or not; a frame
    that finds it closed changes nothing.  So after a frame at [now] that
    found the gate open, no frame with a time up to [now + 40] stores a
    point: at most one point per 40 ms. *)
Theorem trail_buffer_capped_fifo_throttled
    (hist : list (Props * Z * Z * Q)) (t0 : Q) (P : Props) (w h : Z) (now : Q) :
  let s := run hist (mount t0) in
  let c := sampleCenter P w h ((now - t0) / 1000) in
  let s' := fst (loop P w h now s) in
  (length (centers s) <= 400)%nat /\
  (length (centers s') <= 400)%nat /\
  (centers s' = centers s \/
   (40 < now - lastTrailSample s /\
    (centers s = [] \/
     2 < hypot (pt_x (last_point (centers s)) - pt_x c)
               (pt_y (last_point (centers s)) - pt_y c)) /\
    ((length (centers s) < 400)%nat -> centers s' = centers s ++ [c]) /\
    (length (centers s) = 400%nat -> centers s' = tl (centers s) ++ [c]))) /\
  lastTrailSample (mount t0) = 0 /\
  (40 < now - lastTrailSample s -> lastTrailSample s' = now) /\
  (now - lastTrailSample s <= 40 -> s' = s) /\
  (forall later : list (Props * Z * Z * Q),
     40 < now - lastTrailSample s ->
     Forall (fun f => snd f - now <= 40) later ->
     run later s' = s').
Proof.
  intros s c s'.
  assert (Hs : (length (centers s) <= 400)%nat).
  { subst s. apply centers_run_length. simpl. lia. }
  assert (Hstamp : 40 < now - lastTrailSample s -> lastTrailSample s' = now).
  { intro Hgate. subst s'. rewrite lastTrailSample_loop.
    apply Qlt_bool_iff in Hgate. rewrite Hgate. reflexivity. }
  split; [exact Hs|]. split; [|split; [|split; [|split; [|split]]]].
  - subst s'. rewrite centers_loop. apply recordTrail_length, Hs.
  - subst s'. rewrite centers_loop.
    replace (startTime s) with t0 by (subst s; rewrite startTime_run; reflexivity).
    fold c. apply recordTrail_cases, Hs.
  - reflexivity.
  - exact Hstamp.
  - intro Hclosed. subst s'. apply loop_gate_closed, Hclosed.
  - intros later Hgate Hlater. apply run_gate_closed.
    rewrite (Hstamp Hgate). exact Hlater.
Qed.

(** [Math.round(b)] is the integer nearest to [b], halves going up. *)
Lemma js_round_spec (b : Q) :
  inject_Z (js_round b) <= b + 0.5 /\ b + 0.5 < inject_Z (js_round b) + 1.
Proof.
  unfold js_round. split.
  - apply Qfloor_le.
  - pose proof (Qlt_floor (b + 0.5)) as H.
    rewrite inject_Z_plus in H. exact H.
Qed.

Lemma windK_cases (v : Q) :
  (0 <= v <= 1.6 -> windK v == v) /\
  (v <= 0 -> windK v == 0) /\
  (1.6 <= v -> windK v == 1.6).
Proof.
  unfold windK.
  destruct (Q.min_spec 1.6 v) as [[H1 E1]|[H1 E1]];
    destruct (Q.max_spec 0 (Qmin 1.6 v)) as [[H2 E2]|[H2 E2]];
    repeat split; intros; lra.
Qed.

Lemma bandCount_cases (b : Q) :
  ((1 <= js_round b <= 10)%Z -> bandCount b = js_round b) /\
  ((js_round b <= 1)%Z -> bandCount b = 1%Z) /\
  ((10 <= js_round b)%Z -> bandCount b = 10%Z).
Proof. unfold bandCount. repeat split; intros; lia. Qed.

(** C9: the band count used by [drawCyclone] is the rounded prop clamped to
    [1, 10] and the wind factor is the prop clamped to [0, 1.6]: a value
    within the range is kept (the band count after rounding to the nearest
    integer, halves going up), a value below it gives the lower bound and a
    value above it the upper bound (15 bands give 10).  Everything
    [drawCyclone] paints depends on the two props only through these
    clamped values, and it strokes exactly [bandCount] bands. *)
Theorem bands_and_wind_clamped_before_use (P : Props) (cx cy timeSec : Q) :
  (1 <= bandCount (bands P) <= 10)%Z /\
  bandCount 15 = 10%Z /\
  0 <= windK (wind P) <= 1.6 /\
  drawCyclone P cx cy timeSec = drawCyclone (clampProps P) cx cy timeSec /\
  length (cy_bands (drawCyclone P cx cy timeSec)) = Z.to_nat (bandCount (bands P)) /\
  (0 <= wind P <= 1.6 -> windK (wind P) == wind P) /\
  (wind P <= 0 -> windK (wind P) == 0) /\
  (1.6 <= wind P -> windK (wind P) == 1.6) /\
  (inject_Z (js_round (bands P)) <= bands P + 0.5 /\
   bands P + 0.5 < inject_Z (js_round (bands P)) + 1) /\
  ((1 <= js_round (bands P) <= 10)%Z -> bandCount (bands P) = js_round (bands P)) /\
  ((js_round (bands P) <= 1)%Z -> bandCount (bands P) = 1%Z) /\
  ((10 <= js_round (bands P))%Z -> bandCount (bands P) = 10%Z) /\
  (forall n : Z, (1 <= n <= 10)%Z -> bandCount (inject_Z n) = n) /\
  (bands P < 1.5 -> bandCount (bands P) = 1%Z) /\
  (9.5 <= bands P -> bandCount (bands P) = 10%Z).
Proof.
  split; [apply bandCount_range|].
  split; [reflexivity|].
  split; [apply windK_range|].
  split.
  { unfold drawCyclone, clampProps. simpl.
    rewrite windK_idem, bandCount_idem. reflexivity. }
  split.
  { unfold drawCyclone. simpl. rewrite length_map, length_seq. reflexivity. }
  destruct (windK_cases (wind P)) as (W1 & W2 & W3).
  destruct (bandCount_cases (bands P)) as (B1 & B2 & B3).
  pose proof (js_round_spec (bands P)) as [R1 R2].
  split; [exact W1|]. split; [exact W2|]. split; [exact W3|].
  split; [split; [exact R1 | exact R2]|].
  split; [exact B1|]. split; [exact B2|]. split; [exact B3|].
  split; [|split].
  - intros n Hn. unfold bandCount. rewrite js_round_inject_Z. lia.
  - intro Hlow. apply B2.
    assert (H : inject_Z (js_round (bands P)) < inject_Z 2).
    { change (inject_Z 2) with 2. lra. }
    rewrite <- Zlt_Qlt in H. lia.
  - intro Hhigh. apply B3.
    assert (H : inject_Z 9 < inject_Z (js_round (bands P))).
    { change (inject_Z 9) with 9. lra. }
    rewrite <- Zlt_Qlt in H. lia.
Qed.

End Facts.
End TyphoonFacts.

(** ** WaveCanvas *)

Module WaveFacts.
Import WaveCanvas.
Section Facts.
Context {M : JSMath}.

Lemma wave_draw_unmounted w h now s : mounted s = false -> draw w h now s = (s, []).
Proof. intro H. unfold draw. rewrite H. reflexivity. Qed.

Lemma wave_draw_mounted w h now s :
  mounted s = true ->
  let s' := fst (draw w h now s) in
  mounted s' = true /\ phase s' = phase s + 0.02 * speed s /\
  speed s' = speed s /\ amp s' = amp s /\ wl s' = wl s /\ pointer s' = pointer s.
Proof.
  intro H. unfold draw. rewrite H. cbn [negb].
  destruct (drawLayers _ _ _ _ _ _) as [ptss ripples1].
  destruct (updateAndDrawParticles _ _ _ _) as [ps k].
  cbn. repeat split.
Qed.

(** The phase after a run of frames counts the frames. *)
Lemma phase_frames w h nows s :
  mounted s = true ->
  phase (frames w h nows s) ==
  phase s + inject_Z (Z.of_nat (length nows)) * (0.02 * speed s).
Proof.
  revert s. induction nows as [|now rest IH]; intros s Hm.
  - cbn. ring.
  - cbn [frames length].
    destruct (wave_draw_mounted w h now s Hm) as (Hm' & Hp & Hs & _).
    rewrite (IH _ Hm'), Hp, Hs, Nat2Z.inj_succ, <- Z.add_1_r, inject_Z_plus.
    change (inject_Z 1) with 1. ring.
Qed.

Lemma sample_xs_length (dx w : Z) :
  length (sample_xs dx w) = Z.to_nat (w / dx + 1).
Proof. unfold sample_xs. rewrite length_map, length_seq. reflexivity. Qed.

Lemma layerPoints_length s i a l yBase t xs rs :
  length (fst (layerPoints s i a l yBase t xs rs)) = length xs.
Proof.
  revert rs. induction xs as [|x xs IH]; intro rs; cbn [layerPoints].
  - reflexivity.
  - destruct (rippleOffset _ _ _ _) as [ro rs1].
    specialize (IH rs1). destruct (layerPoints _ _ _ _ _ _ _ _) as [pts rs2].
    cbn in *. congruence.
Qed.

Lemma drawLayers_lengths w h t s layers rs :
  map (@length Point) (fst (drawLayers w h t s layers rs)) =
  map (fun _ => length (sample_xs 2 w)) layers.
Proof.
  revert rs. induction layers as [|i layers IH]; intro rs; cbn [drawLayers].
  - reflexivity.
  - destruct (drawWaveLayer _ _ _ _ _ _) as [pts rs1] eqn:E.
    specialize (IH rs1). destruct (drawLayers _ _ _ _ _ _) as [ptss rs2].
    cbn in *. rewrite IH. f_equal.
    unfold drawWaveLayer in E.
    rewrite <- (layerPoints_length s i (amp s * (1 - inject_Z i * 0.22))
                  (Qmax 80 (wl s - inject_Z i * 44))
                  (inject_Z h * 0.5 + inject_Z i * 6) t (sample_xs 2 w) rs).
    rewrite E. reflexivity.
Qed.

(** Every frame of a mounted canvas strokes five lines of
    [floor(w/2) + 1] points each. *)
Lemma draw_lines w h now s :
  mounted s = true ->
  map (@length Point) (snd (draw w h now s)) =
  repeat (Z.to_nat (w / 2 + 1)) 5.
Proof.
  intro H. unfold draw. rewrite H. cbn [negb].
  match goal with |- context [drawLayers ?a ?b ?c ?d ?e ?f] =>
    pose proof (drawLayers_lengths a b c d e f) as HL;
    destruct (drawLayers a b c d e f) as [ptss ripples1] end.
  destruct (updateAndDrawParticles _ _ _ _) as [ps k].
  cbn [snd fst] in *. rewrite HL, sample_xs_length. reflexivity.
Qed.

(** The index the crest sampler reads exists as soon as there is a point. *)
Lemma wave_crestIndex_in_range pts x :
  pts <> [] -> (Z.to_nat (crestIndex pts x) < length pts)%nat.
Proof.
  intro H. unfold crestIndex.
  assert (0 < length pts)%nat by (destruct pts; [congruence | cbn; lia]).
  lia.
Qed.

(** *** Ripples *)

(** [rippleOffset] leaves behind the ripples that [decayAll] computes,
    whatever the sample position and time. *)
Lemma wave_rippleOffset_decays sp x t rs :
  snd (rippleOffset sp x t rs) = decayAll rs.
Proof.
  induction rs as [|r rs IH]; cbn [rippleOffset decayAll].
  - reflexivity.
  - destruct (rippleOffset sp x t rs) as [dy rest']. cbn in *.
    rewrite IH. reflexivity.
Qed.

(** One frame calls [rippleOffset] once for every sample point of every
    layer: five times [floor(w/2) + 1] decays. *)
Lemma layerPoints_ripples s i a l yBase t xs rs :
  snd (layerPoints s i a l yBase t xs rs) = Nat.iter (length xs) decayAll rs.
Proof.
  revert rs. induction xs as [|x xs IH]; intro rs; cbn [layerPoints].
  - reflexivity.
  - pose proof (wave_rippleOffset_decays (speed s) (inject_Z x) t rs) as Hd.
    destruct (rippleOffset _ _ _ _) as [ro rs1]. cbn [snd] in Hd. subst rs1.
    specialize (IH (decayAll rs)).
    destruct (layerPoints _ _ _ _ _ _ _ _) as [pts rs2]. cbn [snd] in *.
    rewrite IH. cbn [length]. rewrite Nat.iter_succ_r. reflexivity.
Qed.

Lemma drawLayers_ripples w h t s layers rs :
  snd (drawLayers w h t s layers rs) =
  Nat.iter (length layers * length (sample_xs 2 w)) decayAll rs.
Proof.
  revert rs. induction layers as [|i layers IH]; intro rs; cbn [drawLayers].
  - reflexivity.
  - unfold drawWaveLayer at 1.
    match goal with |- context [layerPoints ?a ?b ?c ?d ?e ?f ?g ?k] =>
      pose proof (layerPoints_ripples a b c d e f g k) as Hd;
      destruct (layerPoints a b c d e f g k) as [pts rs1] end.
    cbn [snd] in Hd. subst rs1.
    match goal with |- context [drawLayers w h t s layers ?r] =>
      specialize (IH r); destruct (drawLayers w h t s layers r) as [ptss rs2] end.
    cbn [snd] in *. rewrite IH, <- Nat.iter_add. f_equal. cbn [length]. lia.
Qed.

Lemma draw_ripples w h now s :
  mounted s = true ->
  ripples (fst (draw w h now s)) =
  Nat.iter (5 * Z.to_nat (w / 2 + 1)) decayAll (ripples s).
Proof.
  intro H. unfold draw. rewrite H. cbn [negb].
  match goal with |- context [drawLayers ?a ?b ?c ?d ?e ?f] =>
    pose proof (drawLayers_ripples a b c d e f) as HL;
    destruct (drawLayers a b c d e f) as [ptss ripples1] end.
  destruct (updateAndDrawParticles _ _ _ _) as [ps k].
  cbn [snd fst ripples length] in *. rewrite HL, sample_xs_length. reflexivity.
Qed.

(** A call never strengthens a ripple: the survivors carry
    [strength * decay]. *)
Lemma decayAll_weaker rs r' :
  In r' (decayAll rs) ->
  exists r, In r rs /\ strength r' = strength r * decay r /\
            r_x r' = r_x r /\ radius r' = radius r /\ decay r' = decay r /\
            0.3 <= strength r'.
Proof.
  induction rs as [|r rs IH]; cbn [decayAll]; intro H.
  - destruct H.
  - destruct (Qlt_bool _ _) eqn:E.
    + destruct (IH H) as (r0 & Hin & Hr). exists r0. split; [right|]; assumption.
    + destruct H as [<-|H].
      * exists r. cbn. apply Qlt_bool_false_iff in E. cbn in E.
        repeat split; auto.
      * destruct (IH H) as (r0 & Hin & Hr). exists r0. split; [right|]; assumption.
Qed.

Lemma decayAll_nonincreasing rs r' :
  (forall r, In r rs -> 0 <= strength r /\ 0 <= decay r <= 1) ->
  In r' (decayAll rs) ->
  exists r, In r rs /\ strength r' <= strength r.
Proof.
  intros Hrs H. destruct (decayAll_weaker rs r' H) as (r & Hin & Hs & _).
  exists r. split; [assumption|]. rewrite Hs.
  destruct (Hrs r Hin) as (H0 & H1 & H2). nra.
Qed.

(** The ripple of [spawnRippleAt] survives 270 calls of [rippleOffset] and is
    removed by call 271. *)
Lemma ripple_gone_after_271_samples sp x t px :
  Nat.iter 270 (fun rs => snd (rippleOffset sp x t rs)) [mkRipple px 18 120 0.985] <> [] /\
  Nat.iter 271 (fun rs => snd (rippleOffset sp x t rs)) [mkRipple px 18 120 0.985] = [].
Proof.
  assert (E : forall n rs, Nat.iter n (fun rs => snd (rippleOffset sp x t rs)) rs
                           = Nat.iter n decayAll rs).
  { induction n; intro rs; [reflexivity|].
    rewrite !Nat.iter_succ, wave_rippleOffset_decays, IHn. reflexivity. }
  rewrite !E. split; [|vm_compute; reflexivity].
  vm_compute. discriminate.
Qed.

(** C2: on a canvas 4 px wide a ripple injected with strength 18 and decay
    0.985 comes out of ONE frame with strength 18 * 0.985^15 (three sample
    points on each of the five layers), not 18 * 0.985; on a canvas 800 px
    wide the same ripple is already removed by the end of its first frame. *)
Theorem ripple_decays_per_sample_not_per_frame (h : Z) (now : Q) :
  let s := spawnRippleAt 150 (init 40 1 280) in
  (exists r, ripples (fst (draw 4 h now s)) = [r] /\
             strength r == 18 * 0.985 ^ 15 /\
             ~ strength r == 18 * 0.985) /\
  ripples (fst (draw 800 h now s)) = [].
Proof.
  cbv zeta. split.
  - eexists. split; [vm_compute; reflexivity|].
    split; vm_compute; [reflexivity|discriminate].
  - vm_compute. reflexivity.
Qed.

(** *** Foam particles *)

Lemma wave_maxParticles_range (w : Z) : (40 <= maxParticles w <= 110)%Z.
Proof. unfold maxParticles. lia. Qed.

Lemma maxParticles_div (w : Z) : maxParticles w = Z.max 40 (Z.min 110 (w / 8)).
Proof. unfold maxParticles. rewrite js_floor_div8. reflexivity. Qed.

Lemma spawn_capacity n sp w crest ps k :
  (Z.of_nat (length ps) <= maxParticles w)%Z ->
  (Z.of_nat (length (fst (spawn n sp w crest ps k))) <= maxParticles w)%Z.
Proof.
  revert ps k. induction n as [|n IH]; intros ps k H; cbn [spawn].
  - exact H.
  - destruct (maxParticles w <=? Z.of_nat (length ps))%Z eqn:E.
    + exact H.
    + apply IH. apply Z.leb_gt in E. rewrite length_app. cbn. lia.
Qed.

Lemma updateLoop_length pr w h ps :
  (length (updateLoop pr w h ps) <= length ps)%nat.
Proof.
  induction ps as [|p ps IH]; cbn [updateLoop].
  - lia.
  - destruct (stepParticle pr w h p); cbn; lia.
Qed.

(** WaveCanvas keeps the foam within the capacity of the current width. *)
Lemma particles_capacity w h now s :
  (Z.of_nat (length (particles s)) <= maxParticles w)%Z ->
  (Z.of_nat (length (particles (fst (draw w h now s)))) <= maxParticles w)%Z.
Proof.
  intro H. unfold draw. destruct (mounted s); cbn [negb]; [|exact H].
  destruct (drawLayers _ _ _ _ _ _) as [ptss ripples1].
  unfold updateAndDrawParticles. cbn [particles speed rng pointer].
  match goal with |- context [spawn ?n ?a ?b ?c ?d ?e] =>
    pose proof (spawn_capacity n a b c d e H) as HS;
    destruct (spawn n a b c d e) as [ps k] end.
  cbn [fst particles] in *.
  pose proof (updateLoop_length (pointer s) w h ps). lia.
Qed.

(** A particle is spliced out exactly when its age has reached [maxLife] or
    it is beyond the right or the bottom edge by more than 5 px. *)
Lemma wave_stepParticle_None_iff pr w h p :
  stepParticle pr w h p = None <->
  maxLife p <= life p + 1 \/ inject_Z w + 5 < p_x p + vx p
  \/ inject_Z h + 5 < p_y p + vy p.
Proof.
  unfold stepParticle.
  destruct (if inside pr then _ else _) as [vx2 vy2].
  destruct (Qle_bool (maxLife p) (life p + 1)) eqn:E1;
  destruct (Qlt_bool (inject_Z w + 5) (p_x p + vx p)) eqn:E2;
  destruct (Qlt_bool (inject_Z h + 5) (p_y p + vy p)) eqn:E3; cbn [orb];
  try apply Qle_bool_iff in E1; try apply Qlt_bool_iff in E2;
  try apply Qlt_bool_iff in E3;
  try (split; [intros _; tauto | reflexivity]).
  apply Qle_bool_false_iff in E1. apply Qlt_bool_false_iff in E2.
  apply Qlt_bool_false_iff in E3.
  split; [discriminate|]. intros [H|[H|H]]; lra.
Qed.

Lemma wave_updateLoop_In pr w h ps p' :
  In p' (updateLoop pr w h ps) <->
  exists p, In p ps /\ stepParticle pr w h p = Some p'.
Proof.
  induction ps as [|p ps IH]; cbn [updateLoop].
  - split; [intros [] | intros (p & [] & _)].
  - destruct (stepParticle pr w h p) as [q|] eqn:E.
    + cbn [In]. rewrite IH. split.
      * intros [<-|(p0 & Hin & Hp0)]; [exists p | exists p0]; auto.
      * intros (p0 & [<-|Hin] & Hp0); [left; congruence | right; exists p0; auto].
    + rewrite IH. split.
      * intros (p0 & Hin & Hp0). exists p0. cbn. auto.
      * intros (p0 & [<-|Hin] & Hp0); [congruence | exists p0; auto].
Qed.

(** *** What a frame does to the foam *)

(** The spawn loop appends: at most [spawnCount] particles, at least one
    when it starts below the capacity, none when it starts at it. *)
Lemma wave_spawn_app n sp w crest ps k :
  exists news,
    fst (spawn n sp w crest ps k) = ps ++ news /\
    (length news <= n)%nat /\
    ((0 < n)%nat -> (Z.of_nat (length ps) < maxParticles w)%Z ->
     (1 <= length news)%nat) /\
    ((maxParticles w <= Z.of_nat (length ps))%Z -> news = []).
Proof.
  revert ps k. induction n as [|n IH]; intros ps k; cbn [spawn].
  - exists []. rewrite app_nil_r. cbn. repeat split; try lia.
  - destruct (maxParticles w <=? Z.of_nat (length ps))%Z eqn:E.
    + apply Z.leb_le in E. exists []. rewrite app_nil_r. cbn.
      repeat split; try lia.
    + apply Z.leb_gt in E.
      destruct (IH (ps ++ [newParticle sp w crest k]) (k + 6)%nat)
        as (news & En & Hl & _ & _).
      exists (newParticle sp w crest k :: news). rewrite En, <- app_assoc.
      cbn. repeat split; try lia.
Qed.

Lemma wave_draw_particles w h now s :
  mounted s = true ->
  exists news,
    particles (fst (draw w h now s))
    = updateLoop (pointer s) w h (particles s ++ news) /\
    (length news <= 4)%nat /\
    ((Z.of_nat (length (particles s)) < maxParticles w)%Z ->
     (1 <= length news)%nat) /\
    ((maxParticles w <= Z.of_nat (length (particles s)))%Z -> news = []).
Proof.
  intro H. unfold draw. rewrite H. cbn [negb].
  destruct (drawLayers _ _ _ _ _ _) as [ptss ripples1].
  unfold updateAndDrawParticles. cbn [particles speed rng pointer].
  match goal with |- context [spawn ?n ?a ?b ?c ?d ?e] =>
    destruct (wave_spawn_app n a b c d e) as (news & E & Hl & Hone & Hnone);
    assert (Hn : (0 < n <= 4)%nat) by (destruct (_ <? _)%Z; lia);
    destruct (spawn n a b c d e) as [ps k] end.
  cbn [fst particles] in *. subst ps. exists news.
  split; [reflexivity|]. split; [lia|]. split; [|exact Hnone].
  intro Hlt. apply Hone; [lia | exact Hlt].
Qed.

(** *** Amplitude *)

Lemma wave_onTouchMove_range y s : 5 <= amp (onTouchMove y s) <= 120.
Proof. cbn. apply clamp_range. lra. Qed.

Lemma wave_touchDrag_snoc ys y s :
  touchDrag (ys ++ [y]) s = onTouchMove y (touchDrag ys s).
Proof. unfold touchDrag. rewrite fold_left_app. reflexivity. Qed.

End Facts.
End WaveFacts.

(** ** ShoalingCanvas *)

Module ShoalingFacts.
Import ShoalingCanvas.
Section Facts.
Context {M : JSMath}.

(** *** The slope zone *)

(** Inside the slope the interpolation parameter lies strictly between 0
    and 1; in particular its divisor is positive. *)
Lemma slope_parameter (x w : Q) :
  w * 0.18 < x -> x < w * 0.72 ->
  0 < w * 0.72 - w * 0.18 /\
  0 < (x - w * 0.18) / (w * 0.72 - w * 0.18) < 1.
Proof.
  intros H1 H2.
  assert (Hd : 0 < w * 0.72 - w * 0.18) by lra.
  split; [exact Hd|].
  set (d := w * 0.72 - w * 0.18) in *.
  assert (E : (x - w * 0.18) / d * d == x - w * 0.18) by (field; lra).
  set (t := (x - w * 0.18) / d) in *.
  split.
  - destruct (Qlt_le_dec 0 t) as [Ht|Ht]; [exact Ht|]. exfalso.
    assert (t * d <= 0) by nra. lra.
  - destruct (Qlt_le_dec t 1) as [Ht|Ht]; [exact Ht|]. exfalso.
    assert (d <= t * d) by nra. unfold d in *. lra.
Qed.

Lemma smoothstep_range (t : Q) : 0 <= t <= 1 -> 0 <= t * t * (3 - 2 * t) <= 1.
Proof.
  intros [H0 H1]. split.
  - assert (0 <= t * t) by nra. nra.
  - assert (E : 1 - t * t * (3 - 2 * t) == (1 - t) * (1 - t) * (1 + 2 * t)) by ring.
    assert (0 <= (1 - t) * (1 - t)) by nra.
    assert (0 <= (1 - t) * (1 - t) * (1 + 2 * t)) by nra.
    lra.
Qed.

Lemma shoalProgress_range (x w : Q) : 0 <= shoalProgress x w <= 1.
Proof.
  unfold shoalProgress.
  destruct (Qle_bool x (w * 0.18)) eqn:E1; [lra|].
  destruct (Qle_bool (w * 0.72) x) eqn:E2; [lra|].
  apply Qle_bool_false_iff in E1, E2.
  destruct (slope_parameter x w E1 E2) as (_ & Ht0 & Ht1).
  apply smoothstep_range. lra.
Qed.




Lemma A_range (amp0 x w : Q) :
  0 <= amp0 -> amp0 <= A amp0 x w <= 2.4 * amp0.
Proof.
  intro H. unfold A. pose proof (shoalProgress_range x w). nra.
Qed.

Lemma lambda_range (x w : Q) : 70 <= lambda x w <= 260.
Proof.
  unfold lambda. pose proof (shoalProgress_range x w). lra.
Qed.

(** The divisions of [seabedY] and [shoalProgress] are never by zero. *)
Lemma Qdiv_checked_pos (a b : Q) : 0 < b -> Qdiv_checked a b = Some (a / b).
Proof.
  intro H. unfold Qdiv_checked.
  destruct (Qeq_bool b 0) eqn:E; [|reflexivity].
  apply Qeq_bool_iff in E. lra.
Qed.

Lemma seabedY_checked_defined (x w h : Q) :
  seabedY_checked x w h = Some (seabedY x w h).
Proof.
  unfold seabedY_checked, seabedY.
  destruct (Qle_bool x (w * 0.18)) eqn:E1; [reflexivity|].
  destruct (Qle_bool x (w * 0.72)) eqn:E2; [|reflexivity].
  apply Qle_bool_false_iff in E1. apply Qle_bool_iff in E2.
  rewrite Qdiv_checked_pos by lra. reflexivity.
Qed.

Lemma shoalProgress_checked_defined (x w : Q) :
  shoalProgress_checked x w = Some (shoalProgress x w).
Proof.
  unfold shoalProgress_checked, shoalProgress.
  destruct (Qle_bool x (w * 0.18)) eqn:E1; [reflexivity|].
  destruct (Qle_bool (w * 0.72) x) eqn:E2; [reflexivity|].
  apply Qle_bool_false_iff in E1, E2.
  rewrite Qdiv_checked_pos by lra. reflexivity.
Qed.

(** *** The water line *)

Lemma surface_xs s w h baseY xs theta rs :
  map (fun smp => pt_x (smp_pt smp)) (fst (surface s w h baseY xs theta rs)) =
  map inject_Z xs.
Proof.
  revert theta rs. induction xs as [|x xs IH]; intros theta rs; cbn [surface].
  - reflexivity.
  - destruct (rippleOffset _ _) as [ro rs1].
    match goal with |- context [surface s w h baseY xs ?th rs1] =>
      specialize (IH th rs1); destruct (surface s w h baseY xs th rs1) as [rest rs2]
    end.
    cbn in *. rewrite IH. reflexivity.
Qed.

Lemma surface_thetas s w h baseY xs theta rs :
  map smp_theta (fst (surface s w h baseY xs theta rs)) = phaseIntegral w theta xs.
Proof.
  revert theta rs. induction xs as [|x xs IH]; intros theta rs;
    cbn [surface phaseIntegral].
  - reflexivity.
  - destruct (rippleOffset _ _) as [ro rs1].
    match goal with |- context [surface s w h baseY xs ?th rs1] =>
      specialize (IH th rs1); destruct (surface s w h baseY xs th rs1) as [rest rs2]
    end.
    cbn in *. rewrite IH. reflexivity.
Qed.


Lemma shoal_draw_unmounted w h s : mounted s = false -> draw w h s = (s, []).
Proof. intro H. unfold draw. rewrite H. reflexivity. Qed.

Lemma shoal_draw_mounted w h s :
  mounted s = true ->
  let s' := fst (draw w h s) in
  let t := time s + 0.016 * (0.9 + speed s * 0.4) in
  mounted s' = true /\ time s' = t /\ speed s' = speed s /\ amp s' = amp s /\
  snd (draw w h s) =
    fst (surface s w h (inject_Z h * 0.38) (sample_xs 2 w) (-(2.2) * t) (ripples s)).
Proof.
  intro H. unfold draw. rewrite H. cbn [negb].
  destruct (surface _ _ _ _ _ _ _) as [smps ripples1].
  destruct (updateParticles _ _ _ _) as [ps k].
  cbn. repeat split.
Qed.

Lemma time_frames w h n s :
  mounted s = true ->
  time (frames w h n s) ==
  time s + inject_Z (Z.of_nat n) * (0.016 * (0.9 + speed s * 0.4)).
Proof.
  revert s. induction n as [|n IH]; intros s Hm.
  - cbn. ring.
  - cbn [frames].
    destruct (shoal_draw_mounted w h s Hm) as (Hm' & Ht & Hs & _).
    rewrite (IH _ Hm'), Ht, Hs, Nat2Z.inj_succ, <- Z.add_1_r, inject_Z_plus.
    change (inject_Z 1) with 1. ring.
Qed.


Lemma draw_sample_count w h s :
  mounted s = true -> length (snd (draw w h s)) = Z.to_nat (w / 2 + 1).
Proof.
  intro Hm. destruct (shoal_draw_mounted w h s Hm) as (_ & _ & _ & _ & E).
  rewrite E, <- (length_map (fun smp => pt_x (smp_pt smp))), surface_xs,
    length_map. unfold sample_xs. rewrite length_map, length_seq. reflexivity.
Qed.

Lemma shoal_crestIndex_in_range pts x :
  pts <> [] -> (Z.to_nat (crestIndex pts x) < length pts)%nat.
Proof.
  intro H. unfold crestIndex.
  assert (0 < length pts)%nat by (destruct pts; [congruence | cbn; lia]).
  lia.
Qed.

(** *** Ripples *)

Lemma shoal_rippleOffset_decays x rs : snd (rippleOffset x rs) = decayAll rs.
Proof.
  induction rs as [|r rs IH]; cbn [rippleOffset decayAll].
  - reflexivity.
  - destruct (rippleOffset x rs) as [dy rest']. cbn in *.
    rewrite IH. reflexivity.
Qed.

(** One frame calls [rippleOffset] once for every sample point. *)
Lemma surface_ripples s w h baseY xs theta rs :
  snd (surface s w h baseY xs theta rs) = Nat.iter (length xs) decayAll rs.
Proof.
  revert theta rs. induction xs as [|x xs IH]; intros theta rs; cbn [surface].
  - reflexivity.
  - pose proof (shoal_rippleOffset_decays (inject_Z x) rs) as Hd.
    destruct (rippleOffset _ _) as [ro rs1]. cbn [snd] in Hd. subst rs1.
    match goal with |- context [surface s w h baseY xs ?th ?r] =>
      specialize (IH th r); destruct (surface s w h baseY xs th r) as [rest rs2]
    end.
    cbn [snd] in *. rewrite IH. cbn [length]. rewrite Nat.iter_succ_r. reflexivity.
Qed.

Lemma shoal_draw_ripples w h s :
  mounted s = true ->
  ripples (fst (draw w h s)) = Nat.iter (Z.to_nat (w / 2 + 1)) decayAll (ripples s).
Proof.
  intro H. unfold draw. rewrite H. cbn [negb].
  match goal with |- context [surface ?a ?b ?c ?d ?e ?f ?g] =>
    pose proof (surface_ripples a b c d e f g) as HL;
    destruct (surface a b c d e f g) as [smps ripples1] end.
  destruct (updateParticles _ _ _ _) as [ps k].
  cbn [snd fst ripples] in *. rewrite HL. unfold sample_xs.
  rewrite length_map, length_seq. reflexivity.
Qed.

Lemma decayAll_ok rs : Forall ripple_ok rs -> Forall ripple_ok (decayAll rs).
Proof.
  induction 1 as [|r rs Hr Hrs IH]; cbn [decayAll].
  - constructor.
  - destruct (Qlt_bool _ _) eqn:E; [exact IH|].
    constructor; [|exact IH].
    apply Qlt_bool_false_iff in E. cbn in E.
    destruct Hr as (Hrad & Hdec & Hlo & Hhi).
    unfold ripple_ok. cbn. repeat split; try assumption.
    rewrite Hdec. lra.
Qed.

(** Every ripple the canvas ever holds has radius 120 and decay 0.985, so
    the divisor [2 * sigma * sigma] of its envelope is 10368, and its
    strength stays within [0.25, 10]. *)
Lemma run_ripples_ok es s :
  Forall ripple_ok (ripples s) -> Forall ripple_ok (ripples (run es s)).
Proof.
  unfold run. revert s. induction es as [|e es IH]; intros s Hs; cbn [fold_left].
  - exact Hs.
  - apply IH. destruct e; cbn [handle]; try exact Hs.
    + destruct (mounted s) eqn:Hm.
      * rewrite (shoal_draw_ripples w h s Hm).
        apply Nat.iter_invariant; [apply decayAll_ok | exact Hs].
      * rewrite (shoal_draw_unmounted w h s Hm). exact Hs.
    + cbn. apply Forall_app. split; [exact Hs|].
      constructor; [|constructor]. unfold ripple_ok. cbn.
      repeat split; try reflexivity; lra.
    + cbn. apply Forall_app. split; [exact Hs|].
      constructor; [|constructor]. unfold ripple_ok. cbn.
      repeat split; try reflexivity; lra.
Qed.



(** *** Foam particles *)

Lemma shoal_maxParticles_range (w : Z) : (36 <= maxParticles w <= 120)%Z.
Proof. unfold maxParticles. lia. Qed.

(** The spawn loop has no test against the capacity: it always appends
    [spawnN] particles. *)
Lemma spawn_length n sp w crest ps k :
  length (fst (spawn n sp w crest ps k)) = (length ps + n)%nat.
Proof.
  revert ps k. induction n as [|n IH]; intros ps k; cbn [spawn].
  - cbn. lia.
  - rewrite IH, length_app. cbn. lia.
Qed.

Lemma shoal_stepParticle_None_iff pr w h p :
  stepParticle pr w h p = None <->
  maxLife p <= life p + 1 \/ inject_Z w + 6 < p_x p + vx p
  \/ inject_Z h + 6 < p_y p + vy p.
Proof.
  unfold stepParticle.
  destruct (if inside pr then _ else _) as [vx2 vy2].
  destruct (Qle_bool (maxLife p) (life p + 1)) eqn:E1;
  destruct (Qlt_bool (inject_Z w + 6) (p_x p + vx p)) eqn:E2;
  destruct (Qlt_bool (inject_Z h + 6) (p_y p + vy p)) eqn:E3; cbn [orb];
  try apply Qle_bool_iff in E1; try apply Qlt_bool_iff in E2;
  try apply Qlt_bool_iff in E3;
  try (split; [intros _; tauto | reflexivity]).
  apply Qle_bool_false_iff in E1. apply Qlt_bool_false_iff in E2.
  apply Qlt_bool_false_iff in E3.
  split; [discriminate|]. intros [H|[H|H]]; lra.
Qed.

Lemma shoal_updateLoop_In pr w h ps p' :
  In p' (updateLoop pr w h ps) <->
  exists p, In p ps /\ stepParticle pr w h p = Some p'.
Proof.
  induction ps as [|p ps IH]; cbn [updateLoop].
  - split; [intros [] | intros (p & [] & _)].
  - destruct (stepParticle pr w h p) as [q|] eqn:E.
    + cbn [In]. rewrite IH. split.
      * intros [<-|(p0 & Hin & Hp0)]; [exists p | exists p0]; auto.
      * intros (p0 & [<-|Hin] & Hp0); [left; congruence | right; exists p0; auto].
    + rewrite IH. split.
      * intros (p0 & Hin & Hp0). exists p0. cbn. auto.
      * intros (p0 & [<-|Hin] & Hp0); [congruence | exists p0; auto].
Qed.

(** *** What a frame does to the foam *)

Lemma shoal_spawn_appends n sp w crest ps k :
  exists news, fst (spawn n sp w crest ps k) = ps ++ news /\ length news = n.
Proof.
  revert ps k. induction n as [|n IH]; intros ps k; cbn [spawn].
  - exists []. rewrite app_nil_r. split; reflexivity.
  - destruct (IH (ps ++ [newParticle sp w crest k]) (k + 6)%nat) as (news & E & Hl).
    exists (newParticle sp w crest k :: news). rewrite E, <- app_assoc.
    split; [reflexivity | cbn; lia].
Qed.

Lemma shoal_draw_particles w h s :
  mounted s = true ->
  exists news,
    particles (fst (draw w h s))
    = updateLoop (pointer s) w h (particles s ++ news) /\
    length news
    = (if (Z.of_nat (length (particles s)) <? maxParticles w)%Z then 3 else 1)%nat.
Proof.
  intro H. unfold draw. rewrite H. cbn [negb].
  destruct (surface _ _ _ _ _ _ _) as [smps ripples1].
  unfold updateParticles. cbn [particles speed rng pointer].
  match goal with |- context [spawn ?n ?a ?b ?c ?d ?e] =>
    destruct (shoal_spawn_appends n a b c d e) as (news & E & Hl);
    destruct (spawn n a b c d e) as [ps k] end.
  cbn [fst particles] in *. subst ps. exists news.
  split; [reflexivity | exact Hl].
Qed.

(** *** Amplitude *)

Lemma shoal_onTouchMove_range y s : 6 <= amp (onTouchMove y s) <= 120.
Proof. cbn. apply clamp_range. lra. Qed.

Lemma shoal_touchDrag_snoc ys y s :
  touchDrag (ys ++ [y]) s = onTouchMove y (touchDrag ys s).
Proof. unfold touchDrag. rewrite fold_left_app. reflexivity. Qed.

End Facts.
End ShoalingFacts.

(** ** Across the canvases *)

(** *** Time *)

(** C1, as stated, fails: two runs of WaveCanvas with the same props on the
    same canvas that both end at [performance.now() = 1000], one of one
    frame and one of two frames, end with different wave phases. *)
Lemma wave_phase_depends_on_frame_count :
  ~ (forall (M : JSMath) (w h : Z) (amplitude speed wavelength : Q)
            (nows1 nows2 : list Q),
        last nows1 0 = last nows2 0 ->
        WaveCanvas.phase
          (WaveCanvas.frames w h nows1 (WaveCanvas.init amplitude speed wavelength))
        == WaveCanvas.phase
          (WaveCanvas.frames w h nows2 (WaveCanvas.init amplitude speed wavelength))).
Proof.
  intro H.
  specialize (H exampleMath 8%Z 8%Z 40 1 280 [1000] [500; 1000] eq_refl).
  vm_compute in H. discriminate H.
Qed.

(** C1, amended: in WaveCanvas and ShoalingCanvas the phase is advanced by a
    fixed step per frame, so after a run of frames with unchanged speed it
    is the start value plus the number of frames times the step
    ([0.02 * speed], and [0.016 * (0.9 + 0.4 * speed)] for the shoaling
    time); in TyphoonCanvas the centre and the spiral bands of a frame are
    computed from the time elapsed since mount and the props of the frame,
    whatever frames ran before. *)
Theorem phase_counts_frames_typhoon_follows_clock
    (M : JSMath) (w h : Z) (nows : list Q) (n : nat)
    (ws : WaveCanvas.State) (ss : ShoalingCanvas.State)
    (hist : list (TyphoonCanvas.Props * Z * Z * Q)) (t0 now : Q)
    (P : TyphoonCanvas.Props) :
  WaveCanvas.mounted ws = true ->
  ShoalingCanvas.mounted ss = true ->
  WaveCanvas.phase (WaveCanvas.frames w h nows ws)
    == WaveCanvas.phase ws
       + inject_Z (Z.of_nat (length nows)) * (0.02 * WaveCanvas.speed ws) /\
  ShoalingCanvas.time (ShoalingCanvas.frames w h n ss)
    == ShoalingCanvas.time ss
       + inject_Z (Z.of_nat n) * (0.016 * (0.9 + ShoalingCanvas.speed ss * 0.4)) /\
  (let f := snd (TyphoonCanvas.loop P w h now
                   (TyphoonCanvas.run hist (TyphoonCanvas.mount t0))) in
   let tSec := (now - t0) / 1000 in
   let c := TyphoonCanvas.sampleCenter P w h tSec in
   TyphoonCanvas.fr_center f = c /\
   TyphoonCanvas.fr_cyclone f = TyphoonCanvas.drawCyclone P (pt_x c) (pt_y c) tSec).
Proof.
  intros Hw Hs.
  split; [apply WaveFacts.phase_frames, Hw|].
  split; [apply ShoalingFacts.time_frames, Hs|].
  cbv zeta. destruct (TyphoonFacts.frame_from_elapsed_time hist t0 P w h now)
    as (_ & Hc & Hy).
  split; assumption.
Qed.

Lemma phase_counts_frames_typhoon_follows_clock_witness :
  WaveCanvas.phase
    (@WaveCanvas.frames exampleMath 8 8 [500; 1000] (WaveCanvas.init 40 1 280))
  == 0 + inject_Z 2 * (0.02 * 1).
Proof.
  apply (phase_counts_frames_typhoon_follows_clock exampleMath 8 8 [500; 1000] 2
           (WaveCanvas.init 40 1 280) (ShoalingCanvas.init 40 1) [] 0 0
           (TyphoonCanvas.mkProps 1 80 0.9 60 5)); reflexivity.
Defined.

(** *** Foam *)

(** C5 fails on ShoalingCanvas: on a canvas 288 px wide the capacity is 36;
    twelve frames after mount the foam holds 36 particles, and the next
    frame spawns a 37th. *)
Theorem shoaling_foam_exceeds_capacity :
  let s12 := @ShoalingCanvas.frames exampleMath 288 200 12 (ShoalingCanvas.init 40 1) in
  ShoalingCanvas.maxParticles 288 = 36%Z /\
  length (ShoalingCanvas.particles s12) = 36%nat /\
  length (ShoalingCanvas.particles (fst (@ShoalingCanvas.draw exampleMath 288 200 s12)))
  = 37%nat.
Proof. vm_compute. repeat split. Qed.

(** C8, as stated, fails: a particle 100 px to the left of the canvas, or
    100 px above it, is young enough and stays in the set, in both
    canvases. *)
Lemma particle_left_of_canvas_survives :
  let pr := mkPointer 0 0 false in
  let left := mkParticle (-(100)) 50 (-(1)) 0 0 60 1 0.8 in
  let above := mkParticle 50 (-(100)) 1 (-(1)) 0 60 1 0.8 in
  (p_x left + vx left < -(5) /\ p_y above + vy above < -(5)) /\
  @WaveCanvas.stepParticle exampleMath pr 800 360 left <> None /\
  @WaveCanvas.stepParticle exampleMath pr 800 360 above <> None /\
  @ShoalingCanvas.stepParticle exampleMath pr 800 360 left <> None /\
  @ShoalingCanvas.stepParticle exampleMath pr 800 360 above <> None.
Proof.
  cbv zeta. split; [split; reflexivity|].
  repeat split; vm_compute; discriminate.
Qed.

(** C8, amended: a particle is removed by the update loop exactly when,
    after its age and position have been advanced, its age has reached
    [maxLife] or it lies more than the margin (5 px, 6 px in ShoalingCanvas)
    beyond the right or the bottom edge; the particles left are exactly the
    advanced particles for which none of this holds. *)
Theorem particle_removed_iff_old_or_past_right_bottom
    (M : JSMath) (pr : Pointer) (w h : Z) (p p' : Particle) (ps : list Particle) :
  (WaveCanvas.stepParticle pr w h p = None <->
   maxLife p <= life p + 1 \/ inject_Z w + 5 < p_x p + vx p
   \/ inject_Z h + 5 < p_y p + vy p) /\
  (ShoalingCanvas.stepParticle pr w h p = None <->
   maxLife p <= life p + 1 \/ inject_Z w + 6 < p_x p + vx p
   \/ inject_Z h + 6 < p_y p + vy p) /\
  (In p' (WaveCanvas.updateLoop pr w h ps) <->
   exists q, In q ps /\ WaveCanvas.stepParticle pr w h q = Some p') /\
  (In p' (ShoalingCanvas.updateLoop pr w h ps) <->
   exists q, In q ps /\ ShoalingCanvas.stepParticle pr w h q = Some p').
Proof.
  split; [apply WaveFacts.wave_stepParticle_None_iff|].
  split; [apply ShoalingFacts.shoal_stepParticle_None_iff|].
  split; [apply WaveFacts.wave_updateLoop_In | apply ShoalingFacts.shoal_updateLoop_In].
Qed.

(** *** Amplitude *)

(** C6, as stated, fails: the amplitude prop is copied to [ampRef] as it is.
    A canvas mounted with amplitude 500 has amplitude 500, and after a touch
    drag a prop change to 500 leaves the amplitude at 500. *)
Lemma amplitude_prop_not_clamped :
  let ws := WaveCanvas.syncProps 500 1 280
              (WaveCanvas.touchDrag [300; 100] (WaveCanvas.init 40 1 280)) in
  let ss := ShoalingCanvas.syncAmplitude 500
              (ShoalingCanvas.touchDrag [300; 100] (ShoalingCanvas.init 40 1)) in
  ~ (WaveCanvas.amp ws <= 120) /\ ~ (ShoalingCanvas.amp ss <= 120) /\
  ~ (WaveCanvas.amp (WaveCanvas.touchDrag [] (WaveCanvas.init 500 1 280)) <= 120) /\
  ~ (ShoalingCanvas.amp (ShoalingCanvas.touchDrag [] (ShoalingCanvas.init 500 1)) <= 120).
Proof.
  cbv zeta. repeat split; vm_compute; intro H; apply H; reflexivity.
Qed.

(** C6, amended: after every touch-drag move the amplitude lies in [5, 120]
    (WaveCanvas) or [6, 120] (ShoalingCanvas), whatever the amplitude before
    and whatever the size and sign of the move, so it does after any
    non-empty drag; a frame leaves the amplitude as it is; the amplitude
    prop is stored unclamped. *)
Theorem amplitude_clamped_by_touch_drag
    (M : JSMath) (ws : WaveCanvas.State) (ss : ShoalingCanvas.State)
    (ys : list Q) (y a sp wl now : Q) (w h : Z) :
  5 <= WaveCanvas.amp (WaveCanvas.touchDrag (ys ++ [y]) ws) <= 120 /\
  6 <= ShoalingCanvas.amp (ShoalingCanvas.touchDrag (ys ++ [y]) ss) <= 120 /\
  WaveCanvas.amp (fst (WaveCanvas.draw w h now ws)) = WaveCanvas.amp ws /\
  ShoalingCanvas.amp (fst (ShoalingCanvas.draw w h ss)) = ShoalingCanvas.amp ss /\
  WaveCanvas.amp (WaveCanvas.syncProps a sp wl ws) = a /\
  ShoalingCanvas.amp (ShoalingCanvas.syncAmplitude a ss) = a.
Proof.
  split; [rewrite WaveFacts.wave_touchDrag_snoc; apply WaveFacts.wave_onTouchMove_range|].
  split; [rewrite ShoalingFacts.shoal_touchDrag_snoc;
          apply ShoalingFacts.shoal_onTouchMove_range|].
  split.
  { destruct (WaveCanvas.mounted ws) eqn:Hm.
    - apply (WaveFacts.wave_draw_mounted w h now ws Hm).
    - rewrite (WaveFacts.wave_draw_unmounted w h now ws Hm). reflexivity. }
  split.
  { destruct (ShoalingCanvas.mounted ss) eqn:Hm.
    - apply (ShoalingFacts.shoal_draw_mounted w h ss Hm).
    - rewrite (ShoalingFacts.shoal_draw_unmounted w h ss Hm). reflexivity. }
  split; reflexivity.
Qed.

(** *** Degenerate canvas sizes *)

(** C10, as stated, fails: on a canvas of size 0 x 0 a frame is not a no-op.
    WaveCanvas advances the phase, samples each of its five lines at
    [x = 0] and spawns foam; ShoalingCanvas advances its time, samples the
    water line once and spawns foam. *)
Lemma zero_size_canvas_still_ticks :
  let ws := WaveCanvas.init 40 1 280 in
  let ss := ShoalingCanvas.init 40 1 in
  (@WaveCanvas.draw exampleMath 0 0 0 ws <> (ws, []) /\
   WaveCanvas.phase (fst (@WaveCanvas.draw exampleMath 0 0 0 ws)) == 0.02 /\
   length (WaveCanvas.particles (fst (@WaveCanvas.draw exampleMath 0 0 0 ws))) = 4%nat /\
   map (@length Point) (snd (@WaveCanvas.draw exampleMath 0 0 0 ws)) = [1; 1; 1; 1; 1]%nat) /\
  (@ShoalingCanvas.draw exampleMath 0 0 ss <> (ss, []) /\
   ShoalingCanvas.time (fst (@ShoalingCanvas.draw exampleMath 0 0 ss)) == 0.0208 /\
   length (ShoalingCanvas.particles (fst (@ShoalingCanvas.draw exampleMath 0 0 ss))) = 3%nat /\
   length (snd (@ShoalingCanvas.draw exampleMath 0 0 ss)) = 1%nat).
Proof.
  cbv zeta. split.
  - split; [vm_compute; discriminate|]. vm_compute. repeat split.
  - split; [vm_compute; discriminate|]. vm_compute. repeat split.
Qed.

(** C10, amended: a frame of a mounted canvas is never skipped for the size
    of the canvas: [draw] tests the mounted flag and nothing else.  On a
    canvas of any client size [w] x [h], zero width and zero height
    included, the frame advances the phase (the time, in ShoalingCanvas) by
    the usual step, samples every water line at [floor(w / 2) + 1] points
    (one point, [x = 0], when the width is zero; the height plays no part
    in the count), applies the ripple decay once per sample, and runs the
    foam pass: the foam after the frame is the update loop applied to the
    old foam followed by the spawned particles, which are 3 below the
    capacity and 1 otherwise in ShoalingCanvas, and at most 4, at least 1
    below the capacity and none at it in WaveCanvas.  For [w >= 0] (a
    client width is never negative) every line has a point, so the crest
    sampler reads an existing point.  No division by zero occurs: the slope
    interpolations of [seabedY] and [shoalProgress], whose divisor is 0.54
    times the width, are always defined.  The only no-op is the frame of an
    unmounted canvas. *)
Theorem degenerate_canvas_tick
    (M : JSMath) (w h : Z) (now x : Q)
    (ws : WaveCanvas.State) (ss : ShoalingCanvas.State) :
  (WaveCanvas.mounted ws = true ->
   let '(ws', lines) := WaveCanvas.draw w h now ws in
   WaveCanvas.phase ws' = WaveCanvas.phase ws + 0.02 * WaveCanvas.speed ws /\
   map (@length Point) lines = repeat (Z.to_nat (w / 2 + 1)) 5 /\
   WaveCanvas.ripples ws'
   = Nat.iter (5 * Z.to_nat (w / 2 + 1)) WaveCanvas.decayAll (WaveCanvas.ripples ws) /\
   (exists news,
      WaveCanvas.particles ws'
      = WaveCanvas.updateLoop (WaveCanvas.pointer ws) w h
          (WaveCanvas.particles ws ++ news) /\
      (length news <= 4)%nat /\
      ((Z.of_nat (length (WaveCanvas.particles ws)) < WaveCanvas.maxParticles w)%Z ->
       (1 <= length news)%nat) /\
      ((WaveCanvas.maxParticles w <= Z.of_nat (length (WaveCanvas.particles ws)))%Z ->
       news = [])) /\
   ((0 <= w)%Z ->
    (Z.to_nat (WaveCanvas.crestIndex (last lines []) x) < length (last lines []))%nat)) /\
  (ShoalingCanvas.mounted ss = true ->
   let '(ss', smps) := ShoalingCanvas.draw w h ss in
   ShoalingCanvas.time ss'
   = ShoalingCanvas.time ss + 0.016 * (0.9 + ShoalingCanvas.speed ss * 0.4) /\
   length smps = Z.to_nat (w / 2 + 1) /\
   ShoalingCanvas.ripples ss'
   = Nat.iter (Z.to_nat (w / 2 + 1)) ShoalingCanvas.decayAll (ShoalingCanvas.ripples ss) /\
   (exists news,
      ShoalingCanvas.particles ss'
      = ShoalingCanvas.updateLoop (ShoalingCanvas.pointer ss) w h
          (ShoalingCanvas.particles ss ++ news) /\
      length news
      = (if (Z.of_nat (length (ShoalingCanvas.particles ss))
             <? ShoalingCanvas.maxParticles w)%Z then 3 else 1)%nat) /\
   ((0 <= w)%Z ->
    (Z.to_nat (ShoalingCanvas.crestIndex (map ShoalingCanvas.smp_pt smps) x)
     < length (map ShoalingCanvas.smp_pt smps))%nat)) /\
  Z.to_nat (0 / 2 + 1) = 1%nat /\
  ((0 <= w)%Z -> (1 <= Z.to_nat (w / 2 + 1))%nat) /\
  (forall x' wq hq,
     ShoalingCanvas.seabedY_checked x' wq hq = Some (ShoalingCanvas.seabedY x' wq hq) /\
     ShoalingCanvas.shoalProgress_checked x' wq = Some (ShoalingCanvas.shoalProgress x' wq)) /\
  (forall w' h' now' ws0 ss0,
     (WaveCanvas.mounted ws0 = false -> WaveCanvas.draw w' h' now' ws0 = (ws0, [])) /\
     (ShoalingCanvas.mounted ss0 = false -> ShoalingCanvas.draw w' h' ss0 = (ss0, []))).
Proof.
  assert (Hpts : (0 <= w)%Z -> (1 <= Z.to_nat (w / 2 + 1))%nat).
  { intro Hw. pose proof (Z.div_pos w 2 Hw ltac:(lia)). lia. }
  split; [|split; [|split; [|split; [|split]]]].
  - intro Hw.
    pose proof (WaveFacts.wave_draw_mounted w h now ws Hw) as (_ & Hp & _).
    pose proof (WaveFacts.draw_lines w h now ws Hw) as Hl.
    pose proof (WaveFacts.draw_ripples w h now ws Hw) as Hr.
    pose proof (WaveFacts.wave_draw_particles w h now ws Hw) as Hf.
    destruct (WaveCanvas.draw w h now ws) as [ws' lines]. cbn [fst snd] in *.
    split; [exact Hp|]. split; [exact Hl|]. split; [exact Hr|]. split; [exact Hf|].
    intro Hw0. specialize (Hpts Hw0).
    apply WaveFacts.wave_crestIndex_in_range.
    destruct lines as [|l1 [|l2 [|l3 [|l4 [|l5 [|l6 ls]]]]]]; try discriminate Hl.
    cbn in Hl. cbn. intro E. rewrite E in Hl. injection Hl as Hl. cbn in Hl. lia.
  - intro Hs.
    pose proof (ShoalingFacts.shoal_draw_mounted w h ss Hs) as (_ & Ht & _).
    pose proof (ShoalingFacts.draw_sample_count w h ss Hs) as Hl.
    pose proof (ShoalingFacts.shoal_draw_ripples w h ss Hs) as Hr.
    pose proof (ShoalingFacts.shoal_draw_particles w h ss Hs) as Hf.
    destruct (ShoalingCanvas.draw w h ss) as [ss' smps]. cbn [fst snd] in *.
    split; [exact Ht|]. split; [exact Hl|]. split; [exact Hr|]. split; [exact Hf|].
    intro Hw0. specialize (Hpts Hw0).
    apply ShoalingFacts.shoal_crestIndex_in_range.
    intro E. rewrite <- (length_map ShoalingCanvas.smp_pt), E in Hl. cbn in Hl. lia.
  - reflexivity.
  - exact Hpts.
  - intros x' wq hq. split.
    + apply ShoalingFacts.seabedY_checked_defined.
    + apply ShoalingFacts.shoalProgress_checked_defined.
  - intros w' h' now' ws0 ss0. split.
    + apply WaveFacts.wave_draw_unmounted.
    + apply ShoalingFacts.shoal_draw_unmounted.
Qed.

(** A mounted canvas 8 px wide and 0 px high. *)
Lemma degenerate_canvas_tick_witness :
  WaveCanvas.phase (fst (@WaveCanvas.draw exampleMath 8 0 0 (WaveCanvas.init 40 1 280)))
  = 0 + 0.02 * 1 /\
  map (@length Point)
      (snd (@WaveCanvas.draw exampleMath 8 0 0 (WaveCanvas.init 40 1 280)))
  = [5; 5; 5; 5; 5]%nat.
Proof.
  pose proof (degenerate_canvas_tick exampleMath 8 0 0 0
                (WaveCanvas.init 40 1 280) (ShoalingCanvas.init 40 1)) as (H & _).
  specialize (H eq_refl).
  destruct (@WaveCanvas.draw exampleMath 8 0 0 (WaveCanvas.init 40 1 280)).
  destruct H as (Hp & Hl & _). split; [exact Hp | exact Hl].
Defined.


(** A cyclone crossing an 800 x 400 canvas at 80 px/s, one frame every
    50 ms: after 400 frames the trail is full, and frame 401 drops the
    oldest point and appends the new centre. *)
Lemma trail_buffer_capped_fifo_throttled_witness :
  let P := TyphoonCanvas.mkProps 1 80 0.9 60 5 in
  let hist :=
    map (fun i => (P, 800%Z, 400%Z, 50 * inject_Z (Z.of_nat (S i)))) (seq 0 400) in
  let s := @TyphoonCanvas.run exampleMath hist (TyphoonCanvas.mount 0) in
  length (TyphoonCanvas.centers s) = 400%nat /\
  TyphoonCanvas.centers (fst (@TyphoonCanvas.loop exampleMath P 800 400 20050 s))
  = tl (TyphoonCanvas.centers s)
    ++ [@TyphoonCanvas.sampleCenter exampleMath P 800 400 ((20050 - 0) / 1000)].
Proof.
  intros P hist s.
  assert (Hlen : length (TyphoonCanvas.centers s) = 400%nat).
  { subst s. rewrite TyphoonFacts.run_trailRun. vm_compute. reflexivity. }
  split; [exact Hlen|].
  destruct (@TyphoonFacts.trail_buffer_capped_fifo_throttled exampleMath
              hist 0 P 800 400 20050)
    as (_ & _ & [Hsame | (_ & _ & _ & Hfull)] & _).
  - exfalso. fold s in Hsame. rewrite TyphoonFacts.centers_loop in Hsame.
    subst s. rewrite TyphoonFacts.run_trailRun in Hsame.
    apply (f_equal (@hd_error Point)) in Hsame.
    vm_compute in Hsame. discriminate Hsame.
  - apply Hfull. exact Hlen.
Defined.

(** Wind 0.9 and 5 bands are within the ranges and kept. *)
Lemma bands_and_wind_clamped_before_use_witness :
  TyphoonCanvas.windK 0.9 == 0.9 /\ TyphoonCanvas.bandCount 5 = 5%Z.
Proof.
  pose proof (@TyphoonFacts.bands_and_wind_clamped_before_use exampleMath
                (TyphoonCanvas.mkProps 1 80 0.9 60 5) 400 200 10)
    as (_ & _ & _ & _ & _ & Hwind & _ & _ & _ & Hbands & _).
  split.
  - apply Hwind. cbn. lra.
  - apply Hbands. vm_compute. split; discriminate.
Defined.

(** *** The water line in binary64 *)

Module DoublesFacts.
Import PrimFloat ShoalingDoubles.
#[local] Set Warnings "-inexact-float".
Local Open Scope float_scope.


End DoublesFacts.

(** * Further properties of the canvases *)

(** ** Numbers and lists *)

Lemma Qfloor_unique (q : Q) (n : Z) :
  inject_Z n <= q -> q < inject_Z n + 1 -> Qfloor q = n.
Proof.
  intros Hlo Hhi.
  pose proof (Qfloor_le q) as H1. pose proof (Qlt_floor q) as H2.
  rewrite inject_Z_plus in H2. change (inject_Z 1) with 1 in H2.
  assert (Ha : inject_Z n < inject_Z (Qfloor q + 1)).
  { rewrite inject_Z_plus. change (inject_Z 1) with 1. lra. }
  assert (Hb : inject_Z (Qfloor q) < inject_Z (n + 1)).
  { rewrite inject_Z_plus. change (inject_Z 1) with 1. lra. }
  rewrite <- Zlt_Qlt in Ha, Hb. lia.
Qed.

Lemma Qtrunc_nonneg (q : Q) : 0 <= q -> Qtrunc q = Qfloor q.
Proof.
  intro H. unfold Qtrunc. apply Qle_bool_iff in H. rewrite H. reflexivity.
Qed.

(** The remainder of a non-negative number by a positive one is the
    remainder of the floored division: it lies in [[0, b)]. *)
Lemma js_rem_floor (a b : Q) :
  0 <= a -> 0 < b -> js_rem a b == a - b * inject_Z (Qfloor (a / b)).
Proof.
  intros Ha Hb. unfold js_rem. rewrite Qtrunc_nonneg; [reflexivity|].
  apply Qle_shift_div_l; lra.
Qed.

Lemma js_rem_range (a b : Q) : 0 <= a -> 0 < b -> 0 <= js_rem a b < b.
Proof.
  intros Ha Hb. rewrite js_rem_floor by assumption.
  pose proof (Qfloor_le (a / b)) as H1. pose proof (Qlt_floor (a / b)) as H2.
  rewrite inject_Z_plus in H2. change (inject_Z 1) with 1 in H2.
  assert (E : a == a / b * b) by (field; lra).
  set (q := a / b) in *. set (f := inject_Z (Qfloor q)) in *.
  assert (0 <= (q - f) * b) by (apply Qmult_le_0_compat; lra).
  assert (0 < (f + 1 - q) * b) by (apply Qmult_lt_0_compat; lra).
  split; lra.
Qed.

Lemma js_rem_unique (a b r : Q) (n : Z) :
  0 <= a -> 0 < b -> 0 <= r < b -> a == r + b * inject_Z n -> js_rem a b == r.
Proof.
  intros Ha Hb [Hr0 Hr1] E. rewrite js_rem_floor by assumption.
  assert (Eq : a / b == r / b + inject_Z n).
  { rewrite E. field. lra. }
  assert (Hrb0 : 0 <= r / b) by (apply Qle_shift_div_l; lra).
  assert (Hrb1 : r / b < 1) by (apply Qlt_shift_div_r; lra).
  rewrite (Qfloor_unique (a / b) n) by lra. lra.
Qed.

Lemma In_skipn {A : Type} (n : nat) (l : list A) (x : A) :
  In x (skipn n l) -> In x l.
Proof.
  revert l. induction n as [|n IH]; intros l H.
  - exact H.
  - destruct l as [|y l]; [exact H|]. right. apply IH. exact H.
Qed.

Lemma last_cons_default {A : Type} (l : list A) (y d : A) :
  last (y :: l) d = last l y.
Proof.
  revert y d. induction l as [|z l IH]; intros y d; [reflexivity|].
  change (last (y :: z :: l) d) with (last (z :: l) d).
  rewrite (IH z d), (IH z y). reflexivity.
Qed.

Lemma nth_last_default {A : Type} (l : list A) (d1 d2 : A) :
  l <> [] -> nth (length l - 1) l d1 = last l d2.
Proof.
  induction l as [|x l IH]; intro H; [congruence|].
  destruct l as [|y l]; [reflexivity|].
  change (last (x :: y :: l) d2) with (last (y :: l) d2).
  rewrite <- IH by discriminate.
  replace (length (x :: y :: l) - 1)%nat with (S (length (y :: l) - 1))
    by (cbn [length]; lia).
  reflexivity.
Qed.

(** ** TyphoonCanvas: the track, the bands and the eye *)

Module TyphoonMore.
Import TyphoonCanvas.
Section Facts.
Context {M : JSMath}.

(** X1: the centre never leaves the box the track is made for: [x] runs from
    120 px left of the canvas to 120 px right of it and wraps there, as the
    distance travelled modulo the width plus 240; [y] stays within
    [pathAmp] of the middle line. *)
Theorem center_stays_on_track (P : Props) (w h : Z) (tSec : Q) :
  (forall a, -(1) <= sin a <= 1) ->
  (0 <= w)%Z -> 0 <= tSec * travel P -> 0 <= pathAmp P ->
  let c := sampleCenter P w h tSec in
  let span := inject_Z w + 240 in
  (-(120) <= pt_x c /\ pt_x c < inject_Z w + 120) /\
  pt_x c == -(120) + (tSec * travel P
                      - span * inject_Z (Qfloor (tSec * travel P / span))) /\
  (inject_Z h * 0.5 - pathAmp P <= pt_y c /\ pt_y c <= inject_Z h * 0.5 + pathAmp P).
Proof.
  intros Hsin Hw Hd Hamp c span.
  assert (Hspan : 0 < span).
  { unfold span. assert (0 <= inject_Z w) by (change 0 with (inject_Z 0);
      rewrite <- Zle_Qle; exact Hw). lra. }
  subst c. unfold sampleCenter. cbn [pt_x pt_y]. fold span.
  pose proof (js_rem_range (tSec * travel P) span Hd Hspan) as [H0 H1].
  pose proof (js_rem_floor (tSec * travel P) span Hd Hspan) as Hf.
  split; [unfold span in *; split; lra|].
  split; [rewrite Hf; reflexivity|].
  match goal with |- context [sin ?a] => pose proof (Hsin a) as [Hs0 Hs1];
    set (sv := sin a) in * end.
  assert (0 <= pathAmp P * (sv + 1)) by (apply Qmult_le_0_compat; lra).
  assert (0 <= pathAmp P * (1 - sv)) by (apply Qmult_le_0_compat; lra).
  split; lra.
Qed.

(** X2: travelling one more full span (the width plus 240) brings the centre
    back to the same [x]: the cyclone loops. *)
Theorem center_x_periodic (P : Props) (w h : Z) (t0 t1 : Q) :
  (0 <= w)%Z -> 0 <= t0 * travel P ->
  t1 * travel P == t0 * travel P + (inject_Z w + 240) ->
  pt_x (sampleCenter P w h t1) == pt_x (sampleCenter P w h t0).
Proof.
  intros Hw Hd E. unfold sampleCenter. cbn [pt_x].
  set (span := inject_Z w + 240) in *.
  assert (Hspan : 0 < span).
  { unfold span. assert (0 <= inject_Z w) by (change 0 with (inject_Z 0);
      rewrite <- Zle_Qle; exact Hw). lra. }
  pose proof (js_rem_range (t0 * travel P) span Hd Hspan) as Hr.
  pose proof (js_rem_floor (t0 * travel P) span Hd Hspan) as Hf.
  assert (Hu : js_rem (t1 * travel P) span == js_rem (t0 * travel P) span).
  { apply (js_rem_unique _ _ _ (Qfloor (t0 * travel P / span) + 1)).
    - lra.
    - exact Hspan.
    - exact Hr.
    - rewrite inject_Z_plus. change (inject_Z 1) with 1. lra. }
  rewrite Hu. reflexivity.
Qed.

(** *** The trail holds sampled centres only *)

Lemma recordTrail_from now c pts lastSample (R : Point -> Prop) :
  Forall R pts -> R c -> Forall R (fst (recordTrail now c pts lastSample)).
Proof.
  intros Hpts Hc. unfold recordTrail, splice_front.
  destruct (Qlt_bool 40 (now - lastSample)); cbn [fst]; [|exact Hpts].
  destruct (_ || _); [|exact Hpts].
  assert (Hall : Forall R (pts ++ [c])).
  { apply Forall_app. split; [exact Hpts | constructor; [exact Hc | constructor]]. }
  destruct (400 <? length (pts ++ [c]))%nat; [|exact Hall].
  rewrite Forall_forall in *. intros x Hx. apply Hall. eapply In_skipn, Hx.
Qed.

Lemma recordTrail_grows_by_one now c pts lastSample :
  (length (fst (recordTrail now c pts lastSample)) <= length pts + 1)%nat.
Proof.
  unfold recordTrail, splice_front.
  destruct (Qlt_bool 40 (now - lastSample)); cbn [fst]; [|lia].
  destruct (_ || _); [|lia].
  destruct (400 <? length (pts ++ [c]))%nat.
  - rewrite length_skipn, length_app. cbn. lia.
  - rewrite length_app. cbn. lia.
Qed.

(** X3: every point of the trail is the centre sampled at one of the frames of
    the run, at the time elapsed since mount, and the trail has no more
    points than there were frames. *)
Theorem trail_holds_sampled_centers
    (hist : list (Props * Z * Z * Q)) (t0 : Q) :
  let s := run hist (mount t0) in
  Forall (fun p => exists P w h now,
              In (P, w, h, now) hist /\
              p = sampleCenter P w h ((now - t0) / 1000))
         (centers s) /\
  (length (centers s) <= length hist)%nat.
Proof.
  cbv zeta.
  set (R := fun all p => exists P w h now,
              In (P, w, h, now) all /\ p = sampleCenter P w h ((now - t0) / 1000)).
  assert (G : forall all hist' s,
             incl hist' all -> startTime s = t0 -> Forall (R all) (centers s) ->
             Forall (R all) (centers (run hist' s)) /\
             (length (centers (run hist' s)) <= length (centers s) + length hist')%nat).
  { intros all hist'. induction hist' as [|[[[P w] h] now] rest IH];
      intros s Hincl Ht Hs; cbn [run length].
    - split; [exact Hs | lia].
    - assert (Hin : In (P, w, h, now) all) by (apply Hincl; left; reflexivity).
      assert (Hrest : incl rest all) by (intros x Hx; apply Hincl; right; exact Hx).
      destruct (IH (fst (loop P w h now s)) Hrest) as [IH1 IH2].
      + rewrite TyphoonFacts.startTime_loop. exact Ht.
      + rewrite TyphoonFacts.centers_loop. apply recordTrail_from; [exact Hs|].
        exists P, w, h, now. rewrite Ht. split; [exact Hin | reflexivity].
      + split; [exact IH1|].
        rewrite TyphoonFacts.centers_loop in IH2.
        pose proof (recordTrail_grows_by_one now
                      (sampleCenter P w h ((now - startTime s) / 1000))
                      (centers s) (lastTrailSample s)). lia. }
  destruct (G hist hist (mount t0) (incl_refl hist) eq_refl) as [G1 G2].
  - constructor.
  - split; [exact G1 | exact G2].
Qed.

(** *** Bands, eye and eyewall *)

Lemma band_nth (P : Props) (cx cy timeSec : Q) (k : nat) (d : Band) :
  (k < Z.to_nat (bandCount (bands P)))%nat ->
  let b := nth k (cy_bands (drawCyclone P cx cy timeSec)) d in
  band_alpha b =
    Qmax 0.02 ((0.08 + 0.18 * windK (wind P))
               * (1 - inject_Z (Z.of_nat k) / (inject_Z (bandCount (bands P)) + 1))) /\
  band_lineWidth b =
    Qmax 0.6 (1.0 * windK (wind P))
    + (inject_Z (bandCount (bands P)) - inject_Z (Z.of_nat k)) * 0.25.
Proof.
  intros Hk b. subst b.
  assert (E : nth_error (cy_bands (drawCyclone P cx cy timeSec)) k
              = Some (nth k (cy_bands (drawCyclone P cx cy timeSec)) d)).
  { apply nth_error_nth'. unfold drawCyclone. cbn [cy_bands].
    rewrite length_map, length_seq. exact Hk. }
  revert E. generalize (nth k (cy_bands (drawCyclone P cx cy timeSec)) d) as b.
  intro b. unfold drawCyclone. cbn [cy_bands]. rewrite nth_error_map, nth_error_seq.
  apply Nat.ltb_lt in Hk. rewrite Hk. cbn [option_map Nat.add].
  intro H. injection H as <-. cbn [band_alpha band_lineWidth]. split; reflexivity.
Qed.

(** X4: the bands are drawn with a depth cue.  Whatever the props, every
    band drawn, a single one included, has an opacity within [0.02, 0.368]
    and a line width within [0.85, 4.1]; and from one band to any later
    one the line gets thinner, by a quarter pixel per band, and never more
    opaque. *)
Theorem bands_fade_with_depth (P : Props) (cx cy timeSec : Q) (d : Band) :
  let bs := cy_bands (drawCyclone P cx cy timeSec) in
  Forall (fun b => 0.02 <= band_alpha b <= 0.368 /\
                   0.85 <= band_lineWidth b <= 4.1) bs /\
  (forall k1 k2 : nat,
     (k1 < k2)%nat -> (k2 < length bs)%nat ->
     band_lineWidth (nth k2 bs d) < band_lineWidth (nth k1 bs d) /\
     band_lineWidth (nth k1 bs d) - band_lineWidth (nth k2 bs d)
       == inject_Z (Z.of_nat (k2 - k1)) * 0.25 /\
     band_alpha (nth k2 bs d) <= band_alpha (nth k1 bs d)).
Proof.
  intro bs.
  assert (Hlen : length bs = Z.to_nat (bandCount (bands P))).
  { subst bs. unfold drawCyclone. cbn [cy_bands].
    rewrite length_map, length_seq. reflexivity. }
  pose proof (TyphoonFacts.windK_range (wind P)) as [Hk0 Hk1].
  pose proof (TyphoonFacts.bandCount_range (bands P)) as [Hn1 Hn10].
  pose proof (Q.le_max_l 0.6 (1.0 * windK (wind P))) as Hl0.
  assert (Hl1 : Qmax 0.6 (1.0 * windK (wind P)) <= 1.6) by (apply Q.max_lub; lra).
  assert (Hn : inject_Z (bandCount (bands P)) <= 10)
    by (change 10 with (inject_Z 10); rewrite <- Zle_Qle; lia).
  assert (Hfrac : forall k : nat, (k < length bs)%nat ->
            0 <= inject_Z (Z.of_nat k) /\
            inject_Z (Z.of_nat k) + 1 <= inject_Z (bandCount (bands P)) /\
            0 <= inject_Z (Z.of_nat k) / (inject_Z (bandCount (bands P)) + 1)).
  { intros k Hk. rewrite Hlen in Hk.
    assert (H0 : 0 <= inject_Z (Z.of_nat k))
      by (change 0 with (inject_Z 0); rewrite <- Zle_Qle; lia).
    assert (H1 : inject_Z (Z.of_nat k) + 1 <= inject_Z (bandCount (bands P))).
    { change 1 with (inject_Z 1). rewrite <- inject_Z_plus, <- Zle_Qle. lia. }
    split; [exact H0|]. split; [exact H1|]. apply Qle_shift_div_l; lra. }
  split.
  - apply Forall_nth. intros k d' Hk.
    destruct (Hfrac k Hk) as (Hq0 & Hq1 & Hd0).
    rewrite Hlen in Hk.
    destruct (band_nth P cx cy timeSec k d' Hk) as [Ha Hw].
    fold bs in Ha, Hw. rewrite Ha, Hw. clear Ha Hw.
    set (wk := windK (wind P)) in *. set (qn := inject_Z (bandCount (bands P))) in *.
    set (q := inject_Z (Z.of_nat k)) in *. set (lb := Qmax 0.6 (1.0 * wk)) in *.
    set (f := q / (qn + 1)) in *.
    assert (Htop : (0.08 + 0.18 * wk) * (1 - f) <= 0.368).
    { assert (0 <= (0.08 + 0.18 * wk) * f) by (apply Qmult_le_0_compat; lra). lra. }
    split; [split; [apply Q.le_max_l | apply Q.max_lub; lra]|].
    split; lra.
  - intros k1 k2 H12 H2.
    destruct (Hfrac k1 ltac:(lia)) as (Hq0 & _ & Hd0).
    destruct (Hfrac k2 H2) as (_ & Hq2 & _).
    rewrite Hlen in H2.
    destruct (band_nth P cx cy timeSec k1 d ltac:(lia)) as [Ha1 Hw1].
    destruct (band_nth P cx cy timeSec k2 d H2) as [Ha2 Hw2].
    fold bs in Ha1, Hw1, Ha2, Hw2.
    rewrite Ha1, Ha2, Hw1, Hw2. clear Ha1 Ha2 Hw1 Hw2.
    assert (Hq1 : inject_Z (Z.of_nat k1) < inject_Z (Z.of_nat k2))
      by (rewrite <- Zlt_Qlt; lia).
    assert (Hsub : inject_Z (Z.of_nat (k2 - k1))
                   == inject_Z (Z.of_nat k2) - inject_Z (Z.of_nat k1)).
    { rewrite Nat2Z.inj_sub by lia. unfold Z.sub.
      rewrite inject_Z_plus, inject_Z_opp. ring. }
    set (wk := windK (wind P)) in *. set (qn := inject_Z (bandCount (bands P))) in *.
    set (q1 := inject_Z (Z.of_nat k1)) in *. set (q2 := inject_Z (Z.of_nat k2)) in *.
    set (lb := Qmax 0.6 (1.0 * wk)) in *.
    assert (Hd1 : q1 / (qn + 1) < q2 / (qn + 1)).
    { apply Qlt_shift_div_l; [lra|].
      assert (E : q1 / (qn + 1) * (qn + 1) == q1) by (field; lra). lra. }
    set (f1 := q1 / (qn + 1)) in *. set (f2 := q2 / (qn + 1)) in *.
    assert (Hmono : (0.08 + 0.18 * wk) * (1 - f2) <= (0.08 + 0.18 * wk) * (1 - f1)).
    { assert (0 <= (0.08 + 0.18 * wk) * (f2 - f1))
        by (apply Qmult_le_0_compat; lra). lra. }
    split; [lra|]. split; [rewrite Hsub; ring|].
    apply Q.max_le_compat_l; exact Hmono.
Qed.

Lemma spiral_length a b thetaMax seg rot offset cx cy n th :
  0 <= seg ->
  th + inject_Z (Z.of_nat n) * seg <= thetaMax + seg ->
  length (spiral n a b thetaMax seg rot offset cx cy th) = n.
Proof.
  intro Hseg. revert th. induction n as [|n IH]; intros th H; cbn [spiral].
  - reflexivity.
  - rewrite Nat2Z.inj_succ, <- Z.add_1_r, inject_Z_plus in H.
    change (inject_Z 1) with 1 in H.
    assert (Hn : 0 <= inject_Z (Z.of_nat n))
      by (change 0 with (inject_Z 0); rewrite <- Zle_Qle; lia).
    assert (0 <= inject_Z (Z.of_nat n) * seg) by (apply Qmult_le_0_compat; lra).
    assert (E : Qle_bool th thetaMax = true) by (apply Qle_bool_iff; lra).
    rewrite E. cbn [length]. f_equal. apply IH. lra.
Qed.

(** X5: every band is a polyline of the same number of points,
    [floor(thetaMax / seg) + 1] with [thetaMax = 5 * 2 PI] and
    [seg = 0.18], whatever the props, the centre and the time. *)
Theorem bands_have_equal_point_count (P : Props) (cx cy timeSec : Q) :
  0 <= PI ->
  Forall (fun b => length (band_pts b) = spiral_fuel (5 * PI * 2) 0.18)
         (cy_bands (drawCyclone P cx cy timeSec)).
Proof.
  intro Hpi. unfold drawCyclone. cbn [cy_bands].
  apply Forall_map, Forall_forall. intros k _. cbn [band_pts].
  apply spiral_length; [lra|]. unfold spiral_fuel.
  set (tm := 5 * PI * 2) in *.
  assert (Htm : 0 <= tm) by (unfold tm; lra).
  assert (Hq : 0 <= tm / 0.18) by (apply Qle_shift_div_l; lra).
  assert (Hf : (0 <= Qfloor (tm / 0.18))%Z).
  { change 0%Z with (Qfloor 0). apply Qfloor_resp_le. exact Hq. }
  rewrite Z2Nat.id by lia. rewrite inject_Z_plus. change (inject_Z 1) with 1.
  pose proof (Qfloor_le (tm / 0.18)) as Hle.
  assert (E : tm == tm / 0.18 * 0.18) by (field; lra).
  set (f := inject_Z (Qfloor (tm / 0.18))) in *. set (q := tm / 0.18) in *.
  lra.
Qed.

(** X6: whatever the wind prop, the eyewall ring has a radius within [8, 12.8],
    the eye disc 2.2 times that, and the ring an opacity within
    [0.35, 0.59]; the spiral starts at a radius factor within [3, 7.8]. *)
Theorem eye_stays_in_proportion (P : Props) (cx cy timeSec : Q) :
  let c := drawCyclone P cx cy timeSec in
  8 <= eyewall_radius c <= 12.8 /\
  eye_gradient_radius c == 2.2 * eyewall_radius c /\
  0.35 <= eyewall_alpha c <= 0.59.
Proof.
  cbv zeta. unfold drawCyclone. cbn [eyewall_radius eye_gradient_radius eyewall_alpha].
  pose proof (TyphoonFacts.windK_range (wind P)) as [Hk0 Hk1].
  set (wk := windK (wind P)) in *.
  split; [split; lra|]. split; [ring|]. split; lra.
Qed.

End Facts.
End TyphoonMore.

(** ** The page that hosts TyphoonCanvas *)

Module PageFacts.
Import AnimationPage.

Lemma js_round_range (v : Q) (lo hi : Z) :
  inject_Z lo <= v <= inject_Z hi -> (lo <= js_round v <= hi)%Z.
Proof.
  intros [H0 H1]. unfold js_round.
  split.
  - rewrite <- (Qfloor_Z lo). apply Qfloor_resp_le. lra.
  - assert (Qfloor (v + 0.5) <= Qfloor (inject_Z hi + 0.5))%Z
      by (apply Qfloor_resp_le; lra).
    pose proof (js_round_inject_Z hi) as E. unfold js_round in E. lia.
Qed.

Lemma update_in_range (a : Action) (s : PageState) :
  in_slider_range a -> props_in_range s -> props_in_range (update a s).
Proof.
  intros Ha (Hs & Ht & Hw & Hp & Hb).
  destruct a; unfold props_in_range, update, in_slider_range, defaults in *;
    cbn [TyphoonCanvas.spin TyphoonCanvas.travel TyphoonCanvas.wind
         TyphoonCanvas.pathAmp TyphoonCanvas.bands];
    (split; [first [exact Ha | exact Hs | lra] |]);
    (split; [first [exact Ha | exact Ht | lra] |]);
    (split; [first [exact Ha | exact Hw | lra] |]);
    (split; [first [exact Ha | exact Hp | lra] |]);
    try exact Hb.
  - exists (js_round v). split; [|reflexivity].
    apply js_round_range. change (inject_Z 2) with 2. change (inject_Z 8) with 8.
    exact Ha.
  - exists 5%Z. split; [lia | reflexivity].
Qed.

(** X7: with the sliders of the page the clamps of [drawCyclone] never bite:
    after any sequence of slider moves within the range of each slider, and
    resets, the band count drawn is the integer the page holds, between 2
    and 8, and the wind factor used is the wind the page holds. *)
Theorem page_props_need_no_clamping (acts : list Action) :
  Forall in_slider_range acts ->
  let s := session acts in
  (2 <= TyphoonCanvas.bandCount (TyphoonCanvas.bands s) <= 8)%Z /\
  inject_Z (TyphoonCanvas.bandCount (TyphoonCanvas.bands s)) = TyphoonCanvas.bands s /\
  TyphoonCanvas.windK (TyphoonCanvas.wind s) == TyphoonCanvas.wind s /\
  0 <= TyphoonCanvas.travel s <= 180 /\ 0 <= TyphoonCanvas.pathAmp s <= 140.
Proof.
  intros Hacts s.
  assert (H : props_in_range s).
  { subst s. unfold session.
    assert (G : forall s0, props_in_range s0 ->
                props_in_range (fold_left (fun s a => update a s) acts s0)).
    { induction Hacts as [|a acts Ha _ IH]; intros s0 H0; cbn [fold_left].
      - exact H0.
      - apply IH, update_in_range; assumption. }
    apply G. unfold props_in_range, defaults. cbn. repeat split; try lra.
    exists 5%Z. split; [lia | reflexivity]. }
  destruct H as (Hs & Ht & Hw & Hp & n & Hn & Hb).
  rewrite Hb. unfold TyphoonCanvas.bandCount. rewrite js_round_inject_Z.
  split; [lia|]. split; [f_equal; lia|].
  split; [|split; assumption].
  unfold TyphoonCanvas.windK.
  rewrite Q.min_r by lra. rewrite Q.max_r by lra. reflexivity.
Qed.

End PageFacts.

(** ** WaveCanvas: pointer, sampler, foam and ripples *)

Module WaveMore.
Import WaveCanvas.
Section Facts.
Context {M : JSMath}.

Lemma pointerHint_range (pr : Pointer) (x : Q) : 0 <= pointerHint pr x <= 2.5.
Proof.
  unfold pointerHint. destruct (inside pr); cbn [negb]; [|lra].
  destruct (Qlt_bool 90 (Qabs (x - ptr_x pr))) eqn:E; [lra|].
  apply Qlt_bool_false_iff in E. pose proof (Qabs_nonneg (x - ptr_x pr)).
  set (dx := Qabs (x - ptr_x pr)) in *.
  assert (Ed : dx / 90 * 90 == dx) by (field; lra).
  set (q := dx / 90) in *. split; lra.
Qed.

Lemma layerPoints_xs s i a l yBase t xs rs :
  map pt_x (fst (layerPoints s i a l yBase t xs rs)) = map inject_Z xs.
Proof.
  revert rs. induction xs as [|x xs IH]; intro rs; cbn [layerPoints].
  - reflexivity.
  - destruct (rippleOffset _ _ _ _) as [ro rs1].
    specialize (IH rs1). destruct (layerPoints _ _ _ _ _ _ _ _) as [pts rs2].
    cbn in *. rewrite IH. reflexivity.
Qed.

Lemma drawLayers_xs w h t s layers rs :
  Forall (fun line => map pt_x line = map inject_Z (sample_xs 2 w))
         (fst (drawLayers w h t s layers rs)).
Proof.
  revert rs. induction layers as [|i layers IH]; intro rs; cbn [drawLayers].
  - constructor.
  - unfold drawWaveLayer at 1.
    match goal with |- context [layerPoints ?a ?b ?c ?d ?e ?f ?g ?k] =>
      pose proof (layerPoints_xs a b c d e f g k) as Hx;
      destruct (layerPoints a b c d e f g k) as [pts rs1] end.
    specialize (IH rs1). destruct (drawLayers _ _ _ _ _ _) as [ptss rs2].
    cbn [fst] in *. constructor; assumption.
Qed.

(** *** Foam *)

Lemma spawn_bounded n sp w crest ps k :
  (Z.of_nat (length (fst (spawn n sp w crest ps k)))
   <= Z.max (Z.of_nat (length ps)) (maxParticles w))%Z.
Proof.
  revert ps k. induction n as [|n IH]; intros ps k; cbn [spawn].
  - cbn. lia.
  - destruct (maxParticles w <=? Z.of_nat (length ps))%Z eqn:E.
    + cbn. lia.
    + apply Z.leb_gt in E. specialize (IH (ps ++ [newParticle sp w crest k]) (k + 6)%nat).
      rewrite length_app in IH. cbn [length] in IH. lia.
Qed.

Lemma draw_foam_bounded w h now s :
  (length (particles s) <= 110)%nat ->
  (length (particles (fst (draw w h now s))) <= 110)%nat.
Proof.
  intro H. unfold draw. destruct (mounted s); cbn [negb]; [|exact H].
  destruct (drawLayers _ _ _ _ _ _) as [ptss ripples1].
  unfold updateAndDrawParticles. cbn [particles speed rng pointer].
  match goal with |- context [spawn ?n ?a ?b ?c ?d ?e] =>
    pose proof (spawn_bounded n a b c d e) as HS;
    destruct (spawn n a b c d e) as [ps k] end.
  cbn [fst particles] in *.
  pose proof (WaveFacts.updateLoop_length (pointer s) w h ps).
  pose proof (WaveFacts.wave_maxParticles_range w). lia.
Qed.

(** X11: whatever happens to the canvas (frames at any size, resizes in between,
    pointer and touch events, prop changes), it never holds more than 110
    foam particles. *)
Theorem wave_foam_never_exceeds_110 (es : list Event) (amplitude speed wavelength : Q) :
  (length (particles (run es (init amplitude speed wavelength))) <= 110)%nat.
Proof.
  unfold run.
  assert (G : forall s, (length (particles s) <= 110)%nat ->
              (length (particles (fold_left (fun s e => handle e s) es s)) <= 110)%nat).
  { induction es as [|e es IH]; intros s Hs; cbn [fold_left]; [exact Hs|].
    apply IH. destruct e; cbn [handle]; try exact Hs.
    apply draw_foam_bounded, Hs. }
  apply G. cbn. lia.
Qed.

Lemma stepParticle_Some pr w h p p' :
  stepParticle pr w h p = Some p' ->
  life p' = life p + 1 /\ maxLife p' = maxLife p /\ size p' = size p /\
  p_x p' = p_x p + vx p /\ p_y p' = p_y p + vy p /\
  alpha p' = 0.8 * (1 - (life p + 1) / maxLife p) /\
  life p' < maxLife p'.
Proof.
  unfold stepParticle.
  destruct (if inside pr then _ else _) as [vx2 vy2].
  destruct (Qle_bool (maxLife p) (life p + 1)) eqn:E; cbn [orb]; [discriminate|].
  destruct (_ || _); [discriminate|].
  intro H. injection H as <-. cbn. apply Qle_bool_false_iff in E.
  repeat split; try reflexivity. exact E.
Qed.

(** A particle that survives a frame is one frame older, has moved by its
    velocity and keeps its [maxLife] and size; if its [maxLife] is positive
    and its age was not negative, its opacity lies strictly between 0 and
    0.8, so the clamp to [0, 1] in the fill style changes nothing. *)
Lemma wave_survivor_fades (pr : Pointer) (w h : Z) (p p' : Particle) :
  stepParticle pr w h p = Some p' ->
  0 <= life p -> 0 < maxLife p ->
  life p' = life p + 1 /\ maxLife p' = maxLife p /\ size p' = size p /\
  p_x p' = p_x p + vx p /\ p_y p' = p_y p + vy p /\
  0 < alpha p' /\ alpha p' < 0.8 /\
  Qmax 0 (Qmin 1 (alpha p')) = alpha p'.
Proof.
  intros Hs Hl Hm.
  destruct (stepParticle_Some pr w h p p' Hs) as (El & Em & Es & Ex & Ey & Ea & Hlt).
  rewrite El, Em in Hlt.
  repeat (split; [assumption|]).
  assert (Hr : (life p + 1) / maxLife p * maxLife p == life p + 1) by (field; lra).
  set (r := (life p + 1) / maxLife p) in *.
  assert (Hr0 : 0 < r).
  { destruct (Qlt_le_dec 0 r) as [H|H]; [exact H|]. exfalso.
    assert (0 <= (0 - r) * maxLife p) by (apply Qmult_le_0_compat; lra). lra. }
  assert (Hr1 : r < 1).
  { destruct (Qlt_le_dec r 1) as [H|H]; [exact H|]. exfalso.
    assert (0 <= (r - 1) * maxLife p) by (apply Qmult_le_0_compat; lra). lra. }
  assert (H0 : 0 < alpha p') by (rewrite Ea; lra).
  assert (H1 : alpha p' < 0.8) by (rewrite Ea; lra).
  split; [exact H0|]. split; [exact H1|].
  assert (E1 : Qmin 1 (alpha p') = alpha p').
  { unfold Qmin, GenericMinMax.gmin.
    destruct (1 ?= alpha p') eqn:C; try reflexivity.
    - apply Qeq_alt in C. lra.
    - rewrite <- Qlt_alt in C. lra. }
  rewrite E1. unfold Qmax, GenericMinMax.gmax.
  destruct (0 ?= alpha p') eqn:C; try reflexivity.
  - apply Qeq_alt in C. lra.
  - rewrite <- Qgt_alt in C. lra.
Qed.

Lemma updateLoops_aging frames ps (k : Q) :
  Forall (fun p => k <= life p) ps ->
  Forall (fun p => k + inject_Z (Z.of_nat (length frames)) <= life p
                   /\ (frames <> [] -> life p < maxLife p)
                   /\ exists p0, In p0 ps /\ maxLife p = maxLife p0)
         (updateLoops frames ps).
Proof.
  unfold updateLoops. revert ps k.
  induction frames as [|[[pr w] h] frames IH]; intros ps k Hps; cbn [fold_left length].
  - rewrite Forall_forall in *. intros p Hp. split.
    + change (inject_Z (Z.of_nat 0)) with 0. specialize (Hps p Hp). lra.
    + split; [congruence|]. exists p. split; [exact Hp | reflexivity].
  - cbn [fst snd].
    assert (Hstep : Forall (fun p => k + 1 <= life p) (updateLoop pr w h ps)).
    { rewrite Forall_forall in *. intros p' Hp'.
      apply WaveFacts.wave_updateLoop_In in Hp'. destruct Hp' as (p & Hin & Hs).
      destruct (stepParticle_Some pr w h p p' Hs) as (El & _).
      rewrite El. specialize (Hps p Hin). lra. }
    specialize (IH (updateLoop pr w h ps) (k + 1) Hstep).
    rewrite Forall_forall in *. intros q Hq.
    destruct (IH q Hq) as (H1 & H2 & p1 & Hin1 & Hm1).
    rewrite Nat2Z.inj_succ, <- Z.add_1_r, inject_Z_plus.
    change (inject_Z 1) with 1. split; [lra|]. split.
    + intros _. destruct frames as [|f frames'].
      * cbn [fold_left] in Hq.
        apply WaveFacts.wave_updateLoop_In in Hq. destruct Hq as (p & Hin & Hs).
        apply (stepParticle_Some pr w h p q Hs).
      * apply H2. discriminate.
    + apply WaveFacts.wave_updateLoop_In in Hin1. destruct Hin1 as (p & Hin & Hs).
      destruct (stepParticle_Some pr w h p p1 Hs) as (_ & Em & _).
      exists p. split; [exact Hin | congruence].
Qed.

(** Foam is self-terminating: live particles (age at least 0 and below
    [maxLife]) whose [maxLife] is at most [n] are all gone after [n] update
    loops, whatever the pointer and the canvas size at each of them. *)
Lemma wave_foam_dies_of_age (frames : list (Pointer * Z * Z)) (ps : list Particle) :
  Forall (fun p => 0 <= life p /\ life p < maxLife p /\
                   maxLife p <= inject_Z (Z.of_nat (length frames))) ps ->
  updateLoops frames ps = [].
Proof.
  intro H.
  assert (H0 : Forall (fun p => 0 <= life p) ps).
  { eapply Forall_impl; [|exact H]. intros p [Hp _]. exact Hp. }
  pose proof (updateLoops_aging frames ps 0 H0) as Ha.
  destruct (updateLoops frames ps) as [|q qs] eqn:E; [reflexivity|]. exfalso.
  apply Forall_inv in Ha. destruct Ha as (H1 & H2 & p0 & Hin & Hm).
  rewrite Forall_forall in H. destruct (H p0 Hin) as (Hl0 & Hl1 & Hmax).
  assert (Hne : frames <> []).
  { intro Hnil. subst frames. change (inject_Z (Z.of_nat (length (@nil (Pointer * Z * Z))))) with 0 in Hmax. lra. }
  specialize (H2 Hne). rewrite Hm in H2. lra.
Qed.

(** *** Ripples *)

Lemma wave_decayAll_bound rs (b : Q) :
  Forall (fun r => ripple_ok r /\ strength r <= b) rs ->
  Forall (fun r => ripple_ok r /\ strength r <= b * 0.985) (decayAll rs).
Proof.
  induction 1 as [|r rs Hr Hrs IH]; cbn [decayAll].
  - constructor.
  - destruct (Qlt_bool _ _) eqn:E; [exact IH|].
    constructor; [|exact IH].
    apply Qlt_bool_false_iff in E. cbn in E.
    destruct Hr as ((Hrad & Hdec & Hlo & Hhi) & Hb).
    unfold ripple_ok. cbn. rewrite Hdec in *.
    repeat split; try assumption; lra.
Qed.

Lemma wave_decayAll_ok rs : Forall ripple_ok rs -> Forall ripple_ok (decayAll rs).
Proof.
  intro H.
  assert (H' : Forall (fun r => ripple_ok r /\ strength r <= 18) rs).
  { eapply Forall_impl; [|exact H]. intros r Hr. split; [exact Hr | apply Hr]. }
  apply wave_decayAll_bound in H'.
  eapply Forall_impl; [|exact H']. intros r [Hr _]. exact Hr.
Qed.

Lemma wave_iter_decay_bound n rs :
  Forall ripple_ok rs ->
  Forall (fun r => ripple_ok r /\ strength r <= decayed 18 0.985 n)
         (Nat.iter n decayAll rs).
Proof.
  intro H. induction n as [|n IH].
  - cbn. eapply Forall_impl; [|exact H]. intros r Hr. split; [exact Hr | apply Hr].
  - rewrite Nat.iter_succ. cbn [decayed]. apply wave_decayAll_bound, IH.
Qed.

Lemma decayAll_iter_nil n : Nat.iter n decayAll (@nil Ripple) = [].
Proof. induction n as [|n IH]; [reflexivity|]. rewrite Nat.iter_succ, IH. reflexivity. Qed.

Lemma wave_iter_decay_empty n rs :
  Forall ripple_ok rs -> (271 <= n)%nat -> Nat.iter n decayAll rs = [].
Proof.
  intros H Hn.
  assert (E271 : Nat.iter 271 decayAll rs = []).
  { pose proof (wave_iter_decay_bound 271 rs H) as Hb.
    destruct (Nat.iter 271 decayAll rs) as [|r rest]; [reflexivity|]. exfalso.
    apply Forall_inv in Hb. destruct Hb as ((_ & _ & Hlo & _) & Hhi).
    assert (Hc : decayed 18 0.985 271 < 0.3) by (vm_compute; reflexivity).
    lra. }
  replace n with ((n - 271) + 271)%nat by lia.
  rewrite Nat.iter_add, E271. apply decayAll_iter_nil.
Qed.

Lemma wave_run_ripples_ok es s :
  Forall ripple_ok (ripples s) -> Forall ripple_ok (ripples (run es s)).
Proof.
  unfold run. revert s. induction es as [|e es IH]; intros s Hs; cbn [fold_left].
  - exact Hs.
  - apply IH. destruct e; cbn [handle]; try exact Hs.
    + destruct (mounted s) eqn:Hm.
      * rewrite (WaveFacts.draw_ripples w h now s Hm).
        apply Nat.iter_invariant; [apply wave_decayAll_ok | exact Hs].
      * rewrite (WaveFacts.wave_draw_unmounted w h now s Hm). exact Hs.
    + cbn. apply Forall_app. split; [exact Hs|].
      constructor; [|constructor]. unfold ripple_ok. cbn.
      repeat split; try reflexivity; lra.
    + cbn. apply Forall_app. split; [exact Hs|].
      constructor; [|constructor]. unfold ripple_ok. cbn.
      repeat split; try reflexivity; lra.
Qed.

Lemma wave_draw_clears_ripples w h now s :
  (108 <= w)%Z -> mounted s = true -> Forall ripple_ok (ripples s) ->
  ripples (fst (draw w h now s)) = [].
Proof.
  intros Hw Hm Hs. rewrite (WaveFacts.draw_ripples w h now s Hm).
  apply wave_iter_decay_empty; [exact Hs|].
  assert (54 <= w / 2)%Z by (apply Z.div_le_lower_bound; lia). lia.
Qed.

(** *** Amplitude *)



Lemma wave_drag_telescopes s ys :
  unclamped s ys ->
  amp (touchDrag ys s) == amp s + (lastY s - last ys (lastY s)) * 0.2 /\
  lastY (touchDrag ys s) = last ys (lastY s).
Proof.
  unfold touchDrag. revert s. induction ys as [|y rest IH]; intros s H.
  - cbn. split; [ring | reflexivity].
  - cbn [fold_left]. destruct H as [Hr Hrest].
    destruct (IH (onTouchMove y s) Hrest) as [IHa IHl].
    pose proof (last_cons_default rest y (lastY s)) as El.
    rewrite El. cbn [lastY onTouchMove] in IHa, IHl. split; [|exact IHl].
    rewrite IHa. cbn [amp onTouchMove].
    rewrite Q.min_r by lra. rewrite Q.max_r by lra. ring.
Qed.

(** *** The crest sampler *)

Lemma js_round_half_even (i : Z) : js_round (inject_Z (2 * i) / 2) = i.
Proof.
  unfold js_round.
  assert (E : inject_Z (2 * i) / 2 + 0.5 == inject_Z i + 0.5).
  { rewrite inject_Z_mult. change (inject_Z 2) with 2. field. }
  rewrite (Qfloor_comp _ _ E). apply js_round_inject_Z.
Qed.

Lemma wave_crestSampler_spec (pts : list Point) (d : Point) :
  (forall i, (i < length pts)%nat ->
     crestSampler pts (inject_Z (2 * Z.of_nat i)) = pt_y (nth i pts d)) /\
  (forall x, pts <> [] -> exists p, In p pts /\ crestSampler pts x = pt_y p) /\
  (forall x, pts <> [] -> x < 1 -> crestSampler pts x = pt_y (hd d pts)) /\
  (forall x, pts <> [] -> inject_Z (2 * Z.of_nat (length pts - 1)) <= x ->
     crestSampler pts x = pt_y (last pts d)).
Proof.
  unfold crestSampler, crestIndex. repeat split.
  - intros i Hi. rewrite js_round_half_even.
    replace (Z.to_nat (Z.max 0 (Z.min (Z.of_nat (length pts) - 1) (Z.of_nat i))))
      with i by lia.
    f_equal. apply nth_indep. exact Hi.
  - intros x Hne. eexists. split; [|reflexivity]. apply nth_In.
    assert (0 < length pts)%nat by (destruct pts; [congruence | cbn; lia]). lia.
  - intros x Hne Hx.
    assert (Hr : (js_round (x / 2) <= 0)%Z).
    { unfold js_round.
      assert (Hlt : x / 2 + 0.5 < 1) by (assert (x / 2 == x * 0.5) by field; lra).
      pose proof (Qfloor_le (x / 2 + 0.5)) as Hf.
      assert (inject_Z (Qfloor (x / 2 + 0.5)) < inject_Z 1)
        by (change (inject_Z 1) with 1; lra).
      rewrite <- Zlt_Qlt in H. lia. }
    replace (Z.to_nat _) with 0%nat by lia.
    destruct pts; [congruence | reflexivity].
  - intros x Hne Hx.
    assert (Hlen : (0 < length pts)%nat) by (destruct pts; [congruence | cbn; lia]).
    assert (Hr : (Z.of_nat (length pts - 1) <= js_round (x / 2))%Z).
    { rewrite <- (js_round_half_even (Z.of_nat (length pts - 1))).
      unfold js_round. apply Qfloor_resp_le.
      set (a := inject_Z (2 * Z.of_nat (length pts - 1))) in *.
      assert (a / 2 == a * 0.5) by field. assert (x / 2 == x * 0.5) by field. lra. }
    replace (Z.to_nat _) with (length pts - 1)%nat by lia.
    f_equal. apply nth_last_default. exact Hne.
Qed.

End Facts.
End WaveMore.

(** ** ShoalingCanvas: seabed, shoaling profile, phase, foam and ripples *)

Module ShoalingMore.
Import ShoalingCanvas.
Section Facts.
Context {M : JSMath}.

Lemma lift_range (pr : Pointer) (x : Q) : 0 <= lift pr x <= 2.2.
Proof.
  unfold lift. destruct (inside pr); [|lra].
  destruct (Qlt_bool (Qabs (x - ptr_x pr)) 90) eqn:E; [|lra].
  apply Qlt_bool_iff in E. pose proof (Qabs_nonneg (x - ptr_x pr)).
  set (dx := Qabs (x - ptr_x pr)) in *.
  assert (Ed : dx / 90 * 90 == dx) by (field; lra).
  set (q := dx / 90) in *. split; lra.
Qed.

(** *** The seabed *)

Lemma seabed_base_above_top (h : Q) : 15 <= h -> h * 0.46 <= h - Qmax 8 (h * 0.03) <= h - 8.
Proof.
  intro Hh. pose proof (Q.le_max_l 8 (h * 0.03)).
  assert (Qmax 8 (h * 0.03) <= h * 0.54) by (apply Q.max_lub; lra).
  split; lra.
Qed.

Lemma slope_parameter_closed (x w : Q) :
  w * 0.18 < x -> x <= w * 0.72 ->
  0 < w * 0.72 - w * 0.18 /\
  (x - w * 0.18) / (w * 0.72 - w * 0.18) * (w * 0.72 - w * 0.18) == x - w * 0.18 /\
  0 < (x - w * 0.18) / (w * 0.72 - w * 0.18) <= 1.
Proof.
  intros H1 H2.
  assert (Hd : 0 < w * 0.72 - w * 0.18) by lra.
  split; [exact Hd|].
  set (d := w * 0.72 - w * 0.18) in *.
  assert (E : (x - w * 0.18) / d * d == x - w * 0.18) by (field; lra).
  split; [exact E|].
  set (t := (x - w * 0.18) / d) in *.
  split.
  - destruct (Qlt_le_dec 0 t) as [Ht|Ht]; [exact Ht|]. exfalso.
    assert (0 <= (0 - t) * d) by (apply Qmult_le_0_compat; lra). lra.
  - destruct (Qlt_le_dec 1 t) as [Ht|Ht]; [|exact Ht]. exfalso.
    assert (0 < (t - 1) * d) by (apply Qmult_lt_0_compat; lra). unfold d in *. lra.
Qed.

Lemma seabedY_range (x w h : Q) :
  15 <= h -> h * 0.46 <= seabedY x w h <= h - Qmax 8 (h * 0.03).
Proof.
  intro Hh. pose proof (seabed_base_above_top h Hh) as [Hb _].
  unfold seabedY.
  destruct (Qle_bool x (w * 0.18)) eqn:E1; [lra|].
  destruct (Qle_bool x (w * 0.72)) eqn:E2; [|lra].
  apply Qle_bool_false_iff in E1. apply Qle_bool_iff in E2.
  destruct (slope_parameter_closed x w E1 E2) as (_ & _ & Ht0 & Ht1).
  set (t := (x - w * 0.18) / (w * 0.72 - w * 0.18)) in *.
  set (base := h - Qmax 8 (h * 0.03)) in *.
  assert (0 <= (base - h * 0.46) * t) by (apply Qmult_le_0_compat; lra).
  assert (0 <= (base - h * 0.46) * (1 - t)) by (apply Qmult_le_0_compat; lra).
  split; lra.
Qed.

(** X19: on a canvas at least 15 px high the seabed lies between the plateau at
    46% of the height and the base line, which is at least 8 px above the
    bottom edge; it is level at the base line up to 18% of the width, never
    rises again towards the shore side (its [y] never increases with [x]),
    and is level at the plateau from 72% of the width on. *)
Theorem seabed_profile (x1 x2 w h : Q) :
  0 <= w -> 15 <= h -> x1 <= x2 ->
  seabedY x2 w h <= seabedY x1 w h /\
  (h * 0.46 <= seabedY x1 w h /\ seabedY x1 w h <= h - 8) /\
  (x1 <= w * 0.18 -> seabedY x1 w h = h - Qmax 8 (h * 0.03)) /\
  (0 < w -> w * 0.72 <= x1 -> seabedY x1 w h == h * 0.46).
Proof.
  intros Hw Hh H12.
  pose proof (seabed_base_above_top h Hh) as [Hb Hb8].
  pose proof (seabedY_range x1 w h Hh) as [Hr1 Hr1'].
  pose proof (seabedY_range x2 w h Hh) as [Hr2 Hr2'].
  split; [|split; [split; lra|split]].
  - revert Hr1 Hr1' Hr2 Hr2'. unfold seabedY.
    destruct (Qle_bool x1 (w * 0.18)) eqn:A1.
    { intros. lra. }
    apply Qle_bool_false_iff in A1.
    assert (A2 : Qle_bool x2 (w * 0.18) = false) by (apply Qle_bool_false_iff; lra).
    rewrite A2.
    destruct (Qle_bool x1 (w * 0.72)) eqn:B1.
    + apply Qle_bool_iff in B1.
      destruct (Qle_bool x2 (w * 0.72)) eqn:B2; [|intros; lra].
      apply Qle_bool_iff in B2.
      destruct (slope_parameter_closed x1 w A1 B1) as (Hd & E1 & _).
      destruct (slope_parameter_closed x2 w ltac:(lra) B2) as (_ & E2 & _).
      set (d := w * 0.72 - w * 0.18) in *.
      set (t1 := (x1 - w * 0.18) / d) in *. set (t2 := (x2 - w * 0.18) / d) in *.
      set (base := h - Qmax 8 (h * 0.03)) in *.
      assert (Ht : t1 <= t2).
      { destruct (Qlt_le_dec t2 t1) as [Hlt|Hle]; [|exact Hle]. exfalso.
        assert (0 < (t1 - t2) * d) by (apply Qmult_lt_0_compat; lra). lra. }
      assert (0 <= (base - h * 0.46) * (t2 - t1)) by (apply Qmult_le_0_compat; lra).
      intros. lra.
    + apply Qle_bool_false_iff in B1.
      assert (B2 : Qle_bool x2 (w * 0.72) = false) by (apply Qle_bool_false_iff; lra).
      rewrite B2. intros. lra.
  - intro H. unfold seabedY. apply Qle_bool_iff in H. rewrite H. reflexivity.
  - intros Hw0 H. unfold seabedY.
    assert (A1 : Qle_bool x1 (w * 0.18) = false) by (apply Qle_bool_false_iff; lra).
    rewrite A1.
    destruct (Qle_bool x1 (w * 0.72)) eqn:B1; [|reflexivity].
    apply Qle_bool_iff in B1.
    assert (Ex : x1 == w * 0.72) by lra.
    assert (Et : (x1 - w * 0.18) / (w * 0.72 - w * 0.18) == 1).
    { rewrite Ex. field. lra. }
    rewrite Et. ring.
Qed.

(** *** Shoaling is monotone *)

Lemma smoothstep_mono (s t : Q) :
  0 <= s -> s <= t -> t <= 1 -> s * s * (3 - 2 * s) <= t * t * (3 - 2 * t).
Proof.
  intros H0 Hst H1.
  assert (Ha : 0 <= t * (3 - 2 * t - s)) by (apply Qmult_le_0_compat; lra).
  assert (Hb : 0 <= s * (3 - 2 * s - t)) by (apply Qmult_le_0_compat; lra).
  assert (Hc : 0 <= (t - s) * (t * (3 - 2 * t - s) + s * (3 - 2 * s - t)))
    by (apply Qmult_le_0_compat; lra).
  assert (E : t * t * (3 - 2 * t) - s * s * (3 - 2 * s)
              == (t - s) * (t * (3 - 2 * t - s) + s * (3 - 2 * s - t))) by ring.
  lra.
Qed.

Lemma shoalProgress_mono (x1 x2 w : Q) :
  0 <= w -> x1 <= x2 -> shoalProgress x1 w <= shoalProgress x2 w.
Proof.
  intros Hw H12.
  pose proof (ShoalingFacts.shoalProgress_range x1 w) as [P1 P1'].
  pose proof (ShoalingFacts.shoalProgress_range x2 w) as [P2 P2'].
  revert P1 P1' P2 P2'. unfold shoalProgress.
  destruct (Qle_bool x1 (w * 0.18)) eqn:A1; [intros; lra|].
  apply Qle_bool_false_iff in A1.
  assert (A2 : Qle_bool x2 (w * 0.18) = false) by (apply Qle_bool_false_iff; lra).
  rewrite A2.
  destruct (Qle_bool (w * 0.72) x1) eqn:B1.
  - apply Qle_bool_iff in B1.
    assert (B2 : Qle_bool (w * 0.72) x2 = true) by (apply Qle_bool_iff; lra).
    rewrite B2. intros. lra.
  - apply Qle_bool_false_iff in B1.
    destruct (Qle_bool (w * 0.72) x2) eqn:B2; [intros; lra|].
    apply Qle_bool_false_iff in B2. intros _ _ _ _.
    destruct (slope_parameter_closed x1 w A1 ltac:(lra)) as (Hd & E1 & T1 & T1').
    destruct (slope_parameter_closed x2 w ltac:(lra) ltac:(lra)) as (_ & E2 & T2 & T2').
    set (d := w * 0.72 - w * 0.18) in *.
    set (t1 := (x1 - w * 0.18) / d) in *. set (t2 := (x2 - w * 0.18) / d) in *.
    apply smoothstep_mono; try lra.
    destruct (Qlt_le_dec t2 t1) as [Hlt|Hle]; [|exact Hle]. exfalso.
    assert (0 < (t1 - t2) * d) by (apply Qmult_lt_0_compat; lra). lra.
Qed.

(** X20: towards the shore the shoaling progress never decreases, so the local
    amplitude never decreases and the local wavelength never increases. *)
Theorem shoaling_is_monotone (amp0 x1 x2 w : Q) :
  0 <= w -> 0 <= amp0 -> x1 <= x2 ->
  shoalProgress x1 w <= shoalProgress x2 w /\
  A amp0 x1 w <= A amp0 x2 w /\
  lambda x2 w <= lambda x1 w.
Proof.
  intros Hw Ha H12. pose proof (shoalProgress_mono x1 x2 w Hw H12) as Hp.
  split; [exact Hp|]. unfold A, lambda.
  set (p1 := shoalProgress x1 w) in *. set (p2 := shoalProgress x2 w) in *.
  assert (0 <= amp0 * (p2 - p1)) by (apply Qmult_le_0_compat; lra).
  split; lra.
Qed.

(** *** The phase advances *)

Lemma phaseIntegral_steps (w : Z) (theta : Q) (xs : list Z) :
  0 < PI ->
  steps_between (2 * PI / 260 * 2) (2 * PI / 70 * 2) theta (phaseIntegral w theta xs).
Proof.
  intro Hpi. revert theta. induction xs as [|x xs IH]; intro theta;
    cbn [phaseIntegral steps_between]; [exact I|].
  split; [|apply IH].
  pose proof (ShoalingFacts.lambda_range (inject_Z x) (inject_Z w)) as [L0 L1].
  set (lam := lambda (inject_Z x) (inject_Z w)) in *.
  assert (Ek : 2 * PI / lam * lam == 2 * PI) by (field; lra).
  assert (Elo : 2 * PI / 260 * 260 == 2 * PI) by (field; lra).
  assert (Ehi : 2 * PI / 70 * 70 == 2 * PI) by (field; lra).
  set (k := 2 * PI / lam) in *.
  set (klo := 2 * PI / 260) in *. set (khi := 2 * PI / 70) in *.
  assert (Hk : 0 < k).
  { destruct (Qlt_le_dec 0 k) as [H|H]; [exact H|]. exfalso.
    assert (0 <= (0 - k) * lam) by (apply Qmult_le_0_compat; lra). lra. }
  assert (0 <= k * (260 - lam)) by (apply Qmult_le_0_compat; lra).
  assert (0 <= k * (lam - 70)) by (apply Qmult_le_0_compat; lra).
  split; lra.
Qed.

(** X21: along the water line of a frame the phase starts from [-2.2 t] and
    grows from each sample to the next, by at least [4 PI / 260] and at most
    [4 PI / 70]. *)
Theorem phase_advances_along_the_line (w h : Z) (s : State) :
  0 < PI -> mounted s = true ->
  steps_between (2 * PI / 260 * 2) (2 * PI / 70 * 2)
    (-(2.2) * (time s + 0.016 * (0.9 + speed s * 0.4)))
    (map smp_theta (snd (draw w h s))).
Proof.
  intros Hpi Hm.
  destruct (ShoalingFacts.shoal_draw_mounted w h s Hm) as (_ & _ & _ & _ & E).
  rewrite E, ShoalingFacts.surface_thetas. apply phaseIntegral_steps, Hpi.
Qed.

(** *** Foam *)

Lemma shoal_stepParticle_Some pr w h p p' :
  stepParticle pr w h p = Some p' ->
  life p' = life p + 1 /\ maxLife p' = maxLife p /\ size p' = size p /\
  p_x p' = p_x p + vx p /\ p_y p' = p_y p + vy p /\
  alpha p' = 0.9 * (1 - (life p + 1) / maxLife p) /\
  life p' < maxLife p'.
Proof.
  unfold stepParticle.
  destruct (if inside pr then _ else _) as [vx2 vy2].
  destruct (Qle_bool (maxLife p) (life p + 1)) eqn:E; cbn [orb]; [discriminate|].
  destruct (_ || _); [discriminate|].
  intro H. injection H as <-. cbn. apply Qle_bool_false_iff in E.
  repeat split; try reflexivity. exact E.
Qed.

(** A particle that survives a frame is one frame older, has moved by its
    velocity and keeps its [maxLife] and size; if its [maxLife] is positive
    and its age was not negative, its opacity lies strictly between 0 and
    0.9, so the clamp to [0, 1] in the fill style changes nothing. *)
Lemma shoal_survivor_fades (pr : Pointer) (w h : Z) (p p' : Particle) :
  stepParticle pr w h p = Some p' ->
  0 <= life p -> 0 < maxLife p ->
  life p' = life p + 1 /\ maxLife p' = maxLife p /\ size p' = size p /\
  p_x p' = p_x p + vx p /\ p_y p' = p_y p + vy p /\
  0 < alpha p' /\ alpha p' < 0.9 /\
  Qmax 0 (Qmin 1 (alpha p')) = alpha p'.
Proof.
  intros Hs Hl Hm.
  destruct (shoal_stepParticle_Some pr w h p p' Hs) as (El & Em & Es & Ex & Ey & Ea & Hlt).
  rewrite El, Em in Hlt.
  repeat (split; [assumption|]).
  assert (Hr : (life p + 1) / maxLife p * maxLife p == life p + 1) by (field; lra).
  set (r := (life p + 1) / maxLife p) in *.
  assert (Hr0 : 0 < r).
  { destruct (Qlt_le_dec 0 r) as [H|H]; [exact H|]. exfalso.
    assert (0 <= (0 - r) * maxLife p) by (apply Qmult_le_0_compat; lra). lra. }
  assert (Hr1 : r < 1).
  { destruct (Qlt_le_dec r 1) as [H|H]; [exact H|]. exfalso.
    assert (0 <= (r - 1) * maxLife p) by (apply Qmult_le_0_compat; lra). lra. }
  assert (H0 : 0 < alpha p') by (rewrite Ea; lra).
  assert (H1 : alpha p' < 0.9) by (rewrite Ea; lra).
  split; [exact H0|]. split; [exact H1|].
  assert (E1 : Qmin 1 (alpha p') = alpha p').
  { unfold Qmin, GenericMinMax.gmin.
    destruct (1 ?= alpha p') eqn:C; try reflexivity.
    - apply Qeq_alt in C. lra.
    - rewrite <- Qlt_alt in C. lra. }
  rewrite E1. unfold Qmax, GenericMinMax.gmax.
  destruct (0 ?= alpha p') eqn:C; try reflexivity.
  - apply Qeq_alt in C. lra.
  - rewrite <- Qgt_alt in C. lra.
Qed.

Lemma shoal_updateLoops_aging frames ps (k : Q) :
  Forall (fun p => k <= life p) ps ->
  Forall (fun p => k + inject_Z (Z.of_nat (length frames)) <= life p
                   /\ (frames <> [] -> life p < maxLife p)
                   /\ exists p0, In p0 ps /\ maxLife p = maxLife p0)
         (updateLoops frames ps).
Proof.
  unfold updateLoops. revert ps k.
  induction frames as [|[[pr w] h] frames IH]; intros ps k Hps; cbn [fold_left length].
  - rewrite Forall_forall in *. intros p Hp. split.
    + change (inject_Z (Z.of_nat 0)) with 0. specialize (Hps p Hp). lra.
    + split; [congruence|]. exists p. split; [exact Hp | reflexivity].
  - cbn [fst snd].
    assert (Hstep : Forall (fun p => k + 1 <= life p) (updateLoop pr w h ps)).
    { rewrite Forall_forall in *. intros p' Hp'.
      apply ShoalingFacts.shoal_updateLoop_In in Hp'. destruct Hp' as (p & Hin & Hs).
      destruct (shoal_stepParticle_Some pr w h p p' Hs) as (El & _).
      rewrite El. specialize (Hps p Hin). lra. }
    specialize (IH (updateLoop pr w h ps) (k + 1) Hstep).
    rewrite Forall_forall in *. intros q Hq.
    destruct (IH q Hq) as (H1 & H2 & p1 & Hin1 & Hm1).
    rewrite Nat2Z.inj_succ, <- Z.add_1_r, inject_Z_plus.
    change (inject_Z 1) with 1. split; [lra|]. split.
    + intros _. destruct frames as [|f frames'].
      * cbn [fold_left] in Hq.
        apply ShoalingFacts.shoal_updateLoop_In in Hq. destruct Hq as (p & Hin & Hs).
        apply (shoal_stepParticle_Some pr w h p q Hs).
      * apply H2. discriminate.
    + apply ShoalingFacts.shoal_updateLoop_In in Hin1. destruct Hin1 as (p & Hin & Hs).
      destruct (shoal_stepParticle_Some pr w h p p1 Hs) as (_ & Em & _).
      exists p. split; [exact Hin | congruence].
Qed.

(** Foam is self-terminating: live particles (age at least 0 and below
    [maxLife]) whose [maxLife] is at most [n] are all gone after [n] update
    loops, whatever the pointer and the canvas size at each of them. *)
Lemma shoal_foam_dies_of_age (frames : list (Pointer * Z * Z)) (ps : list Particle) :
  Forall (fun p => 0 <= life p /\ life p < maxLife p /\
                   maxLife p <= inject_Z (Z.of_nat (length frames))) ps ->
  updateLoops frames ps = [].
Proof.
  intro H.
  assert (H0 : Forall (fun p => 0 <= life p) ps).
  { eapply Forall_impl; [|exact H]. intros p [Hp _]. exact Hp. }
  pose proof (shoal_updateLoops_aging frames ps 0 H0) as Ha.
  destruct (updateLoops frames ps) as [|q qs] eqn:E; [reflexivity|]. exfalso.
  apply Forall_inv in Ha. destruct Ha as (H1 & H2 & p0 & Hin & Hm).
  rewrite Forall_forall in H. destruct (H p0 Hin) as (Hl0 & Hl1 & Hmax).
  assert (Hne : frames <> []).
  { intro Hnil. subst frames. change (inject_Z (Z.of_nat (length (@nil (Pointer * Z * Z))))) with 0 in Hmax. lra. }
  specialize (H2 Hne). rewrite Hm in H2. lra.
Qed.

(** Although its spawn loop has no capacity test, the foam is bounded by its
    lifetime: at most three particles are spawned per frame and none lives
    130 frames. *)
Lemma shoal_spawn_app n sp w crest ps k :
  (forall j, random j < 1) ->
  exists news, fst (spawn n sp w crest ps k) = ps ++ news /\ length news = n /\
    Forall (fun p => life p = 0 /\ maxLife p < 130) news.
Proof.
  intro Hr. revert ps k. induction n as [|n IH]; intros ps k; cbn [spawn].
  - exists []. rewrite app_nil_r. repeat split. constructor.
  - destruct (IH (ps ++ [newParticle sp w crest k]) (k + 6)%nat) as (news & E & Hl & Hf).
    exists (newParticle sp w crest k :: news). rewrite E, <- app_assoc.
    split; [reflexivity|]. split; [cbn; lia|].
    constructor; [|exact Hf]. cbn. split; [reflexivity|].
    specialize (Hr (k + 4)%nat). lra.
Qed.

Lemma shoal_updateLoop_length pr w h ps :
  (length (updateLoop pr w h ps) <= length ps)%nat.
Proof.
  induction ps as [|p ps IH]; cbn [updateLoop].
  - lia.
  - destruct (stepParticle pr w h p); cbn; lia.
Qed.

Lemma inject_nat_le (a b : nat) :
  (a <= b)%nat -> inject_Z (Z.of_nat a) <= inject_Z (Z.of_nat b).
Proof. intro H. rewrite <- Zle_Qle. lia. Qed.

Lemma aged0_news news :
  (length news <= 3)%nat -> Forall (fun p => life p = 0 /\ maxLife p < 130) news ->
  aged0 news.
Proof.
  induction news as [|p rest IH]; intros Hl Hf; cbn [aged0]; [exact I|].
  cbn [length] in Hl. split.
  - rewrite Nat.div_small by lia. apply Forall_inv in Hf. destruct Hf as [E _].
    rewrite E. change (inject_Z (Z.of_nat 0)) with 0. lra.
  - apply IH; [lia | eapply Forall_inv_tail, Hf].
Qed.

Lemma aged_spawn ps news :
  aged ps -> (length news <= 3)%nat ->
  Forall (fun p => life p = 0 /\ maxLife p < 130) news ->
  aged0 (ps ++ news).
Proof.
  intros Ha Hl Hf. induction ps as [|p rest IH]; cbn [app].
  - apply aged0_news; assumption.
  - destruct Ha as [Hp Hrest]. cbn [aged0]. split; [|apply IH, Hrest].
    assert (Hd : (length (rest ++ news) / 3 <= length rest / 3 + 1)%nat).
    { rewrite length_app.
      transitivity ((length rest + 1 * 3) / 3)%nat.
      - apply Nat.Div0.div_le_mono. lia.
      - rewrite Nat.div_add by lia. lia. }
    apply inject_nat_le in Hd. rewrite Nat2Z.inj_add, inject_Z_plus in Hd.
    change (inject_Z (Z.of_nat 1)) with 1 in Hd. lra.
Qed.

Lemma aged_update pr w h ps : aged0 ps -> aged (updateLoop pr w h ps).
Proof.
  induction ps as [|p rest IH]; intro Ha; cbn [updateLoop]; [exact I|].
  destruct Ha as [Hp Hrest]. specialize (IH Hrest).
  destruct (stepParticle pr w h p) as [p'|] eqn:E; [|exact IH].
  cbn [aged]. split; [|exact IH].
  destruct (shoal_stepParticle_Some pr w h p p' E) as (El & _). rewrite El.
  pose proof (shoal_updateLoop_length pr w h rest) as Hlen.
  assert (Hd : (length (updateLoop pr w h rest) / 3 <= length rest / 3)%nat)
    by (apply Nat.Div0.div_le_mono; exact Hlen).
  apply inject_nat_le in Hd. lra.
Qed.

Lemma aged_bound ps :
  aged ps -> Forall (fun p => life p < maxLife p /\ maxLife p < 130) ps ->
  (length ps <= 387)%nat.
Proof.
  destruct ps as [|p rest]; intros Ha Hf; cbn [length]; [lia|].
  destruct Ha as [Hp _]. apply Forall_inv in Hf. destruct Hf as [H1 H2].
  assert (Hq : inject_Z (Z.of_nat (length rest / 3)) < inject_Z 129).
  { change (inject_Z 129) with 129. lra. }
  rewrite <- Zlt_Qlt in Hq.
  pose proof (Nat.div_mod_eq (length rest) 3).
  pose proof (Nat.mod_upper_bound (length rest) 3). lia.
Qed.

Lemma shoal_draw_foam w h s :
  (forall j, random j < 1) ->
  aged (particles s) /\
  Forall (fun p => life p < maxLife p /\ maxLife p < 130) (particles s) ->
  aged (particles (fst (draw w h s))) /\
  Forall (fun p => life p < maxLife p /\ maxLife p < 130)
         (particles (fst (draw w h s))).
Proof.
  intros Hr [Ha Hf]. unfold draw. destruct (mounted s); cbn [negb]; [|split; assumption].
  destruct (surface _ _ _ _ _ _ _) as [smps ripples1].
  unfold updateParticles. cbn [particles speed rng pointer].
  match goal with |- context [spawn ?n ?a ?b ?c ?d ?e] =>
    destruct (shoal_spawn_app n a b c d e Hr) as (news & E & Hl & Hn);
    assert (Hn3 : (n <= 3)%nat) by (destruct (_ <? _)%Z; lia);
    destruct (spawn n a b c d e) as [ps k] end.
  cbn [fst particles] in *. subst ps. split.
  - apply aged_update, aged_spawn; [exact Ha | lia | exact Hn].
  - rewrite Forall_forall in *. intros p' Hp'.
    apply ShoalingFacts.shoal_updateLoop_In in Hp'. destruct Hp' as (p & Hin & Hs).
    destruct (shoal_stepParticle_Some _ w h p p' Hs) as (_ & Em & _ & _ & _ & _ & Hlt).
    split; [exact Hlt|]. rewrite Em. apply in_app_or in Hin. destruct Hin as [Hin|Hin].
    + apply (Hf p Hin).
    + apply (Hn p Hin).
Qed.

Lemma shoal_run_foam es s :
  (forall j, random j < 1) ->
  aged (particles s) /\
  Forall (fun p => life p < maxLife p /\ maxLife p < 130) (particles s) ->
  aged (particles (run es s)) /\
  Forall (fun p => life p < maxLife p /\ maxLife p < 130) (particles (run es s)).
Proof.
  intro Hr. unfold run. revert s. induction es as [|e es IH]; intros s Hs;
    cbn [fold_left]; [exact Hs|].
  apply IH. destruct e; cbn [handle]; try exact Hs.
  apply shoal_draw_foam; assumption.
Qed.

(** *** Ripples *)

Lemma shoal_decayAll_bound rs (b : Q) :
  Forall (fun r => ripple_ok r /\ strength r <= b) rs ->
  Forall (fun r => ripple_ok r /\ strength r <= b * 0.985) (decayAll rs).
Proof.
  induction 1 as [|r rs Hr Hrs IH]; cbn [decayAll].
  - constructor.
  - destruct (Qlt_bool _ _) eqn:E; [exact IH|].
    constructor; [|exact IH].
    apply Qlt_bool_false_iff in E. cbn in E.
    destruct Hr as ((Hrad & Hdec & Hlo & Hhi) & Hb).
    unfold ripple_ok. cbn. rewrite Hdec in *.
    repeat split; try assumption; lra.
Qed.

Lemma shoal_iter_decay_bound n rs :
  Forall ripple_ok rs ->
  Forall (fun r => ripple_ok r /\ strength r <= decayed 10 0.985 n)
         (Nat.iter n decayAll rs).
Proof.
  intro H. induction n as [|n IH].
  - cbn. eapply Forall_impl; [|exact H]. intros r Hr. split; [exact Hr | apply Hr].
  - rewrite Nat.iter_succ. cbn [decayed]. apply shoal_decayAll_bound, IH.
Qed.

Lemma shoal_decayAll_iter_nil n : Nat.iter n decayAll (@nil Ripple) = [].
Proof. induction n as [|n IH]; [reflexivity|]. rewrite Nat.iter_succ, IH. reflexivity. Qed.

Lemma shoal_iter_decay_empty n rs :
  Forall ripple_ok rs -> (245 <= n)%nat -> Nat.iter n decayAll rs = [].
Proof.
  intros H Hn.
  assert (E245 : Nat.iter 245 decayAll rs = []).
  { pose proof (shoal_iter_decay_bound 245 rs H) as Hb.
    destruct (Nat.iter 245 decayAll rs) as [|r rest]; [reflexivity|]. exfalso.
    apply Forall_inv in Hb. destruct Hb as ((_ & _ & Hlo & _) & Hhi).
    assert (Hc : decayed 10 0.985 245 < 0.25) by (vm_compute; reflexivity).
    lra. }
  replace n with ((n - 245) + 245)%nat by lia.
  rewrite Nat.iter_add, E245. apply shoal_decayAll_iter_nil.
Qed.

Lemma shoal_draw_clears_ripples w h s :
  (488 <= w)%Z -> mounted s = true -> Forall ripple_ok (ripples s) ->
  ripples (fst (draw w h s)) = [].
Proof.
  intros Hw Hm Hs. rewrite (ShoalingFacts.shoal_draw_ripples w h s Hm).
  apply shoal_iter_decay_empty; [exact Hs|].
  assert (244 <= w / 2)%Z by (apply Z.div_le_lower_bound; lia). lia.
Qed.

(** *** Amplitude *)



Lemma shoal_drag_telescopes s ys :
  unclamped s ys ->
  amp (touchDrag ys s) == amp s + (lastY s - last ys (lastY s)) * 0.22 /\
  lastY (touchDrag ys s) = last ys (lastY s).
Proof.
  unfold touchDrag. revert s. induction ys as [|y rest IH]; intros s H.
  - cbn. split; [ring | reflexivity].
  - cbn [fold_left]. destruct H as [Hr Hrest].
    destruct (IH (onTouchMove y s) Hrest) as [IHa IHl].
    pose proof (last_cons_default rest y (lastY s)) as El.
    rewrite El. cbn [lastY onTouchMove] in IHa, IHl. split; [|exact IHl].
    rewrite IHa. cbn [amp onTouchMove].
    rewrite Q.min_r by lra. rewrite Q.max_r by lra. ring.
Qed.

(** *** The crest sampler *)

Lemma shoal_crestSampler_spec (pts : list Point) (d : Point) :
  (forall i, (i < length pts)%nat ->
     crestSampler pts (inject_Z (2 * Z.of_nat i)) = pt_y (nth i pts d)) /\
  (forall x, pts <> [] -> exists p, In p pts /\ crestSampler pts x = pt_y p) /\
  (forall x, pts <> [] -> x < 1 -> crestSampler pts x = pt_y (hd d pts)) /\
  (forall x, pts <> [] -> inject_Z (2 * Z.of_nat (length pts - 1)) <= x ->
     crestSampler pts x = pt_y (last pts d)).
Proof.
  unfold crestSampler, crestIndex. repeat split.
  - intros i Hi. rewrite WaveMore.js_round_half_even.
    replace (Z.to_nat (Z.max 0 (Z.min (Z.of_nat (length pts) - 1) (Z.of_nat i))))
      with i by lia.
    f_equal. apply nth_indep. exact Hi.
  - intros x Hne. eexists. split; [|reflexivity]. apply nth_In.
    assert (0 < length pts)%nat by (destruct pts; [congruence | cbn; lia]). lia.
  - intros x Hne Hx.
    assert (Hr : (js_round (x / 2) <= 0)%Z).
    { unfold js_round.
      assert (Hlt : x / 2 + 0.5 < 1) by (assert (x / 2 == x * 0.5) by field; lra).
      pose proof (Qfloor_le (x / 2 + 0.5)) as Hf.
      assert (inject_Z (Qfloor (x / 2 + 0.5)) < inject_Z 1)
        by (change (inject_Z 1) with 1; lra).
      rewrite <- Zlt_Qlt in H. lia. }
    replace (Z.to_nat _) with 0%nat by lia.
    destruct pts; [congruence | reflexivity].
  - intros x Hne Hx.
    assert (Hlen : (0 < length pts)%nat) by (destruct pts; [congruence | cbn; lia]).
    assert (Hr : (Z.of_nat (length pts - 1) <= js_round (x / 2))%Z).
    { rewrite <- (WaveMore.js_round_half_even (Z.of_nat (length pts - 1))).
      unfold js_round. apply Qfloor_resp_le.
      set (a := inject_Z (2 * Z.of_nat (length pts - 1))) in *.
      assert (a / 2 == a * 0.5) by field. assert (x / 2 == x * 0.5) by field. lra. }
    replace (Z.to_nat _) with (length pts - 1)%nat by lia.
    f_equal. apply nth_last_default. exact Hne.
Qed.

End Facts.
End ShoalingMore.

(** ** Both wave canvases *)

Lemma exampleMath_random_lt_1 (j : nat) : @random exampleMath j < 1.
Proof.
  cbn [random exampleMath]. apply Qlt_shift_div_r; [reflexivity|].
  rewrite Qmult_1_l. change 100 with (inject_Z 100). rewrite <- Zlt_Qlt.
  apply Z.mod_pos_bound. lia.
Qed.

(** X8: the lift near the pointer is a bounded bump: it is never negative
    and never more than 2.5 px (WaveCanvas) or 2.2 px (ShoalingCanvas), it
    is that much exactly at the pointer, and it is zero when the pointer is
    outside the canvas or more than 90 px away. *)
Theorem pointer_lift_is_a_bounded_bump (pr : Pointer) (x : Q) :
  (0 <= WaveCanvas.pointerHint pr x <= 2.5 /\ 0 <= ShoalingCanvas.lift pr x <= 2.2) /\
  (inside pr = true ->
   WaveCanvas.pointerHint pr (ptr_x pr) == 2.5 /\
   ShoalingCanvas.lift pr (ptr_x pr) == 2.2) /\
  (inside pr = false \/ 90 < Qabs (x - ptr_x pr) ->
   WaveCanvas.pointerHint pr x = 0 /\ ShoalingCanvas.lift pr x = 0).
Proof.
  split; [split; [apply WaveMore.pointerHint_range | apply ShoalingMore.lift_range]|].
  split.
  - intro Hin. unfold WaveCanvas.pointerHint, ShoalingCanvas.lift. rewrite Hin.
    cbn [negb].
    assert (E : Qabs (ptr_x pr - ptr_x pr) == 0).
    { rewrite Qabs_pos; [ring|]. lra. }
    assert (E1 : Qlt_bool 90 (Qabs (ptr_x pr - ptr_x pr)) = false)
      by (apply Qlt_bool_false_iff; lra).
    assert (E2 : Qlt_bool (Qabs (ptr_x pr - ptr_x pr)) 90 = true)
      by (apply Qlt_bool_iff; lra).
    rewrite E1, E2, E. split; reflexivity.
  - intros [Hout|Hfar]; unfold WaveCanvas.pointerHint, ShoalingCanvas.lift.
    + rewrite Hout. split; reflexivity.
    + destruct (inside pr); cbn [negb]; [|split; reflexivity].
      assert (E1 : Qlt_bool 90 (Qabs (x - ptr_x pr)) = true)
        by (apply Qlt_bool_iff; exact Hfar).
      assert (E2 : Qlt_bool (Qabs (x - ptr_x pr)) 90 = false)
        by (apply Qlt_bool_false_iff; lra).
      rewrite E1, E2. split; reflexivity.
Qed.

Lemma pointer_lift_is_a_bounded_bump_witness :
  WaveCanvas.pointerHint (mkPointer 100 50 true) 100 == 2.5 /\
  ShoalingCanvas.lift (mkPointer 100 50 true) 100 == 2.2.
Proof.
  apply (proj1 (proj2 (pointer_lift_is_a_bounded_bump (mkPointer 100 50 true) 100))).
  reflexivity.
Defined.

(** X9: the crest sampler reads the sampled line back: at the [x] of the
    [i]-th point (twice [i]) it returns the [y] of that point; for any [x]
    it returns the [y] of one of the points; left of the canvas it returns
    the first point and from the last point on the last one. *)
Theorem crest_sampler_reads_the_line (pts : list Point) (d : Point) :
  ((forall i, (i < length pts)%nat ->
      WaveCanvas.crestSampler pts (inject_Z (2 * Z.of_nat i)) = pt_y (nth i pts d)) /\
   (forall x, pts <> [] -> exists p, In p pts /\ WaveCanvas.crestSampler pts x = pt_y p) /\
   (forall x, pts <> [] -> x < 1 -> WaveCanvas.crestSampler pts x = pt_y (hd d pts)) /\
   (forall x, pts <> [] -> inject_Z (2 * Z.of_nat (length pts - 1)) <= x ->
      WaveCanvas.crestSampler pts x = pt_y (last pts d))) /\
  ((forall i, (i < length pts)%nat ->
      ShoalingCanvas.crestSampler pts (inject_Z (2 * Z.of_nat i)) = pt_y (nth i pts d)) /\
   (forall x, pts <> [] -> exists p, In p pts /\ ShoalingCanvas.crestSampler pts x = pt_y p) /\
   (forall x, pts <> [] -> x < 1 -> ShoalingCanvas.crestSampler pts x = pt_y (hd d pts)) /\
   (forall x, pts <> [] -> inject_Z (2 * Z.of_nat (length pts - 1)) <= x ->
      ShoalingCanvas.crestSampler pts x = pt_y (last pts d))).
Proof.
  split; [apply WaveMore.wave_crestSampler_spec | apply ShoalingMore.shoal_crestSampler_spec].
Qed.

Lemma crest_sampler_reads_the_line_witness :
  WaveCanvas.crestSampler [mkPoint 0 7; mkPoint 2 9; mkPoint 4 8] (inject_Z (2 * Z.of_nat 1))
  = pt_y (nth 1 [mkPoint 0 7; mkPoint 2 9; mkPoint 4 8] (mkPoint 0 0)).
Proof.
  apply (proj1 (proj1 (crest_sampler_reads_the_line
                         [mkPoint 0 7; mkPoint 2 9; mkPoint 4 8] (mkPoint 0 0)))).
  cbn. lia.
Defined.

(** X10: every line a frame of a mounted canvas computes has exactly one
    point at each even [x] from 0 to the client width, in increasing order:
    the five lines of WaveCanvas and the water line of ShoalingCanvas. *)
Theorem lines_are_sampled_at_even_x
    (M : JSMath) (w h : Z) (now : Q)
    (ws : WaveCanvas.State) (ss : ShoalingCanvas.State) :
  WaveCanvas.mounted ws = true -> ShoalingCanvas.mounted ss = true ->
  length (snd (WaveCanvas.draw w h now ws)) = 5%nat /\
  Forall (fun line => map pt_x line = map inject_Z (sample_xs 2 w))
         (snd (WaveCanvas.draw w h now ws)) /\
  map (fun smp => pt_x (ShoalingCanvas.smp_pt smp)) (snd (ShoalingCanvas.draw w h ss))
  = map inject_Z (sample_xs 2 w) /\
  (forall x, In x (sample_xs 2 w) <-> (0 <= x <= w)%Z /\ (x mod 2 = 0)%Z).
Proof.
  intros Hw Hs.
  assert (Hlen : length (snd (WaveCanvas.draw w h now ws)) = 5%nat).
  { rewrite <- (length_map (@length Point)), (WaveFacts.draw_lines w h now ws Hw).
    reflexivity. }
  split; [exact Hlen|]. split.
  - clear Hlen. unfold WaveCanvas.draw. rewrite Hw. cbn [negb].
    match goal with |- context [WaveCanvas.drawLayers ?a ?b ?c ?d ?e ?f] =>
      pose proof (WaveMore.drawLayers_xs a b c d e f) as HL;
      destruct (WaveCanvas.drawLayers a b c d e f) as [ptss ripples1] end.
    destruct (WaveCanvas.updateAndDrawParticles _ _ _ _) as [ps k].
    exact HL.
  - split.
    + destruct (ShoalingFacts.shoal_draw_mounted w h ss Hs) as (_ & _ & _ & _ & E).
      rewrite E. apply ShoalingFacts.surface_xs.
    + intro x. apply sample_xs_spec. lia.
Qed.

Lemma lines_are_sampled_at_even_x_witness :
  length (snd (@WaveCanvas.draw exampleMath 8 8 0 (WaveCanvas.init 40 1 280))) = 5%nat.
Proof.
  apply (lines_are_sampled_at_even_x exampleMath 8 8 0
           (WaveCanvas.init 40 1 280) (ShoalingCanvas.init 40 1)); reflexivity.
Defined.

(** X12: although its spawn loop has no capacity test, ShoalingCanvas never
    holds more than 387 foam particles, whatever happens to it: a frame
    spawns at most three, and with [Math.random() < 1] none lives 130
    frames. *)
Theorem shoaling_foam_bounded_by_lifetime
    (M : JSMath) (es : list ShoalingCanvas.Event) (amplitude speed : Q) :
  (forall j, random j < 1) ->
  (length (ShoalingCanvas.particles
             (ShoalingCanvas.run es (ShoalingCanvas.init amplitude speed))) <= 387)%nat.
Proof.
  intro Hr.
  destruct (ShoalingMore.shoal_run_foam es (ShoalingCanvas.init amplitude speed) Hr)
    as [Ha Hf].
  - split; [exact I | constructor].
  - apply ShoalingMore.aged_bound; assumption.
Qed.

Lemma shoaling_foam_bounded_by_lifetime_witness :
  (length (ShoalingCanvas.particles
             (@ShoalingCanvas.run exampleMath
                [ShoalingCanvas.Frame 8 8; ShoalingCanvas.Click 3]
                (ShoalingCanvas.init 40 1))) <= 387)%nat.
Proof.
  apply (shoaling_foam_bounded_by_lifetime exampleMath). exact exampleMath_random_lt_1.
Defined.

(** X13: a particle that survives a frame is one frame older, has moved by
    its velocity and keeps its [maxLife] and size; if its [maxLife] is
    positive and its age was not negative its opacity lies strictly between
    0 and 0.8 (0.9 in ShoalingCanvas), so the clamp to [0, 1] in the fill
    style changes nothing. *)
Theorem foam_survivor_fades
    (M : JSMath) (pr : Pointer) (w h : Z) (p pw ps : Particle) :
  0 <= life p -> 0 < maxLife p ->
  (WaveCanvas.stepParticle pr w h p = Some pw ->
   life pw = life p + 1 /\ maxLife pw = maxLife p /\ size pw = size p /\
   p_x pw = p_x p + vx p /\ p_y pw = p_y p + vy p /\
   0 < alpha pw /\ alpha pw < 0.8 /\ Qmax 0 (Qmin 1 (alpha pw)) = alpha pw) /\
  (ShoalingCanvas.stepParticle pr w h p = Some ps ->
   life ps = life p + 1 /\ maxLife ps = maxLife p /\ size ps = size p /\
   p_x ps = p_x p + vx p /\ p_y ps = p_y p + vy p /\
   0 < alpha ps /\ alpha ps < 0.9 /\ Qmax 0 (Qmin 1 (alpha ps)) = alpha ps).
Proof.
  intros Hl Hm. split; intro H.
  - apply (WaveMore.wave_survivor_fades pr w h p pw H Hl Hm).
  - apply (ShoalingMore.shoal_survivor_fades pr w h p ps H Hl Hm).
Qed.

Lemma foam_survivor_fades_witness :
  exists pw,
    @WaveCanvas.stepParticle exampleMath (mkPointer 0 0 false) 800 360
      (mkParticle 100 180 1 0 0 60 2 0.8) = Some pw /\ 0 < alpha pw.
Proof.
  destruct (@WaveCanvas.stepParticle exampleMath (mkPointer 0 0 false) 800 360
              (mkParticle 100 180 1 0 0 60 2 0.8)) as [pw|] eqn:E.
  - exists pw. split; [reflexivity|].
    assert (H0 : 0 <= life (mkParticle 100 180 1 0 0 60 2 0.8)) by (cbn; lra).
    assert (H1 : 0 < maxLife (mkParticle 100 180 1 0 0 60 2 0.8)) by (cbn; lra).
    apply (proj1 (foam_survivor_fades exampleMath (mkPointer 0 0 false) 800 360
                    (mkParticle 100 180 1 0 0 60 2 0.8) pw pw H0 H1) E).
  - vm_compute in E. discriminate E.
Defined.

(** X14: foam is self-terminating: live particles (age at least 0 and below
    [maxLife]) whose [maxLife] is at most [n] are all gone after [n] update
    loops, whatever the pointer and the canvas size at each of them. *)
Theorem foam_dies_of_age
    (M : JSMath) (frames : list (Pointer * Z * Z)) (ps : list Particle) :
  Forall (fun p => 0 <= life p /\ life p < maxLife p /\
                   maxLife p <= inject_Z (Z.of_nat (length frames))) ps ->
  WaveCanvas.updateLoops frames ps = [] /\ ShoalingCanvas.updateLoops frames ps = [].
Proof.
  intro H. split.
  - apply WaveMore.wave_foam_dies_of_age, H.
  - apply ShoalingMore.shoal_foam_dies_of_age, H.
Qed.

Lemma foam_dies_of_age_witness :
  @WaveCanvas.updateLoops exampleMath
    [(mkPointer 0 0 false, 800%Z, 360%Z); (mkPointer 0 0 false, 800%Z, 360%Z)]
    [mkParticle 100 180 1 0 0 2 2 0.8] = [].
Proof.
  apply (foam_dies_of_age exampleMath).
  constructor; [|constructor]. cbn [life maxLife length].
  change (inject_Z (Z.of_nat 2)) with 2. repeat split; lra.
Defined.

(** X15: every ripple a canvas ever holds has radius 120 and decay 0.985,
    and its strength lies between the pruning threshold and the strength it
    was injected with: [0.3, 18] in WaveCanvas, [0.25, 10] in
    ShoalingCanvas. *)
Theorem ripples_stay_in_range
    (M : JSMath) (wes : list WaveCanvas.Event) (ses : list ShoalingCanvas.Event)
    (amplitude speed wavelength : Q) :
  Forall WaveCanvas.ripple_ok
    (WaveCanvas.ripples (WaveCanvas.run wes (WaveCanvas.init amplitude speed wavelength))) /\
  Forall ShoalingCanvas.ripple_ok
    (ShoalingCanvas.ripples (ShoalingCanvas.run ses (ShoalingCanvas.init amplitude speed))).
Proof.
  split.
  - apply WaveMore.wave_run_ripples_ok. constructor.
  - apply ShoalingFacts.run_ripples_ok. constructor.
Qed.

(** X16: on a canvas wide enough a frame leaves no ripple behind, however
    many were injected before it: from 108 px on in WaveCanvas (271 decays
    in one frame) and from 488 px on in ShoalingCanvas (245 decays). *)
Theorem ripples_vanish_within_a_frame
    (M : JSMath) (wes : list WaveCanvas.Event) (ses : list ShoalingCanvas.Event)
    (amplitude speed wavelength now : Q) (ww sw h : Z) :
  let ws := WaveCanvas.run wes (WaveCanvas.init amplitude speed wavelength) in
  let ss := ShoalingCanvas.run ses (ShoalingCanvas.init amplitude speed) in
  (108 <= ww)%Z -> (488 <= sw)%Z ->
  WaveCanvas.mounted ws = true -> ShoalingCanvas.mounted ss = true ->
  WaveCanvas.ripples (fst (WaveCanvas.draw ww h now ws)) = [] /\
  ShoalingCanvas.ripples (fst (ShoalingCanvas.draw sw h ss)) = [].
Proof.
  intros ws ss Hww Hsw Hmw Hms. split.
  - apply WaveMore.wave_draw_clears_ripples; [exact Hww | exact Hmw|].
    apply WaveMore.wave_run_ripples_ok. constructor.
  - apply ShoalingMore.shoal_draw_clears_ripples; [exact Hsw | exact Hms|].
    apply ShoalingFacts.run_ripples_ok. constructor.
Qed.

Lemma ripples_vanish_within_a_frame_witness :
  WaveCanvas.ripples
    (fst (@WaveCanvas.draw exampleMath 800 360 0
            (@WaveCanvas.run exampleMath [WaveCanvas.Click 150; WaveCanvas.Click 400]
               (WaveCanvas.init 40 1 280)))) = [].
Proof.
  assert (Hw : (108 <= 800)%Z) by lia. assert (Hs : (488 <= 800)%Z) by lia.
  exact (proj1 (ripples_vanish_within_a_frame exampleMath
                  [WaveCanvas.Click 150; WaveCanvas.Click 400] [ShoalingCanvas.Click 150]
                  40 1 280 0 800 800 360 Hw Hs eq_refl eq_refl)).
Defined.



(** X18: as long as the clamp does not bite, a touch drag adds up, in each
    canvas on its own: the amplitude changes by 0.2 (0.22 in ShoalingCanvas)
    times the distance from the [y] the drag started at to the [y] it ended
    at, upwards raising it, so a drag that returns to its starting point
    restores the amplitude; [lastY] is the last [y] reported. *)
Theorem touch_drag_adds_up
    (ws : WaveCanvas.State) (ss : ShoalingCanvas.State) (wys sys : list Q) :
  (WaveCanvas.unclamped ws wys ->
   WaveCanvas.amp (WaveCanvas.touchDrag wys ws)
   == WaveCanvas.amp ws
      + (WaveCanvas.lastY ws - last wys (WaveCanvas.lastY ws)) * 0.2 /\
   WaveCanvas.lastY (WaveCanvas.touchDrag wys ws) = last wys (WaveCanvas.lastY ws)) /\
  (ShoalingCanvas.unclamped ss sys ->
   ShoalingCanvas.amp (ShoalingCanvas.touchDrag sys ss)
   == ShoalingCanvas.amp ss
      + (ShoalingCanvas.lastY ss - last sys (ShoalingCanvas.lastY ss)) * 0.22 /\
   ShoalingCanvas.lastY (ShoalingCanvas.touchDrag sys ss)
   = last sys (ShoalingCanvas.lastY ss)).
Proof.
  split.
  - apply WaveMore.wave_drag_telescopes.
  - apply ShoalingMore.shoal_drag_telescopes.
Qed.

(** A WaveCanvas drag 50 px up and back, and a ShoalingCanvas drag 50 px up
    from an amplitude of 100. *)
Lemma touch_drag_adds_up_witness :
  WaveCanvas.amp
    (WaveCanvas.touchDrag [250; 280; 300]
       (WaveCanvas.onTouchStart 300 (WaveCanvas.init 40 1 280)))
  == 40 + (300 - 300) * 0.2 /\
  ShoalingCanvas.amp
    (ShoalingCanvas.touchDrag [280; 250]
       (ShoalingCanvas.onTouchStart 300 (ShoalingCanvas.init 100 1)))
  == 100 + (300 - 250) * 0.22.
Proof.
  pose proof (touch_drag_adds_up
                (WaveCanvas.onTouchStart 300 (WaveCanvas.init 40 1 280))
                (ShoalingCanvas.onTouchStart 300 (ShoalingCanvas.init 100 1))
                [250; 280; 300] [280; 250]) as [Hw Hs].
  split.
  - apply Hw. cbn [WaveCanvas.unclamped]. repeat split; apply Qle_bool_iff; reflexivity.
  - apply Hs. cbn [ShoalingCanvas.unclamped]. repeat split; apply Qle_bool_iff; reflexivity.
Defined.

(** *** Witnesses for the cyclone and the seabed *)

Lemma center_stays_on_track_witness :
  -(120) <= pt_x (@TyphoonCanvas.sampleCenter exampleMath
                    (TyphoonCanvas.mkProps 1 80 0.9 60 5) 800 400 10)
  /\ pt_x (@TyphoonCanvas.sampleCenter exampleMath
             (TyphoonCanvas.mkProps 1 80 0.9 60 5) 800 400 10) < inject_Z 800 + 120.
Proof.
  apply (@TyphoonMore.center_stays_on_track exampleMath
           (TyphoonCanvas.mkProps 1 80 0.9 60 5) 800 400 10).
  - intro a. cbn. lra.
  - lia.
  - cbn. lra.
  - cbn. lra.
Defined.

Lemma center_x_periodic_witness :
  pt_x (@TyphoonCanvas.sampleCenter exampleMath
          (TyphoonCanvas.mkProps 1 80 0.9 60 5) 800 400 14)
  == pt_x (@TyphoonCanvas.sampleCenter exampleMath
             (TyphoonCanvas.mkProps 1 80 0.9 60 5) 800 400 1).
Proof.
  apply (@TyphoonMore.center_x_periodic exampleMath).
  - lia.
  - cbn. lra.
  - reflexivity.
Defined.

Lemma bands_fade_with_depth_witness :
  let c := @TyphoonCanvas.drawCyclone exampleMath
             (TyphoonCanvas.mkProps 1 80 0.9 60 5) 400 200 10 in
  let d := TyphoonCanvas.mkBand [] 0 0 0 in
  TyphoonCanvas.band_lineWidth (nth 1 (TyphoonCanvas.cy_bands c) d)
  < TyphoonCanvas.band_lineWidth (nth 0 (TyphoonCanvas.cy_bands c) d).
Proof.
  apply (proj2 (@TyphoonMore.bands_fade_with_depth exampleMath
                  (TyphoonCanvas.mkProps 1 80 0.9 60 5) 400 200 10
                  (TyphoonCanvas.mkBand [] 0 0 0)) 0%nat 1%nat).
  - lia.
  - vm_compute. lia.
Defined.

Lemma bands_have_equal_point_count_witness :
  Forall (fun b => length (TyphoonCanvas.band_pts b)
                   = @TyphoonCanvas.spiral_fuel (5 * @PI exampleMath * 2) 0.18)
         (TyphoonCanvas.cy_bands
            (@TyphoonCanvas.drawCyclone exampleMath
               (TyphoonCanvas.mkProps 1 80 0.9 60 5) 400 200 10)).
Proof.
  apply (@TyphoonMore.bands_have_equal_point_count exampleMath). cbn. lra.
Defined.

Lemma page_props_need_no_clamping_witness :
  let s := AnimationPage.session
             [AnimationPage.SetWind 1.2; AnimationPage.SetBands 6.4;
              AnimationPage.Reset; AnimationPage.SetBands 7.6] in
  (2 <= TyphoonCanvas.bandCount (TyphoonCanvas.bands s) <= 8)%Z.
Proof.
  apply PageFacts.page_props_need_no_clamping.
  repeat constructor; cbn; lra.
Defined.

Lemma seabed_profile_witness :
  @ShoalingCanvas.seabedY 400 800 360 <= @ShoalingCanvas.seabedY 100 800 360.
Proof.
  apply (ShoalingMore.seabed_profile 100 400 800 360); lra.
Defined.

Lemma shoaling_is_monotone_witness :
  ShoalingCanvas.A 40 100 800 <= ShoalingCanvas.A 40 400 800.
Proof.
  apply (ShoalingMore.shoaling_is_monotone 40 100 400 800); lra.
Defined.

Lemma phase_advances_along_the_line_witness :
  ShoalingCanvas.steps_between
    (2 * @PI exampleMath / 260 * 2) (2 * @PI exampleMath / 70 * 2)
    (-(2.2) * (0 + 0.016 * (0.9 + 1 * 0.4)))
    (map ShoalingCanvas.smp_theta
       (snd (@ShoalingCanvas.draw exampleMath 8 8 (ShoalingCanvas.init 40 1)))).
Proof.
  apply (@ShoalingMore.phase_advances_along_the_line exampleMath 8 8
           (ShoalingCanvas.init 40 1)).
  - cbn. lra.
  - reflexivity.
Defined.

(** *** Calm water and fresh foam *)


Lemma scaled_sine_bound (sv a b : Q) :
  -(1) <= sv <= 1 -> Qabs a <= b -> -b <= sv * a <= b.
Proof.
  intros [H0 H1] Hb. apply Qabs_Qle_condition in Hb. destruct Hb as [Hb0 Hb1].
  destruct (Qlt_le_dec a 0) as [Ha|Ha].
  - assert (0 <= (1 - sv) * (0 - a)) by (apply Qmult_le_0_compat; lra).
    assert (0 <= (sv + 1) * (0 - a)) by (apply Qmult_le_0_compat; lra).
    split; lra.
  - assert (0 <= (1 - sv) * a) by (apply Qmult_le_0_compat; lra).
    assert (0 <= (sv + 1) * a) by (apply Qmult_le_0_compat; lra).
    split; lra.
Qed.

Lemma wave_layerPoints_calm (M : JSMath) s i a l yBase t xs :
  (forall v, -(1) <= sin v <= 1) -> inside (WaveCanvas.pointer s) = false ->
  Forall (fun p => Qabs (pt_y p - yBase) <= Qabs a)
         (fst (WaveCanvas.layerPoints s i a l yBase t xs [])).
Proof.
  intros Hsin Hout. induction xs as [|x xs IH]; cbn [WaveCanvas.layerPoints].
  - constructor.
  - cbn [WaveCanvas.rippleOffset].
    destruct (WaveCanvas.layerPoints s i a l yBase t xs []) as [pts rs2].
    cbn [fst] in *. constructor; [|exact IH]. cbn [pt_y].
    unfold WaveCanvas.pointerHint. rewrite Hout. cbn [negb].
    match goal with |- context [sin ?v] => pose proof (Hsin v) as Hs;
      set (sv := sin v) in * end.
    pose proof (scaled_sine_bound sv a (Qabs a) Hs (Qle_refl _)) as [B0 B1].
    apply Qabs_Qle_condition. split; lra.
Qed.

Lemma shoal_surface_calm (M : JSMath) s w h baseY xs theta :
  (forall v, -(1) <= sin v <= 1) -> inside (ShoalingCanvas.pointer s) = false ->
  0 <= ShoalingCanvas.amp s ->
  Forall (fun smp =>
            (baseY - 2.4 * ShoalingCanvas.amp s <= ShoalingCanvas.smp_yWave smp /\
             ShoalingCanvas.smp_yWave smp <= baseY + 2.4 * ShoalingCanvas.amp s) /\
            pt_y (ShoalingCanvas.smp_pt smp) <= ShoalingCanvas.smp_yWave smp)
         (fst (ShoalingCanvas.surface s w h baseY xs theta [])).
Proof.
  intros Hsin Hout Hamp. revert theta.
  induction xs as [|x xs IH]; intro theta; cbn [ShoalingCanvas.surface].
  - constructor.
  - cbn [ShoalingCanvas.rippleOffset].
    match goal with |- context [ShoalingCanvas.surface s w h baseY xs ?th []] =>
      specialize (IH th);
      destruct (ShoalingCanvas.surface s w h baseY xs th []) as [rest rs2] end.
    cbn [fst] in *. constructor; [|exact IH].
    cbn [ShoalingCanvas.smp_yWave ShoalingCanvas.smp_pt pt_y].
    unfold ShoalingCanvas.lift. rewrite Hout.
    pose proof (ShoalingFacts.A_range (ShoalingCanvas.amp s) (inject_Z x) (inject_Z w) Hamp)
      as [A0 A1].
    set (Ay := ShoalingCanvas.A (ShoalingCanvas.amp s) (inject_Z x) (inject_Z w)) in *.
    match goal with |- context [sin ?v] => pose proof (Hsin v) as Hs;
      set (sv := sin v) in * end.
    assert (HA : Qabs Ay <= 2.4 * ShoalingCanvas.amp s).
    { rewrite Qabs_pos; lra. }
    pose proof (scaled_sine_bound sv Ay _ Hs HA) as [B0 B1].
    split; [split; lra|]. apply Q.le_min_l.
Qed.

(** X22: calm water stays within its amplitude.  With the pointer outside
    and no ripple alive, every point of a WaveCanvas layer lies within the
    layer's amplitude, [amp * (1 - 0.22 i)], of the layer's base line
    [h / 2 + 6 i]; and in ShoalingCanvas the unclamped water level lies
    within 2.4 times the deep amplitude of the base level [0.38 h], the
    drawn point never below it. *)
Theorem calm_water_stays_within_amplitude
    (M : JSMath) (w h i : Z) (t : Q)
    (ws : WaveCanvas.State) (ss : ShoalingCanvas.State) :
  (forall v, -(1) <= sin v <= 1) ->
  inside (WaveCanvas.pointer ws) = false ->
  inside (ShoalingCanvas.pointer ss) = false ->
  ShoalingCanvas.ripples ss = [] -> ShoalingCanvas.mounted ss = true ->
  0 <= ShoalingCanvas.amp ss ->
  Forall (fun p =>
            Qabs (pt_y p - (inject_Z h * 0.5 + inject_Z i * 6))
            <= Qabs (WaveCanvas.amp ws * (1 - inject_Z i * 0.22)))
         (fst (WaveCanvas.drawWaveLayer w h i t ws [])) /\
  Forall (fun smp =>
            (inject_Z h * 0.38 - 2.4 * ShoalingCanvas.amp ss
               <= ShoalingCanvas.smp_yWave smp /\
             ShoalingCanvas.smp_yWave smp
               <= inject_Z h * 0.38 + 2.4 * ShoalingCanvas.amp ss) /\
            pt_y (ShoalingCanvas.smp_pt smp) <= ShoalingCanvas.smp_yWave smp)
         (snd (ShoalingCanvas.draw w h ss)).
Proof.
  intros Hsin Hw Hs Hr Hm Hamp. split.
  - unfold WaveCanvas.drawWaveLayer. apply wave_layerPoints_calm; assumption.
  - destruct (ShoalingFacts.shoal_draw_mounted w h ss Hm) as (_ & _ & _ & _ & E).
    rewrite E, Hr. apply shoal_surface_calm; assumption.
Qed.

Lemma calm_water_stays_within_amplitude_witness :
  Forall (fun p =>
            Qabs (pt_y p - (inject_Z 8 * 0.5 + inject_Z 1 * 6))
            <= Qabs (WaveCanvas.amp (WaveCanvas.init 40 1 280) * (1 - inject_Z 1 * 0.22)))
         (fst (@WaveCanvas.drawWaveLayer exampleMath 8 8 1 0 (WaveCanvas.init 40 1 280) [])).
Proof.
  apply (calm_water_stays_within_amplitude exampleMath 8 8 1 0
           (WaveCanvas.init 40 1 280) (ShoalingCanvas.init 40 1));
    try reflexivity.
  - intro v. cbn [sin exampleMath]. split; discriminate.
  - discriminate.
Defined.


